(** * Sparse signatures and conformal anomaly detection: a shallow embedding

    The development follows three source files of the repository:
    - [src/encoders/usad.js]      keyed BLAKE2b, robust statistics, the sparse
                                  encoder, sparse cosine, the conformal
                                  quantile and the [USADetector] class;
    - [src/encoders/rh-sparse.js] the [MultiScaleAnomaly] tracker;
    - [src/encoders/kk-kernel.js] the KK kernel ([kkScore] and its parts).

    JavaScript numbers are IEEE-754 binary64 values; they are modelled by
    Rocq's primitive floats, whose operations are the same binary64
    operations.  BigInt values are modelled by [Z] with the 64-bit masks of
    the source written out.  Exceptions are modelled by the [result] type. *)

From Stdlib Require Import ZArith List Lia Floats String Ascii Uint63 Permutation Sorted.
From stdpp Require Import base list gmap.
Import ListNotations.

Open Scope Z_scope.

(** Decimal literals such as [1e-12] are read as the nearest binary64
    value, as JavaScript reads them. *)
#[local] Set Warnings "-inexact-float".

(** ** Results of calls that may throw *)

Inductive result (A : Type) : Type :=
| Ok (a : A)
| Throw (msg : string).
Arguments Ok {A} a.
Arguments Throw {A} msg.

Definition bind {A B : Type} (r : result A) (f : A -> result B) : result B :=
  match r with
  | Ok a => f a
  | Throw m => Throw m
  end.

Notation "'do' x <- r ; k" := (bind r (fun x => k))
  (at level 10, x name, r at level 100, k at level 200).

Definition throws {A : Type} (r : result A) : Prop :=
  match r with
  | Ok _ => False
  | Throw _ => True
  end.

(** ** JavaScript numbers *)

Module JS.

(** [NaN], which is also what an [undefined] operand becomes in arithmetic. *)
Definition NaN : float := PrimFloat.nan.

(** The literals of the sources. *)
Definition c_0_5 : float := 0.5%float.
Definition c_1_4826 : float := 1.4826%float.
Definition c_1em12 : float := 1e-12%float.

(** An array length or index as a number (exact below [2^53]). *)
Definition of_Z (z : Z) : float :=
  if z <? 0 then PrimFloat.opp (PrimFloat.of_uint63 (Uint63.of_Z (- z)))
  else PrimFloat.of_uint63 (Uint63.of_Z z).

Definition of_nat (n : nat) : float := of_Z (Z.of_nat n).

(** [a > b], [a < b] and [a === b] on numbers. *)
Definition num_gt (a b : float) : bool := PrimFloat.ltb b a.
Definition num_lt (a b : float) : bool := PrimFloat.ltb a b.
Definition strict_eq (a b : float) : bool := PrimFloat.eqb a b.

Definition Math_abs (x : float) : float := PrimFloat.abs x.
Definition Math_sqrt (x : float) : float := PrimFloat.sqrt x.

(** [Math.sign]: [1], [-1], or the argument itself for [+0], [-0], [NaN]. *)
Definition Math_sign (x : float) : float :=
  if PrimFloat.ltb 0 x then 1%float
  else if PrimFloat.ltb x 0 then (-1)%float
  else x.

(** [Math.max] on two numbers: [NaN] when either is, and [+0] above [-0]. *)
Definition Math_max (a b : float) : float :=
  if PrimFloat.is_nan a || PrimFloat.is_nan b then NaN
  else if PrimFloat.ltb a b then b
  else if PrimFloat.ltb b a then a
  else if PrimFloat.get_sign a then b else a.

(** The truthiness test behind [x || 0] on a number or [undefined]. *)
Definition or_zero (x : option float) : float :=
  match x with
  | Some v => if PrimFloat.is_nan v || PrimFloat.is_zero v then 0%float else v
  | None => 0%float
  end.

(** *** Integral numbers

    [Math.ceil] returns a number that is an integer, an infinity or [NaN];
    the index arithmetic done on it ([- 1], then [Math.min] and [Math.max]
    against array bounds) stays in that set and is carried out on [Z].
    Below [2^53] that is exact; above, [- 1] may be absorbed by rounding,
    but the clamp against an array bound returns the bound either way. *)
Inductive integral : Type :=
| INaN
| INegInf
| IPosInf
| IFin (z : Z).

(** A finite double is [(-1)^s * m * 2^e]; its ceiling as an integer. *)
Definition ceil_finite (s : bool) (m : positive) (e : Z) : Z :=
  let num := if s then Z.neg m else Z.pos m in
  if 0 <=? e then num * 2 ^ e else - ((- num) / 2 ^ (- e)).

Definition Math_ceil (x : float) : integral :=
  match Prim2SF x with
  | S754_nan => INaN
  | S754_infinity true => INegInf
  | S754_infinity false => IPosInf
  | S754_zero _ => IFin 0
  | S754_finite s m e => IFin (ceil_finite s m e)
  end.

Definition isub1 (a : integral) : integral :=
  match a with
  | IFin z => IFin (z - 1)
  | other => other
  end.

(** [Math.min(n, a)] and [Math.max(n, a)] for an integer [n]. *)
Definition imin (n : Z) (a : integral) : integral :=
  match a with
  | INaN => INaN
  | INegInf => INegInf
  | IPosInf => IFin n
  | IFin z => IFin (Z.min n z)
  end.

Definition imax (n : Z) (a : integral) : integral :=
  match a with
  | INaN => INaN
  | INegInf => IFin n
  | IPosInf => IPosInf
  | IFin z => IFin (Z.max n z)
  end.

(** [arr[k]]: an element for an index in range, [undefined] otherwise. *)
Definition index {A : Type} (arr : list A) (k : integral) : option A :=
  match k with
  | IFin z => if 0 <=? z then arr !! Z.to_nat z else None
  | _ => None
  end.

(** *** [Array.prototype.sort] with a comparator

    The sort is stable; [after a b] is [cmp(a, b) > 0], that is, [a] has to
    come after [b].  For a comparator that is not consistent (a [NaN]
    difference) the language leaves the order to the implementation; the
    model then inserts from the right as well, which need not be the
    order that an engine produces.  What is proved of the order of a
    sorted array is therefore stated for inputs without [NaN]. *)
Section Sort.
Context {A : Type}.
Variable after : A -> A -> bool.

Fixpoint insert_sorted (x : A) (l : list A) : list A :=
  match l with
  | [] => [x]
  | y :: l' => if after x y then y :: insert_sorted x l' else x :: l
  end.

Definition sort_by (l : list A) : list A :=
  fold_right insert_sorted [] l.
End Sort.

(** [arr.slice().sort((a, b) => a - b)] on numbers. *)
Definition sort_ascending (l : list float) : list float :=
  sort_by (fun a b => num_gt (a - b)%float 0%float) l.

(** [arr.slice(0, k)] for an integer [k]: a negative end counts from the
    end of the array. *)
Definition slice0 {A : Type} (l : list A) (k : Z) : list A :=
  if k <? 0 then firstn (Z.to_nat (Z.of_nat (length l) + k)) l
  else firstn (Z.to_nat k) l.

(** [arr.reduce((s, v) => s + v, 0)]. *)
Definition sum (l : list float) : float :=
  fold_left (fun s v => (s + v)%float) l 0%float.


(** *** More of the number library *)

(** [isFinite(x)] on a number. *)
Definition isFinite (x : float) : bool := PrimFloat.is_finite x.

(** [x || 1] on a number: [0], [-0] and [NaN] are falsy. *)
Definition or_one (x : float) : float :=
  if PrimFloat.is_nan x || PrimFloat.is_zero x then 1%float else x.

(** [Math.min] on two numbers: [NaN] when either is, and [-0] below [+0]. *)
Definition Math_min (a b : float) : float :=
  if PrimFloat.is_nan a || PrimFloat.is_nan b then NaN
  else if PrimFloat.ltb a b then a
  else if PrimFloat.ltb b a then b
  else if PrimFloat.get_sign a then a else b.

(** [Math.min(...xs)] and [Math.max(...xs)]: [Infinity] and [-Infinity]
    on no argument. *)
Definition Math_min_of (xs : list float) : float :=
  fold_left Math_min xs PrimFloat.infinity.
Definition Math_max_of (xs : list float) : float :=
  fold_left Math_max xs PrimFloat.neg_infinity.

(** [Math.round]: the nearest integer, a tie going up; an argument that is
    an integer, an infinity, a zero or [NaN] is returned as it is, and a
    result that is zero keeps the sign of the argument. *)
Definition Math_round (x : float) : float :=
  match Prim2SF x with
  | S754_finite s m e =>
      if 0 <=? e then x
      else
        let num := if s then Z.neg m else Z.pos m in
        let n := (2 * num + 2 ^ (- e)) / 2 ^ (- e + 1) in
        if n =? 0 then (if s then (-0)%float else 0%float) else of_Z n
  | _ => x
  end.

End JS.

(** ** Keyed BLAKE2b-128, as written in usad.js

    A byte is a [Z] in [[0, 256)], a 64-bit word a [Z] in [[0, 2^64)].
    [IV] and [SIGMA] are the tables of the source.  (The sixth row of
    [SIGMA] is not the one of RFC 7693, so the digests are those of
    usad.js, not those of a standard BLAKE2b.) *)

Module Blake2b.

Definition mask64 : Z := 0xffffffffffffffff.

Definition IV : list Z :=
  [ 0x6a09e667f3bcc908; 0xbb67ae8584caa73b; 0x3c6ef372fe94f82b; 0xa54ff53a5f1d36f1;
    0x510e527fade682d1; 0x9b05688c2b3e6c1f; 0x1f83d9abfb41bd6b; 0x5be0cd19137e2179 ].

Definition SIGMA : list (list nat) :=
  [ [0;1;2;3;4;5;6;7;8;9;10;11;12;13;14;15];
    [14;10;4;8;9;15;13;6;1;12;0;2;11;7;5;3];
    [11;8;12;0;5;2;15;13;10;14;3;6;7;1;9;4];
    [7;9;3;1;13;12;11;14;2;6;5;10;4;0;15;8];
    [9;0;5;7;2;4;10;15;14;1;11;12;6;8;3;13];
    [2;12;6;10;4;7;15;14;1;11;9;5;3;13;8;0];
    [12;5;1;15;14;13;4;10;0;7;6;3;9;2;8;11];
    [13;11;7;14;12;1;3;9;5;0;15;4;8;6;2;10];
    [6;15;14;9;11;3;0;8;12;2;13;7;1;4;10;5];
    [10;2;8;4;7;6;1;5;15;11;9;14;3;12;13;0];
    [0;1;2;3;4;5;6;7;8;9;10;11;12;13;14;15];
    [14;10;4;8;9;15;13;6;1;12;0;2;11;7;5;3] ]%nat.

Definition rotr (x : Z) (n : Z) : Z :=
  Z.land (Z.lor (Z.shiftr x n) (Z.shiftl x (64 - n))) mask64.

(** [v[i]] on the 16-word work vector (and [m[i]], [h[i]]). *)
Definition word (v : list Z) (i : nat) : Z := nth i v 0.

Definition G (v : list Z) (a b c d : nat) (x y : Z) : list Z :=
  let v := <[a := Z.land (word v a + word v b + x) mask64]> v in
  let v := <[d := rotr (Z.lxor (word v d) (word v a)) 32]> v in
  let v := <[c := Z.land (word v c + word v d) mask64]> v in
  let v := <[b := rotr (Z.lxor (word v b) (word v c)) 24]> v in
  let v := <[a := Z.land (word v a + word v b + y) mask64]> v in
  let v := <[d := rotr (Z.lxor (word v d) (word v a)) 16]> v in
  let v := <[c := Z.land (word v c + word v d) mask64]> v in
  let v := <[b := rotr (Z.lxor (word v b) (word v c)) 63]> v in
  v.

(** [dv.getUint32(o, true)]: four bytes, little-endian. *)
Definition getUint32 (b : list Z) (o : nat) : Z :=
  nth o b 0 + Z.shiftl (nth (o + 1) b 0) 8
  + Z.shiftl (nth (o + 2) b 0) 16 + Z.shiftl (nth (o + 3) b 0) 24.

Definition blockToWords (b : list Z) : list Z :=
  map (fun i : nat =>
         let o := (i * 8)%nat in
         if (o + 8 <=? length b)%nat then
           Z.lor (Z.shiftl (getUint32 b (o + 4)) 32) (getUint32 b o)
         else if (o <? length b)%nat then
           fold_left (fun word j =>
                        if (o + j <? length b)%nat
                        then Z.lor word (Z.shiftl (nth (o + j) b 0) (8 * Z.of_nat j))
                        else word)
                     (seq 0 8) 0
         else 0)
      (seq 0 16).

(** [new Uint8Array(BLOCK)] followed by [set(bytes)]. *)
Definition pad128 (bytes : list Z) : list Z :=
  bytes ++ repeat 0 (128 - length bytes).

(** The input cut into pieces of at most 128 bytes ([fuel] bounds the
    number of pieces; the input length is always enough). *)
Fixpoint chunks (fuel : nat) (input : list Z) : list (list Z) :=
  match fuel, input with
  | _, [] => []
  | O, _ => []
  | S fuel', _ => firstn 128 input :: chunks fuel' (skipn 128 input)
  end.

Definition round (m : list Z) (v : list Z) (s : list nat) : list Z :=
  let ms (i : nat) := word m (nth i s 0%nat) in
  let v := G v 0 4 8 12 (ms 0%nat) (ms 1%nat) in
  let v := G v 1 5 9 13 (ms 2%nat) (ms 3%nat) in
  let v := G v 2 6 10 14 (ms 4%nat) (ms 5%nat) in
  let v := G v 3 7 11 15 (ms 6%nat) (ms 7%nat) in
  let v := G v 0 5 10 15 (ms 8%nat) (ms 9%nat) in
  let v := G v 1 6 11 12 (ms 10%nat) (ms 11%nat) in
  let v := G v 2 7 8 13 (ms 12%nat) (ms 13%nat) in
  let v := G v 3 4 9 14 (ms 14%nat) (ms 15%nat) in
  v.

(** The chaining state carried by the loop over the blocks. *)
Record state := { st_h : list Z; st_t0 : Z; st_t1 : Z }.

Definition compress (st : state) (piece : list Z) (isLast : bool) : state :=
  let block := pad128 piece in
  let inc := Z.of_nat (length piece) in
  let t0 := Z.land (st_t0 st + inc) mask64 in
  let t1 := if t0 <? inc then Z.land (st_t1 st + 1) mask64 else st_t1 st in
  let m := blockToWords block in
  let h := st_h st in
  let v := h ++ IV in
  let v := <[12%nat := Z.land (Z.lxor (word v 12) t0) mask64]> v in
  let v := <[13%nat := Z.land (Z.lxor (word v 13) t1) mask64]> v in
  let v := if isLast
           then <[14%nat := Z.land (Z.lxor (word v 14) mask64) mask64]> v
           else v in
  let v := fold_left (round m) SIGMA v in
  let h' := map (fun i : nat =>
                   Z.land (Z.lxor (Z.lxor (word h i) (word v i)) (word v (i + 8))) mask64)
                (seq 0 8) in
  {| st_h := h'; st_t0 := t0; st_t1 := t1 |}.

Fixpoint absorb (st : state) (blocks : list (list Z)) : state :=
  match blocks with
  | [] => st
  | [piece] => compress st piece true
  | piece :: rest => absorb (compress st piece false) rest
  end.

(** The eight bytes of a 64-bit word, little-endian (two [setUint32]). *)
Definition bytes_of_word (w : Z) : list Z :=
  map (fun j : nat => Z.land (Z.shiftr w (8 * Z.of_nat j)) 0xff) (seq 0 8).

Definition blake2b (input : list Z) (outlen : Z) (key : list Z) : result (list Z) :=
  if (outlen <=? 0) || (64 <? outlen) then Throw "blake2b outlen"
  else
    let keylen := Z.of_nat (length key) in
    let param := Z.lor (Z.lor 0x01010000 (Z.shiftl keylen 8 mod 2 ^ 32)) outlen mod 2 ^ 32 in
    let h := <[0%nat := Z.lxor (word IV 0) param]> IV in
    if 128 <? keylen then Throw "RangeError: offset is out of bounds"
    else
      let blocks := (if keylen =? 0 then [] else [pad128 key])
                      ++ chunks (length input) input in
      let st := absorb {| st_h := h; st_t0 := 0; st_t1 := 0 |} blocks in
      Ok (firstn (Z.to_nat outlen) (flat_map bytes_of_word (st_h st))).

Definition u64leFromDigest16 (d : list Z) : Z :=
  Z.lor (Z.shiftl (getUint32 d 4) 32) (getUint32 d 0).

(** [TextEncoder.encode] on an ASCII string. *)
Definition encode_ascii (s : string) : list Z :=
  map (fun c => Z.of_N (N_of_ascii c)) (list_ascii_of_string s).

Definition DEFAULT_SALT1 : list Z := encode_ascii "USAD_salt_1".
Definition DEFAULT_SALT2 : list Z := encode_ascii "USAD_salt_2".

(** The index as eight little-endian bytes. *)
Definition to8LE (i : Z) : list Z :=
  bytes_of_word (Z.lor (Z.shiftl (Z.land (Z.shiftr i 32) 0xffffffff) 32)
                       (Z.land i 0xffffffff)).

(** [Number(b)] for a BigInt [b]: the nearest double, as an integer. *)
Definition Number_of_BigInt (b : Z) : Z :=
  if Z.abs b <? 2 ^ 53 then b
  else match binary_normalize prec emax b 0 false with
       | S754_finite s m e => (if s then -1 else 1) * Z.pos m * 2 ^ e
       | _ => b
       end.

Definition blake2bIndex (i : Z) (dim : Z) (key : list Z) : result Z :=
  do digest <- blake2b (to8LE i) 16 key;
  let v := u64leFromDigest16 digest in
  Ok (Number_of_BigInt (Z.rem v dim)).

End Blake2b.

(** ** usad.js: robust statistics, encoder, cosine, quantile, detector *)

Module Usad.
Import JS Blake2b.

(** *** Robust statistics (median and MAD) *)

(** [a[i]] on a typed array of numbers, inside arithmetic: an index out of
    range reads [undefined], which arithmetic turns into [NaN]. *)
Definition at_num (a : list float) (i : nat) : float := nth i a NaN.

Definition median (arr : list float) : float :=
  let a := sort_ascending arr in
  let n := length a in
  if Nat.odd n then at_num a ((n - 1) / 2)
  else if (n =? 0)%nat then NaN   (* a[0] and a[-1] are both undefined *)
       else (c_0_5 * (at_num a (n / 2) + at_num a (n / 2 - 1)))%float.

Definition robustZ (vec : list float) : list float :=
  let x := vec in
  let med := median x in
  let dev := map (fun xi => Math_abs (xi - med)) x in
  let mad := median dev in
  let scale := (c_1_4826 * (mad + c_1em12))%float in
  map (fun xi => ((xi - med) / scale)%float) x.

(** *** Sparse signature encoding *)

Record Hashing := {
  dim : Z;
  salt1 : option (list Z);
  salt2 : option (list Z);
  useDoubleHash : option bool
}.

Record Config := {
  k : Z;
  hashing : Hashing;
  clipQuantile : float
}.

Record SparseSignature := {
  idx : list Z;
  val : list float;
  norm : float
}.

Definition default_hashing (d : Z) : Hashing :=
  {| dim := d; salt1 := Some DEFAULT_SALT1; salt2 := Some DEFAULT_SALT2;
     useDoubleHash := Some true |}.

(** The default parameters of [encodeSparseSignature]:
    [k = 16], [dim = 4096], [clipQuantile = 0.95]. *)
Definition default_config : Config :=
  {| k := 16; hashing := default_hashing 4096;
     clipQuantile := 0.95%float |}.

(** The elevation step: damping by the [clipQuantile] quantile of [|z|]. *)
Definition elevation (z : list float) (clip : float) : list float :=
  let abs := map Math_abs z in
  if num_gt clip 0%float && num_lt clip 1%float then
    let sorted := sort_ascending abs in
    let len := length sorted in
    let qpos := imax 0 (imin (Z.of_nat len - 1)
                             (isub1 (Math_ceil (of_nat len * clip)%float))) in
    let q := default NaN (index sorted qpos) in
    map (fun zi => (Math_sign zi * Math_max (Math_abs zi - q) 0)%float) z
  else z.

(** The feature indices ranked by [|elev|], largest first, cut at [k]. *)
Definition ranked (elev : list float) (k : Z) : list nat :=
  let n := length elev in
  let idxs := sort_by (fun i j =>
                num_gt (Math_abs (at_num elev j) - Math_abs (at_num elev i))%float 0%float)
                (seq 0 n) in
  if k <? Z.of_nat n then slice0 idxs k else idxs.

(** The arrays [pos], [val] and the map [taken] of the placement loop. *)
Record slots := {
  pos : list Z;
  vals : list float;
  taken : gmap Z nat
}.

Definition empty_slots : slots := {| pos := []; vals := []; taken := ∅ |}.

(** The last part of the loop body: overwrite the slot that [chosen]
    already has, or push a new one.  ([taken] only maps to indices of
    pushed entries, so the overwrite is always in range.) *)
Definition claim (s : slots) (chosen : Z) (v : float) : slots :=
  match taken s !! chosen with
  | Some i => {| pos := <[i := chosen]> (pos s);
                 vals := <[i := v]> (vals s);
                 taken := taken s |}
  | None => {| pos := pos s ++ [chosen];
               vals := vals s ++ [v];
               taken := <[chosen := length (pos s)]> (taken s) |}
  end.

(** [Math.abs(v) > Math.abs(val[ie])] for the incumbent of slot [p1]. *)
Definition beats (s : slots) (v : float) (p1 : Z) : bool :=
  match taken s !! p1 with
  | Some ie => num_gt (Math_abs v) (Math_abs (at_num (vals s) ie))
  | None => false
  end.

(** One iteration of [for (const orig of idxs)]. *)
Definition place (h : Hashing) (elev : list float) (s : slots) (orig : nat)
  : result slots :=
  let v := at_num elev orig in
  if strict_eq v 0%float then Ok s
  else
    do p1 <- blake2bIndex (Z.of_nat orig) (dim h) (default DEFAULT_SALT1 (salt1 h));
    if bool_decide (is_Some (taken s !! p1)) then
      if default true (useDoubleHash h) then
        do p2 <- blake2bIndex (Z.of_nat orig) (dim h) (default DEFAULT_SALT2 (salt2 h));
        if negb (bool_decide (is_Some (taken s !! p2))) then Ok (claim s p2 v)
        else if beats s v p1 then Ok (claim s p1 v) else Ok s
      else
        if beats s v p1 then Ok (claim s p1 v) else Ok s
    else Ok (claim s p1 v).

Fixpoint place_all (h : Hashing) (elev : list float) (s : slots) (idxs : list nat)
  : result slots :=
  match idxs with
  | [] => Ok s
  | orig :: rest => do s' <- place h elev s orig; place_all h elev s' rest
  end.

(** [new Int32Array(...)] on integer-valued numbers: wrap to 32 bits. *)
Definition toInt32 (p : Z) : Z := (p + 2 ^ 31) mod 2 ^ 32 - 2 ^ 31.

(** The L2 norm as accumulated in the source, left to right from [0]. *)
Definition l2norm (vv : list float) : float :=
  Math_sqrt (fold_left (fun acc x => (acc + x * x)%float) vv 0%float).

Definition finish (s : slots) : SparseSignature :=
  if (length (pos s) =? 0)%nat then {| idx := []; val := []; norm := 0%float |}
  else
    let order := sort_by (fun a b => 0 <? nth a (pos s) 0 - nth b (pos s) 0)
                         (seq 0 (length (pos s))) in
    let vv := map (fun i => at_num (vals s) i) order in
    {| idx := map (fun i => toInt32 (nth i (pos s) 0)) order;
       val := vv;
       norm := l2norm vv |}.

Definition encodeSparseSignature (vec : list float) (c : Config)
  : result SparseSignature :=
  if k c <=? 0 then Throw "k must be positive"
  else if dim (hashing c) <=? 0 then Throw "hashing.dim must be positive"
  else
    let z := robustZ vec in
    let elev := elevation z (clipQuantile c) in
    let idxs := ranked elev (k c) in
    do s <- place_all (hashing c) elev empty_slots idxs;
    Ok (finish s).

(** *** Sparse cosine and distance *)

(** The entries [(idx[i], val[i])] walked by the merge. *)
Definition entries (a : SparseSignature) : list (Z * float) :=
  imap (fun i p => (p, at_num (val a) i)) (idx a).

(** The [while] loop of [cosineSparse]: both cursors move through the two
    position arrays; the outer recursion is on [a], the inner on [b]. *)
Fixpoint merge_dot (a : list (Z * float)) : list (Z * float) -> float -> float :=
  match a with
  | [] => fun _ dot => dot
  | (pa, va) :: a' =>
      fix inner (b : list (Z * float)) (dot : float) {struct b} : float :=
        match b with
        | [] => dot
        | (pb, vb) :: b' =>
            if pa =? pb then merge_dot a' b' (dot + va * vb)%float
            else if pa <? pb then merge_dot a' b dot
            else inner b' dot
        end
  end.

Definition cosineSparse (a b : SparseSignature) : float :=
  let dot := merge_dot (entries a) (entries b) 0%float in
  let denom := ((norm a + c_1em12) * (norm b + c_1em12))%float in
  if num_gt denom 0%float then (dot / denom)%float else 0%float.

Definition distanceSparse (a b : SparseSignature) : float :=
  (1 - cosineSparse a b)%float.

(** *** Conformal quantile *)

Definition quantile_rank (n : nat) (alpha : float) : integral :=
  imax 0 (imin (Z.of_nat n - 1)
               (isub1 (Math_ceil (of_Z (Z.of_nat n + 1) * (1 - alpha))%float))).

(** The result is [arr[k]], which is [undefined] ([None]) for an index
    that is not in the array. *)
Definition conformalQuantile (scores : list float) (alpha : float)
  : result (option float) :=
  if negb (num_gt alpha 0%float && num_lt alpha 1%float)
  then Throw "alpha must be in (0,1)"
  else
    let n := length scores in
    if (n =? 0)%nat then Throw "need calibration scores"
    else
      let k := quantile_rank n alpha in
      let arr := sort_ascending scores in
      Ok (index arr k).

(** *** The detector *)

Record USADetector := {
  d_hashing : Hashing;
  d_k : Z;
  d_alpha : float;
  d_kNN : Z;
  d_clip : float;
  calSigs : list SparseSignature;
  calScores : list float;
  thr : option float
}.

(** [new USADetector({ dim, k, alpha, kNN, hashing, clipQuantile })]. *)
Definition new_detector (dim k : Z) (alpha : float) (kNN : Z)
    (hashing : option Hashing) (clip : float) : USADetector :=
  {| d_hashing := default (default_hashing dim) hashing;
     d_k := k; d_alpha := alpha; d_kNN := kNN; d_clip := clip;
     calSigs := []; calScores := []; thr := None |}.

Definition encode (d : USADetector) (x : list float) : result SparseSignature :=
  encodeSparseSignature x
    {| k := d_k d; hashing := d_hashing d; clipQuantile := d_clip d |}.

(** [dists.slice(0, kEff).reduce((s, v) => s + v, 0) / kEff] with
    [kEff = Math.min(kNN, dists.length)], on the sorted distances. *)
Definition knn_mean (kNN : Z) (dists : list float) : float :=
  let kEff := Z.min kNN (Z.of_nat (length dists)) in
  (sum (slice0 dists kEff) / of_Z kEff)%float.

Fixpoint encode_all (d : USADetector) (calibration : list (list float))
  : result (list SparseSignature) :=
  match calibration with
  | [] => Ok []
  | v :: rest =>
      do sv <- encode d v;
      do srest <- encode_all d rest;
      Ok (sv :: srest)
  end.

(** The leave-one-out score of pool member [i]. *)
Definition loo_score (kNN : Z) (sigs : list SparseSignature) (i : nat)
    (si : SparseSignature) : float :=
  let dists := map (distanceSparse si) (delete i sigs) in
  if (length dists =? 0)%nat then 0%float
  else knn_mean kNN (sort_ascending dists).

(** A call returns its value and the detector after it.  A call that
    throws is fatal to the caller; the detector it leaves behind is not
    modelled. *)
Definition calibrate (d : USADetector) (calibration : list (list float))
  : result (option float * USADetector) :=
  do sigs <- encode_all d calibration;
  let n := length sigs in
  if (n =? 0)%nat then Throw "need calibration vectors"
  else
    let scores := imap (loo_score (d_kNN d) sigs) sigs in
    do t <- conformalQuantile scores (d_alpha d);
    Ok (t, {| d_hashing := d_hashing d; d_k := d_k d; d_alpha := d_alpha d;
              d_kNN := d_kNN d; d_clip := d_clip d;
              calSigs := sigs; calScores := scores; thr := t |}).

Definition nonconformity (d : USADetector) (x : list float) : result float :=
  if (length (calSigs d) =? 0)%nat then Throw "not calibrated"
  else
    do sx <- encode d x;
    let dists := sort_ascending (map (fun s => distanceSparse sx s) (calSigs d)) in
    Ok (knn_mean (d_kNN d) dists).

Definition threshold (d : USADetector) : result float :=
  match thr d with
  | None => Throw "threshold not set"
  | Some t => Ok t
  end.

Record Prediction := {
  isAnomaly : bool;
  score : float;
  p_threshold : float
}.

Definition predict (d : USADetector) (x : list float) : result Prediction :=
  do s <- nonconformity d x;
  do t <- threshold d;
  Ok {| isAnomaly := num_gt s t; score := s; p_threshold := t |}.

Definition updateIfNormal (d : USADetector) (x : list float)
  : result (bool * USADetector) :=
  do p <- predict d x;
  if isAnomaly p then Ok (false, d)
  else
    do sx <- encode d x;
    let sigs := calSigs d ++ [sx] in
    let dists := sort_ascending
                   (map (fun s => distanceSparse sx s) (slice0 sigs (-1))) in
    let newScore := if (length dists =? 0)%nat then 0%float
                    else knn_mean (d_kNN d) dists in
    let scores := calScores d ++ [newScore] in
    do t <- conformalQuantile scores (d_alpha d);
    Ok (true, {| d_hashing := d_hashing d; d_k := d_k d; d_alpha := d_alpha d;
                 d_kNN := d_kNN d; d_clip := d_clip d;
                 calSigs := sigs; calScores := scores; thr := t |}).

End Usad.

(** ** Objects used as maps from integer keys

    [Object.keys], [Object.values] and [Object.entries] list integer keys
    (array indices, [0 <= k < 2^32 - 1]) in ascending order, whatever the
    order of insertion; the association list is kept in that order.  A
    stored value may be [undefined]. *)

Module Obj.

Definition obj (V : Type) : Type := list (Z * V).

Fixpoint set {V : Type} (key : Z) (v : V) (o : obj V) : obj V :=
  match o with
  | [] => [(key, v)]
  | (k', v') :: o' =>
      if key =? k' then (key, v) :: o'
      else if key <? k' then (key, v) :: o
      else (k', v') :: set key v o'
  end.

Fixpoint get {V : Type} (o : obj V) (key : Z) : option V :=
  match o with
  | [] => None
  | (k', v') :: o' => if key =? k' then Some v' else get o' key
  end.

Definition keys {V : Type} (o : obj V) : list Z := map fst o.
Definition values {V : Type} (o : obj V) : list V := map snd o.

(** A map from positions to elevations: [d[positions[i]] = elevations[i]]
    for every [i], a later entry overwriting an earlier one. *)
Definition dict : Type := obj (option float).

Definition to_dict (positions : list Z) (elevations : list float) : dict :=
  fold_left (fun d '(i, p) => set p (elevations !! i) d)
            (imap (fun i p => (i, p)) positions) [].

(** [d[p]], which is [undefined] for an absent key as well. *)
Definition read (d : dict) (p : Z) : option float := mjoin (get d p).

(** A value inside arithmetic: [undefined] becomes [NaN]. *)
Definition to_num (v : option float) : float := default JS.NaN v.

(** [new Set(list)], in insertion order. *)
Fixpoint to_set (l : list Z) (seen : list Z) : list Z :=
  match l with
  | [] => []
  | x :: l' => if bool_decide (x ∈ seen) then to_set l' seen
               else x :: to_set l' (x :: seen)
  end.

End Obj.

(** ** rh-sparse.js: the multi-scale tracker *)

Module RhSparse.
Import JS Obj.

Record Signature := {
  positions : list Z;
  elevations : list float
}.

Record ring := {
  buf : list dict;
  cap : Z
}.

Record MultiScaleAnomaly := {
  scales : list Z;
  knn_k : Z;
  hist : obj ring
}.

Definition new_tracker (scales : list Z) (knn_k : Z) : MultiScaleAnomaly :=
  {| scales := scales;
     knn_k := knn_k;
     hist := fold_left (fun h s => Obj.set s {| buf := []; cap := s |} h) scales [] |}.

Definition sig_to_dict (sig : Signature) : dict :=
  to_dict (positions sig) (elevations sig).

Definition sumsq (d : dict) : float :=
  fold_left (fun acc v => (acc + to_num v * to_num v)%float) (values d) 0%float.

Definition sparse_cosine (a b : dict) : float :=
  if (length (keys a) =? 0)%nat || (length (keys b) =? 0)%nat then 0%float
  else
    let ks := to_set (keys a ++ keys b) [] in
    let dot := fold_left
                 (fun dot key => (dot + or_zero (read a key) * or_zero (read b key))%float)
                 ks 0%float in
    let na := Math_sqrt (sumsq a) in
    let nb := Math_sqrt (sumsq b) in
    if strict_eq na 0%float || strict_eq nb 0%float then 0%float
    else (dot / (na * nb))%float.

(** [sort((a, b) => b - a)]: largest first. *)
Definition sort_descending (l : list float) : list float :=
  sort_by (fun a b => num_gt (b - a)%float 0%float) l.

Definition topk_avg (r : ring) (q : dict) (k : Z) : float :=
  if (length (buf r) =? 0)%nat then 0%float
  else
    let sims := sort_descending (map (fun s => sparse_cosine q s) (buf r)) in
    let kEff := Z.max 1 (Z.min k (Z.of_nat (length sims))) in
    (sum (slice0 sims kEff) / of_Z kEff)%float.

(** [ring.buf.push(q); if (ring.buf.length > ring.cap) ring.buf.shift()]. *)
Definition push (q : dict) (r : ring) : ring :=
  let b := buf r ++ [q] in
  {| buf := if cap r <? Z.of_nat (length b) then tail b else b;
     cap := cap r |}.

Record Score := {
  combined : float;
  per : obj float
}.

Definition update_and_score (t : MultiScaleAnomaly) (sig : Signature)
  : Score * MultiScaleAnomaly :=
  let q := sig_to_dict sig in
  let per := fold_left
               (fun per '(s, r) => Obj.set s (1 - topk_avg r q (knn_k t))%float per)
               (hist t) [] in
  let hist' := map (fun '(s, r) => (s, push q r)) (hist t) in
  let combined :=
    if (0 <? length (values per))%nat
    then (sum (values per) / of_nat (length (values per)))%float
    else 0%float in
  ({| combined := combined; per := per |},
   {| scales := scales t; knn_k := knn_k t; hist := hist' |}).


(** *** The encoder's input filter and the anomaly trace *)

(** [RH_SparseEncoder._safe]. *)
Definition safe (arr : list float) : list float :=
  map (fun x => if isFinite x then x else 0%float) arr.

Record TraceEntry := {
  window : Z;
  score : float;
  per_scale : obj float;
  signature : Signature
}.

(** [gaps.slice(i - window, i)], for [i >= window]. *)
Definition window_slice (gaps : list float) (window i : nat) : list float :=
  firstn window (skipn (i - window) gaps).

Section Trace.

(** [await new RH_SparseEncoder(dim, topk, seed).encode(x)].  The encoder
    hashes with the platform's SHA-256 and shapes with [Math.tanh] and
    [Math.pow]; it is a parameter of the trace. *)
Variable rh_encode : Z -> Z -> string -> list float -> result Signature.

(** The loop [for (let i = window; i < gaps.length; i++)], on the values
    [i] still to visit. *)
Fixpoint trace_loop (enc : list float -> result Signature) (gaps : list float)
    (window : nat) (det : MultiScaleAnomaly) (todo : list nat)
  : result (list TraceEntry) :=
  match todo with
  | [] => Ok []
  | i :: rest =>
      let win := window_slice gaps window i in
      do sig <- enc win;
      let '(sc, det') := update_and_score det sig in
      do trace <- trace_loop enc gaps window det' rest;
      Ok ({| window := Z.of_nat i; score := combined sc;
             per_scale := per sc; signature := sig |} :: trace)
  end.

(** [gaps] is [None] for a missing ([undefined] or [null]) argument;
    [window] is a number of entries. *)
Definition anomaly_trace_from_rh (gaps : option (list float)) (window : nat)
    (scales : list Z) (dim topk knn_k : Z) (seed : string)
  : result (list TraceEntry) :=
  match gaps with
  | None => Throw "Insufficient gaps. Need at least window + 2 elements."
  | Some g =>
      if (length g <? window + 2)%nat
      then Throw "Insufficient gaps. Need at least window + 2 elements."
      else trace_loop (rh_encode dim topk seed) g window
                      (new_tracker scales knn_k)
                      (seq window (length g - window))
  end.

End Trace.

End RhSparse.

(** ** kk-kernel.js: the algebraic KK kernel *)

Module KK.
Import JS Obj.

Record Signature := {
  positions : list Z;
  elevations : list float;
  dimension : Z
}.

(** [l2(arr)]. *)
Definition l2 (arr : list float) : float :=
  Math_sqrt (fold_left (fun s v => (s + v * v)%float) arr 0%float).

Definition dict_of (sig : Signature) : dict :=
  to_dict (positions sig) (elevations sig).

Definition baseCosine (Q X : Signature) (eps : float) : float :=
  let Qd := dict_of Q in
  let Xd := dict_of X in
  let dot := fold_left
               (fun dot p =>
                  match read Xd p with
                  | Some x => (dot + to_num (read Qd p) * x)%float
                  | None => dot
                  end)
               (positions Q) 0%float in
  if strict_eq dot 0%float then 0%float
  else (dot / (l2 (elevations Q) * l2 (elevations X) + eps))%float.

(** The pairs [{p, e}] sorted by [b.e - a.e], cut at [Math.min(M, length)],
    as a set of positions. *)
Definition anomalySet (Q : Signature) (M : Z) : list Z :=
  let pairs := imap (fun i p => (p, elevations Q !! i)) (positions Q) in
  let sorted := sort_by (fun a b => num_gt (to_num (snd b) - to_num (snd a))%float 0%float)
                        pairs in
  to_set (map fst (slice0 sorted (Z.min M (Z.of_nat (length sorted))))) [].

Definition anomalyOverlapFrac (Q X : Signature) (M : Z) : float :=
  let A := anomalySet Q M in
  if (length A =? 0)%nat then 0%float
  else
    let Xset := to_set (positions X) [] in
    let hit := fold_left (fun hit p => if bool_decide (p ∈ Xset) then hit + 1 else hit)
                         A 0 in
    (of_Z hit / of_nat (length A))%float.

Definition anomalyAgreementCosine (Q X : Signature) (M : Z) (eps : float) : float :=
  let A := anomalySet Q M in
  if (length A =? 0)%nat then 0%float
  else
    let Qd := dict_of Q in
    let Xd := dict_of X in
    let '(dot, nQa2, nXa2) :=
      fold_left
        (fun '(dot, nQa2, nXa2) p =>
           let q := or_zero (read Qd p) in
           let x := or_zero (read Xd p) in
           ((dot + q * x)%float, (nQa2 + q * q)%float, (nXa2 + x * x)%float))
        A (0%float, 0%float, 0%float) in
    if strict_eq dot 0%float then 0%float
    else (dot / (Math_sqrt nQa2 * Math_sqrt nXa2 + eps))%float.

Record KKScore := {
  base : float;
  a : float;
  b : float;
  mult : float;
  total : float
}.

Definition kkScore (Q X : Signature) (beta gamma : float) (M : Z) (eps : float)
  : KKScore :=
  let base := baseCosine Q X eps in
  let a := anomalyOverlapFrac Q X M in
  let b := anomalyAgreementCosine Q X M eps in
  let mult := (1 + beta * a + gamma * b)%float in
  {| base := base; a := a; b := b; mult := mult; total := (base * mult)%float |}.


(** *** Signatures read back from arrays that may hold [undefined]

    [injectAnomalyTraceFromRH] and the spike read-back build [elevations]
    arrays entry by entry from reads such as [d.elevations[j]], which are
    [undefined] when the array is shorter than [positions].  [raw_*] are
    the kernel functions above on such arrays. *)

Record RawSignature := {
  r_positions : list Z;
  r_elevations : list (option float);
  r_dimension : Z
}.

Definition raw (s : Signature) : RawSignature :=
  {| r_positions := positions s;
     r_elevations := map Some (elevations s);
     r_dimension := dimension s |}.

(** [arr[i]] on an array that may hold [undefined]. *)
Definition elev_at (arr : list (option float)) (i : nat) : option float :=
  mjoin (arr !! i).

Definition raw_dict (s : RawSignature) : dict :=
  fold_left (fun d '(i, p) => set p (elev_at (r_elevations s) i) d)
            (imap (fun i p => (i, p)) (r_positions s)) [].

Definition raw_l2 (arr : list (option float)) : float :=
  Math_sqrt (fold_left (fun s v => (s + to_num v * to_num v)%float) arr 0%float).

Definition raw_baseCosine (Q X : RawSignature) (eps : float) : float :=
  let Qd := raw_dict Q in
  let Xd := raw_dict X in
  let dot := fold_left
               (fun dot p =>
                  match read Xd p with
                  | Some x => (dot + to_num (read Qd p) * x)%float
                  | None => dot
                  end)
               (r_positions Q) 0%float in
  if strict_eq dot 0%float then 0%float
  else (dot / (raw_l2 (r_elevations Q) * raw_l2 (r_elevations X) + eps))%float.

Definition raw_anomalySet (Q : RawSignature) (M : Z) : list Z :=
  let pairs := imap (fun i p => (p, elev_at (r_elevations Q) i)) (r_positions Q) in
  let sorted := sort_by (fun a b => num_gt (to_num (snd b) - to_num (snd a))%float 0%float)
                        pairs in
  to_set (map fst (slice0 sorted (Z.min M (Z.of_nat (length sorted))))) [].

Definition raw_anomalyOverlapFrac (Q X : RawSignature) (M : Z) : float :=
  let A := raw_anomalySet Q M in
  if (length A =? 0)%nat then 0%float
  else
    let Xset := to_set (r_positions X) [] in
    let hit := fold_left (fun hit p => if bool_decide (p ∈ Xset) then hit + 1 else hit)
                         A 0 in
    (of_Z hit / of_nat (length A))%float.

Definition raw_anomalyAgreementCosine (Q X : RawSignature) (M : Z) (eps : float)
  : float :=
  let A := raw_anomalySet Q M in
  if (length A =? 0)%nat then 0%float
  else
    let Qd := raw_dict Q in
    let Xd := raw_dict X in
    let '(dot, nQa2, nXa2) :=
      fold_left
        (fun '(dot, nQa2, nXa2) p =>
           let q := or_zero (read Qd p) in
           let x := or_zero (read Xd p) in
           ((dot + q * x)%float, (nQa2 + q * q)%float, (nXa2 + x * x)%float))
        A (0%float, 0%float, 0%float) in
    if strict_eq dot 0%float then 0%float
    else (dot / (Math_sqrt nQa2 * Math_sqrt nXa2 + eps))%float.

(** *** Queries and injected anomalies *)

(** [queryFromGaps(gaps, topK, minElev)], for an integer [topK]. *)
Definition queryFromGaps (gaps : list float) (topK : Z) (minElev : float)
  : Signature :=
  let D := length gaps in
  let idx := sort_by (fun a b =>
               num_gt (Usad.at_num gaps b - Usad.at_num gaps a)%float 0%float)
               (seq 0 D) in
  let keep := slice0 idx (Z.max 1 (Z.min topK (Z.of_nat D))) in
  let gVals := map (Usad.at_num gaps) keep in
  let gMin := Math_min_of gVals in
  let gMax := Math_max_of gVals in
  let denom := or_one (gMax - gMin) in
  let elevations :=
    map (fun v => let t := ((v - gMin) / denom)%float in
                  (minElev + t * (0.999999 - minElev))%float) gVals in
  {| positions := map Z.of_nat
                    (sort_by (fun a b => 0 <? Z.of_nat a - Z.of_nat b) keep);
     elevations := elevations;
     dimension := Z.of_nat D |}.

Record RawBatch := {
  rb_q : RawSignature;
  rb_docs : list RawSignature
}.

(** An event [{ docIndex, positions?, elevation? }], with an integer
    [docIndex]. *)
Record Event := {
  docIndex : Z;
  ev_positions : option (list Z);
  ev_elevation : option float
}.

(** [arr.indexOf(p)]: the first index of [p], [None] for [-1]. *)
Fixpoint indexOf (arr : list Z) (p : Z) : option nat :=
  match arr with
  | [] => None
  | x :: arr' => if x =? p then Some 0%nat else S <$> indexOf arr' p
  end.

(** The body of the loop on one document [d]: the new [positions] and
    [elevations] that are assigned to it. *)
Definition inject_doc (d : RawSignature) (ev : Event) (elev : float)
  : RawSignature :=
  let merged := to_set (r_positions d ++ default [] (ev_positions ev)) [] in
  let sorted := sort_by (fun a b => 0 <? a - b) merged in
  let newElev :=
    map (fun p => match indexOf (r_positions d) p with
                  | Some j => elev_at (r_elevations d) j
                  | None => Some (default elev (ev_elevation ev))
                  end) sorted in
  {| r_positions := sorted; r_elevations := newElev;
     r_dimension := r_dimension d |}.

Definition inject_event (elev : float) (docs : list RawSignature) (ev : Event)
  : list RawSignature :=
  let i := docIndex ev in
  if negb ((0 <=? i) && (i <? Z.of_nat (length docs))) then docs
  else match docs !! Z.to_nat i with
       | Some d => <[Z.to_nat i := inject_doc d ev elev]> docs
       | None => docs
       end.

(** [injectAnomalyTraceFromRH(DATA, events, elev)]: the batch after the
    call ([None] stands for a missing argument; the documents are distinct
    objects). *)
Definition injectAnomalyTraceFromRH (DATA : option RawBatch)
    (events : option (list Event)) (elev : float) : option RawBatch :=
  match DATA, events with
  | Some D, Some evs =>
      Some {| rb_q := rb_q D;
              rb_docs := fold_left (inject_event elev) evs (rb_docs D) |}
  | _, _ => DATA
  end.

(** *** The spike simulator and the parity evaluation *)

Record SpikeSim := {
  sim_T : float;
  sim_dt : float;
  sim_neurons : Z
}.

(** [new SpikeSim(tWinMs, tResUs, neurons)]. *)
Definition new_SpikeSim (tWinMs tResUs : float) (neurons : Z) : SpikeSim :=
  {| sim_T := (tWinMs * 1000)%float; sim_dt := tResUs; sim_neurons := neurons |}.

Definition spikesFromElevation (sim : SpikeSim) (e : option float) : list float :=
  let delay := (sim_T sim * 0.99 * (1 - to_num e))%float in
  let t := (Math_round (delay / sim_dt sim) * sim_dt sim)%float in
  [t].

Record Train := {
  t_p : Z;
  t_e : option float;
  t_spikes : list float
}.

Record Spikes := {
  sp_signature : Signature;
  sp_trains : list Train;
  sp_tr : SpikeSim
}.

(** [SpikeSim.encode(sig)]. *)
Definition spike_encode (sim : SpikeSim) (sig : Signature) : Spikes :=
  {| sp_signature := sig;
     sp_trains := imap (fun i p => {| t_p := p;
                                      t_e := elevations sig !! i;
                                      t_spikes := spikesFromElevation sim
                                                    (elevations sig !! i) |})
                       (positions sig);
     sp_tr := sim |}.

(** The signature read back from the trains. *)
Definition read_back (trains : list Train) (dimension : Z) : RawSignature :=
  {| r_positions := map t_p trains;
     r_elevations := map t_e trains;
     r_dimension := dimension |}.

Definition spikeBaseCosine (Qsp Xsp : Spikes) (eps : float) : float :=
  raw_baseCosine (read_back (sp_trains Qsp) (dimension (sp_signature Qsp)))
                 (read_back (sp_trains Xsp) (dimension (sp_signature Xsp))) eps.

Record Batch := {
  q : Signature;
  docs : list Signature
}.

Record BoostRow := {
  DocID : Z;
  AlgBase : float;
  SpikeBase : float;
  A_Overlap : float;
  B_Agreement : float;
  Multiplier : float;
  TotalAlg : float;
  TotalSpike : float;
  ErrorPPM : float;
  CombAlg : float;
  CombSpike : float;
  CombErr : float;
  Beta : float;
  Gamma : float
}.

Record BoostReport := {
  rows : list BoostRow;
  ok : Z;
  fb_total : Z;
  maxPPM : float
}.

(** One iteration of the loop over the documents. *)
Definition boost_row (sim : SpikeSim) (Q : Signature) (Qsp : Spikes)
    (beta gamma : float) (M : Z) (eps : float) (i : nat) (X : Signature)
  : BoostRow :=
  let s := kkScore Q X beta gamma M eps in
  let Xsp := spike_encode sim X in
  let baseSpike := spikeBaseCosine Qsp Xsp eps in
  let Qrec := read_back (sp_trains Qsp) (dimension Q) in
  let Xrec := read_back (sp_trains Xsp) (dimension X) in
  let aSpk := raw_anomalyOverlapFrac Qrec Xrec M in
  let bSpk := raw_anomalyAgreementCosine Qrec Xrec M eps in
  let combAlg := (beta * a s + gamma * b s)%float in
  let combSpk := (beta * aSpk + gamma * bSpk)%float in
  let totalSpike := (baseSpike * (1 + combSpk))%float in
  let err := Math_abs (totalSpike - total s) in
  let ppm := if num_gt (total s) 0%float
             then (err / total s * 1e6)%float else 0%float in
  {| DocID := Z.of_nat i; AlgBase := base s; SpikeBase := baseSpike;
     A_Overlap := a s; B_Agreement := b s; Multiplier := mult s;
     TotalAlg := total s; TotalSpike := totalSpike; ErrorPPM := ppm;
     CombAlg := combAlg; CombSpike := combSpk;
     CombErr := Math_abs (combSpk - combAlg);
     Beta := beta; Gamma := gamma |}.

Definition evaluateFullBoost (DATA : option Batch) (beta gamma : float) (M : Z)
    (eps spikeWinMs spikeDtUs : float) : result BoostReport :=
  match DATA with
  | None => Throw "DATA required"
  | Some D =>
      let sim := new_SpikeSim spikeWinMs spikeDtUs 1 in
      let Qsp := spike_encode sim (q D) in
      let rows := imap (boost_row sim (q D) Qsp beta gamma M eps) (docs D) in
      let ok := fold_left (fun ok r => if num_lt (ErrorPPM r) 1%float
                                       then ok + 1 else ok) rows 0 in
      let maxPPM := fold_left (fun mx r => if num_gt (ErrorPPM r) mx
                                           then ErrorPPM r else mx) rows 0%float in
      Ok {| rows := rows; ok := ok; fb_total := Z.of_nat (length (docs D));
            maxPPM := maxPPM |}
  end.

(** *** Rank fusion *)

(** A scored document [{ id, score }]. *)
Record Scored := {
  id : Z;
  s_score : float
}.

(** [matrix[r][m] = v], for a cell that exists. *)
Definition set_cell {A : Type} (matrix : list (list A)) (r m : nat) (v : A)
  : list (list A) :=
  match matrix !! r with
  | Some row => <[r := <[m := v]> row]> matrix
  | None => matrix
  end.

(** [matrix[i][m]] inside arithmetic. *)
Definition cell (matrix : list (list float)) (i m : nat) : float :=
  Usad.at_num (nth i matrix []) m.

Record ScoreTable := {
  docIds : list Z;
  matrix : list (list float)
}.

(** [new Map(docIds.map((id, i) => [id, i]))]. *)
Definition idToRow_of (docIds : list Z) : gmap Z nat :=
  fold_left (fun mp '(i, d) => <[d := i]> mp)
            (imap (fun i d => (i, d)) docIds) ∅.

(** [matrix[idToRow.get(id)][m] = score], for a record of list [m]
    ([idToRow] has every id of the lists). *)
Definition put_score (idToRow : gmap Z nat) (m : nat) (mx : list (list float))
    (r : Scored) : list (list float) :=
  match idToRow !! id r with
  | Some row => set_cell mx row m (s_score r)
  | None => mx
  end.

(** The body of [modelLists.forEach((list, m) => ...)]. *)
Definition fill_column (idToRow : gmap Z nat) (mx : list (list float))
    (ml : nat * list Scored) : list (list float) :=
  fold_left (put_score idToRow (fst ml)) (snd ml) mx.

Definition prepareScoreTable (modelLists : list (list Scored)) : ScoreTable :=
  let docIds := to_set (flat_map (map id) modelLists) [] in
  let idToRow := idToRow_of docIds in
  let M := length modelLists in
  let N := length docIds in
  let matrix := repeat (repeat PrimFloat.neg_infinity M) N in
  let matrix := fold_left (fill_column idToRow)
                          (imap (fun m lst => (m, lst)) modelLists) matrix in
  {| docIds := docIds; matrix := matrix |}.

(** [ranks[row][m] = r + 1], for the row at place [r] of the order. *)
Definition put_rank (m : nat) (ranks : list (list Z)) (rr : nat * nat)
  : list (list Z) :=
  set_cell ranks (snd rr) m (Z.of_nat (fst rr) + 1).

(** The rows ordered by their score in column [m], largest first. *)
Definition column_order (matrix : list (list float)) (m : nat) : list nat :=
  sort_by (fun i j => num_gt (cell matrix j m - cell matrix i m)%float 0%float)
          (seq 0 (length matrix)).

(** The ranks of column [m]: [order.forEach((row, r) => ...)]. *)
Definition rank_column (matrix : list (list float)) (ranks : list (list Z))
    (m : nat) : list (list Z) :=
  fold_left (put_rank m) (imap (fun r row => (r, row)) (column_order matrix m))
            ranks.

Definition ranksFromMatrix (matrix : list (list float)) : list (list Z) :=
  let N := length matrix in
  let M := length (nth 0 matrix []) in
  fold_left (rank_column matrix) (seq 0 M) (repeat (repeat (Z.of_nat N) M) N).

Definition minmax1 (col : list float) : list float :=
  let '(mn, mx) :=
    fold_left (fun '(mn, mx) v =>
                 let mn := if num_lt v mn then v else mn in
                 let mx := if num_gt v mx then v else mx in
                 (mn, mx))
              col (PrimFloat.infinity, PrimFloat.neg_infinity) in
  let d := or_one (mx - mn) in
  map (fun v => ((v - mn) / d)%float) col.

Definition zscore1 (col : list float) : list float :=
  let n := length col in
  let mu := (sum col / of_nat n)%float in
  let sd := or_one (Math_sqrt
                      (fold_left (fun s v => (s + (v - mu) * (v - mu))%float) col 0%float
                       / of_nat (if (n =? 0)%nat then 1 else n))) in
  map (fun v => ((v - mu) / sd)%float) col.

(** [out[i][m] = norm_m[i]], where [norm_m] is column [m], normalized. *)
Definition normalizeMatrix (matrix : list (list float)) (mode : string)
  : list (list float) :=
  let N := length matrix in
  let M := length (nth 0 matrix []) in
  let norm (m : nat) :=
    let col := map (fun i => cell matrix i m) (seq 0 N) in
    if String.eqb mode "minmax" then minmax1 col else zscore1 col in
  map (fun i => map (fun m => Usad.at_num (norm m) i) (seq 0 M)) (seq 0 N).

(** The common end of the fusers: the documents ordered by score. *)
Definition by_score (docIds : list Z) (scores : list float) : list Scored :=
  let order := sort_by (fun i j =>
                 num_gt (Usad.at_num scores j - Usad.at_num scores i)%float 0%float)
                 (seq 0 (length docIds)) in
  map (fun i => {| id := nth i docIds 0; s_score := Usad.at_num scores i |}) order.

Definition rrfFusion (modelLists : list (list Scored)) (k : float) : list Scored :=
  let t := prepareScoreTable modelLists in
  let ranks := ranksFromMatrix (matrix t) in
  let scores := map (fun rs => fold_left (fun s r => (s + 1 / (k + of_Z r))%float)
                                         rs 0%float) ranks in
  by_score (docIds t) scores.

(** [matrix[0].length] is a [TypeError] on an empty matrix. *)
Definition linearFusion (modelLists : list (list Scored))
    (weights : option (list float)) (norm : string) : result (list Scored) :=
  let t := prepareScoreTable modelLists in
  match matrix t with
  | [] => Throw "TypeError: matrix[0] is undefined"
  | row0 :: _ =>
      let M := length row0 in
      let uniform := repeat (1 / of_nat M)%float M in
      let W := match weights with
               | Some w => if (length w =? M)%nat then w else uniform
               | None => uniform
               end in
      let Zn := normalizeMatrix (matrix t) norm in
      let scores :=
        map (fun row => fold_left (fun s '(j, v) => (s + Usad.at_num W j * v)%float)
                                  (imap (fun j v => (j, v)) row) 0%float) Zn in
      Ok (by_score (docIds t) scores)
  end.

Definition bordaFusion (modelLists : list (list Scored)) : list Scored :=
  let t := prepareScoreTable modelLists in
  let ranks := ranksFromMatrix (matrix t) in
  let N := Z.of_nat (length (docIds t)) in
  let scores := map (fun rs => fold_left (fun s r => (s + of_Z (N - r))%float)
                                         rs 0%float) ranks in
  by_score (docIds t) scores.

Definition combMNZFusion (modelLists : list (list Scored)) (norm : string)
  : list Scored :=
  let t := prepareScoreTable modelLists in
  let Zn := normalizeMatrix (matrix t) norm in
  let scores :=
    map (fun row =>
           let nz := fold_left (fun c v => if isFinite v && num_gt v 0%float
                                           then c + 1 else c) row 0 in
           let sum := fold_left (fun s v => (s + (if isFinite v then Math_max 0 v
                                                  else 0))%float) row 0%float in
           (of_Z nz * sum)%float) Zn in
  by_score (docIds t) scores.

(** *** The input filter of the data encoder *)

(** [sanitize(arr, fill)]. *)
Definition sanitize (arr : list float) (fill : float) : list float :=
  map (fun x => if isFinite x then x else fill) arr.

End KK.

(** ** index.js: the facade over the encoders *)

Module Index.
Import JS.

Record MathObjectEncoder := {
  usad : Usad.USADetector
}.

(** [new MathObjectEncoder()]: the detector is built with
    [{ dim: 4096, k: 16, alpha: 0.1, kNN: 25 }].  The constructor also
    stores a [DataSupernovaEncoder] on its default configuration and an
    unset [rhEncoder]; the data encoder is behind the parameter
    [encodeNumerical] below, and no method reads [rhEncoder]. *)
Definition new_encoder : MathObjectEncoder :=
  {| usad := Usad.new_detector 4096 16 0.1%float 25 None 0.95%float |}.

Definition compareKK (sig1 sig2 : KK.Signature) (beta gamma : float) (M : Z)
  : KK.KKScore :=
  KK.kkScore sig1 sig2 beta gamma M c_1em12.

Definition calibrateAnomaly (m : MathObjectEncoder)
    (normalSequences : list (list float)) : result MathObjectEncoder :=
  do r <- Usad.calibrate (usad m) normalSequences;
  Ok {| usad := snd r |}.

Definition detectAnomaly (m : MathObjectEncoder) (sequence : list float)
  : result Usad.Prediction :=
  Usad.predict (usad m) sequence.

(** The result of [encodeRHStyle]. *)
Record RHTrace := {
  anomalyScores : list float;
  signatures : list RhSparse.Signature;
  metadata_scales : list Z
}.

Section Encoders.

(** The two encoders behind the facade are parameters: the RH encoder (see
    [RhSparse.anomaly_trace_from_rh]) and [encodeNumerical], which runs the
    data encoder over rolling statistics. *)
Variable rh_encode : Z -> Z -> string -> list float -> result RhSparse.Signature.
Variable Numerical : Type.
Variable encodeNumerical : list float -> result Numerical.

Definition encodeRHStyle (normalizedGaps : list float) : result RHTrace :=
  do trace <- RhSparse.anomaly_trace_from_rh rh_encode (Some normalizedGaps)
                256 [64; 256; 1024] 4096 128 5 "rh_sparse_demo";
  Ok {| anomalyScores := map RhSparse.score trace;
        signatures := map RhSparse.signature trace;
        metadata_scales := [64; 256; 1024] |}.

(** [gaps[i - 1] = sequence[i] - sequence[i - 1]] for [i >= 1]. *)
Definition gaps_of (sequence : list float) : list float :=
  map (fun i => (Usad.at_num sequence i - Usad.at_num sequence (i - 1))%float)
      (seq 1 (length sequence - 1)).

(** [gaps.map((g, i) => g / Math.sqrt(sequence[i] || 1))]. *)
Definition normalized_of (sequence gaps : list float) : list float :=
  imap (fun i g => (g / Math_sqrt (or_one (Usad.at_num sequence i)))%float) gaps.

(** The ratios [sequence[i] / sequence[i - 1]] over the non-zero
    predecessors. *)
Definition ratios_of (sequence : list float) : list float :=
  flat_map (fun i => if strict_eq (Usad.at_num sequence (i - 1)) 0%float then []
                     else [(Usad.at_num sequence i / Usad.at_num sequence (i - 1))%float])
           (seq 1 (length sequence - 1)).

Inductive Encoding :=
| rh_trace (t : RHTrace)
| numerical (n : Numerical).

Definition encodeSequence (sequence : list float) (type : string)
  : result Encoding :=
  if String.eqb type "gaps" then
    do t <- encodeRHStyle (normalized_of sequence (gaps_of sequence));
    Ok (rh_trace t)
  else if String.eqb type "values" then
    do n <- encodeNumerical sequence;
    Ok (numerical n)
  else if String.eqb type "ratios" then
    do n <- encodeNumerical (ratios_of sequence);
    Ok (numerical n)
  else Throw ("Unknown encoding type: " ++ type).

End Encoders.

End Index.


(** ** The specification's formulas, in its own words *)

Module Spec.
Import JS.

(** [clamp(x, lo, hi)]. *)
Definition clamp (x : integral) (lo hi : Z) : integral := imax lo (imin hi x).

(** [rank = clamp(ceil((n+1)*(1-alpha)) - 1, 0, n-1)]. *)
Definition conformal_rank (n : nat) (alpha : float) : integral :=
  clamp (isub1 (Math_ceil (of_Z (Z.of_nat n + 1) * (1 - alpha))%float))
        0 (Z.of_nat n - 1).

(** The largest value of a list, the first one among equals, together
    with the other values in their order. *)
Fixpoint largest (l : list float) : option (float * list float) :=
  match l with
  | [] => None
  | x :: l' =>
      match largest l' with
      | None => Some (x, [])
      | Some (m, others) =>
          if PrimFloat.ltb x m then Some (m, x :: others) else Some (x, l')
      end
  end.

(** The top-[k] values of a list: the largest, then the largest of the
    others, and so on, [k] times or until no value is left. *)
Fixpoint top_k (k : nat) (l : list float) : list float :=
  match k with
  | O => []
  | S k' =>
      match largest l with
      | None => []
      | Some (m, others) => m :: top_k k' others
      end
  end.

(** The average of some values, summed in their order ([0] if there are
    none). *)
Definition average (l : list float) : float :=
  match l with
  | [] => 0%float
  | _ => (sum l / of_nat (length l))%float
  end.

(** The dot product of two sparse vectors: the products of the values at
    the keys that both vectors have, summed in the order of the keys. *)
Definition dot (a b : Obj.dict) : float :=
  fold_left (fun s '(key, va) =>
               match Obj.get b key with
               | Some vb => (s + Obj.to_num va * Obj.to_num vb)%float
               | None => s
               end)
            a 0%float.

(** The Euclidean norm of a sparse vector. *)
Definition norm (a : Obj.dict) : float := Math_sqrt (dot a a).

(** The cosine similarity of two sparse vectors, [dot / (|a| * |b|)];
    it is [0] when a vector has no entry or has norm [0]. *)
Definition cosine (a b : Obj.dict) : float :=
  match a, b with
  | [], _ | _, [] => 0%float
  | _, _ =>
      if strict_eq (norm a) 0%float || strict_eq (norm b) 0%float then 0%float
      else (dot a b / (norm a * norm b))%float
  end.

(** The arithmetic mean, summed left to right. *)
Definition mean (l : list float) : float := (sum l / of_nat (length l))%float.

(** [A_Q]: the [M] positions of [Q] with the largest elevation, ties in
    the order of the positions. *)
Definition top_positions (Q : KK.Signature) (M : Z) : gset Z :=
  let pairs := imap (fun i p => (p, KK.elevations Q !! i)) (KK.positions Q) in
  let by_elevation :=
    sort_by (fun a b => num_gt (Obj.to_num (snd b) - Obj.to_num (snd a))%float 0%float)
            pairs in
  list_to_set (map fst (firstn (Z.to_nat M) by_elevation)).

(** [overlap_frac = |A ∩ X| / |A|] ([0] if [A] is empty). *)
Definition overlap_frac (A X : gset Z) : float :=
  if (size A =? 0)%nat then 0%float
  else (of_nat (size (A ∩ X)) / of_nat (size A))%float.

(** The coordinate of a signature at position [p]: the elevation listed
    with [p] (the last one, if [p] is listed more than once), and [0]
    where [p] is absent. *)
Definition coordinate (S : KK.Signature) (p : Z) : float :=
  fold_left (fun c '(q, e) => if q =? p then e else c)
            (zip (KK.positions S) (KK.elevations S)) 0%float.

(** The kernel's cosine of two vectors of coordinates,
    [dot / (|u| * |v| + eps)]; it is [0] when the dot product is [0]. *)
Definition cosine_eps (u v : list float) (eps : float) : float :=
  let dot := fold_left (fun s '(x, y) => (s + x * y)%float) (zip u v) 0%float in
  let nu := Math_sqrt (fold_left (fun s x => (s + x * x)%float) u 0%float) in
  let nv := Math_sqrt (fold_left (fun s y => (s + y * y)%float) v 0%float) in
  if strict_eq dot 0%float then 0%float
  else (dot / (nu * nv + eps))%float.

(** [agreement_cosine]: the cosine computed on the coordinates in [A]
    only, zero-filled where absent. *)
Definition agreement_cosine (Q X : KK.Signature) (A : list Z) (eps : float) : float :=
  cosine_eps (map (coordinate Q) A) (map (coordinate X) A) eps.

(** Winner-take-more between the incumbent of a slot and an incoming
    feature, each an (index, value) pair: the larger magnitude wins, and
    on equal magnitudes the larger tie-break value [tb (index, value)]
    does, the incumbent staying when these are equal too. *)
Definition winner (tb : nat -> float -> Z) (incumbent incoming : nat * float)
  : nat * float :=
  if num_gt (Math_abs (snd incoming)) (Math_abs (snd incumbent)) then incoming
  else if num_gt (Math_abs (snd incumbent)) (Math_abs (snd incoming)) then incumbent
  else if tb (fst incumbent) (snd incumbent) <? tb (fst incoming) (snd incoming)
       then incoming
       else incumbent.

(** The tie-break that the encoder realises: the feature of smaller index
    wins. *)
Definition index_tie_break (i : nat) (v : float) : Z := - Z.of_nat i.

End Spec.

(** ** Predicates used in the statements *)

(** A number that is not [NaN]. *)
Definition not_nan (x : float) : Prop := PrimFloat.is_nan x = false.

(** [x <= y] on numbers. *)
Definition le_num (x y : float) : Prop := PrimFloat.leb x y = true.

(** A binary64 value that is finite or infinite, with sign [s]. *)
Definition signed (s : bool) (r : spec_float) : Prop :=
  match r with
  | S754_finite s' _ _ | S754_infinity s' => s' = s
  | _ => False
  end.

(** The salts in use are BLAKE2b keys that fit one block. *)
Definition salts_ok (h : Usad.Hashing) : Prop :=
  (length (default Blake2b.DEFAULT_SALT1 (Usad.salt1 h)) <= 128)%nat
  /\ (length (default Blake2b.DEFAULT_SALT2 (Usad.salt2 h)) <= 128)%nat.

(** The state of the placement loop is consistent: [pos] and [val] are
    aligned, [taken] is the inverse of [pos], and every position is in
    [[0, D)]. *)
Definition slots_wf (D : Z) (s : Usad.slots) : Prop :=
  length (Usad.pos s) = length (Usad.vals s)
  /\ (forall p i, Usad.taken s !! p = Some i <-> Usad.pos s !! i = Some p)
  /\ Forall (fun p => 0 <= p < D) (Usad.pos s).

(** The data-model invariant of a sparse signature of dimension [D] built
    with sparsity parameter [k]. *)
Definition signature_invariant (D k : Z) (s : Usad.SparseSignature) : Prop :=
  Sorted Z.lt (Usad.idx s)
  /\ NoDup (Usad.idx s)
  /\ Forall (fun p => 0 <= p < D) (Usad.idx s)
  /\ length (Usad.idx s) = length (Usad.val s)
  /\ Z.of_nat (length (Usad.idx s)) <= k
  /\ Usad.norm s = Usad.l2norm (Usad.val s).

(** A calibrated detector: the detector left by a successful [calibrate],
    possibly followed by successful [updateIfNormal] calls. *)
Inductive calibrated : Usad.USADetector -> Prop :=
| calibrated_by_calibrate d0 samples t d :
    Usad.calibrate d0 samples = Ok (t, d) -> calibrated d
| calibrated_by_update d x b d' :
    calibrated d -> Usad.updateIfNormal d x = Ok (b, d') -> calibrated d'.

(** [alpha] passes the guard [alpha > 0 && alpha < 1]. *)
Definition alpha_in_unit (alpha : float) : Prop :=
  JS.num_gt alpha 0%float = true /\ JS.num_lt alpha 1%float = true.

(** A small calibrated detector, on the default parameters, and a
    prediction on it. *)
Definition demo_detector : Usad.USADetector :=
  let d0 := Usad.new_detector 4096 16 0.1%float 25 None 0%float in
  match Usad.calibrate d0 [[1; 0; 0]; [0; 1; 0]; [1; 0; 0; 0]]%float with
  | Ok (_, d) => d
  | Throw _ => d0
  end.

Definition demo_prediction (x : list float) : Usad.Prediction :=
  match Usad.predict demo_detector x with
  | Ok p => p
  | Throw _ => {| Usad.isAnomaly := false; Usad.score := 0%float;
                  Usad.p_threshold := 0%float |}
  end.

(** The tracker after a sequence of [update_and_score] calls. *)
Definition run_tracker (t : RhSparse.MultiScaleAnomaly)
    (sigs : list RhSparse.Signature) : RhSparse.MultiScaleAnomaly :=
  fold_left (fun t sig => snd (RhSparse.update_and_score t sig)) sigs t.

(** A scale is a size, and as a key of [hist] it is an array index. *)
Definition scale_ok (s : Z) : Prop := 0 <= s < 2 ^ 32 - 1.

(** No ring holds more entries than its capacity. *)
Definition rings_bounded (t : RhSparse.MultiScaleAnomaly) : Prop :=
  Forall (fun e => Z.of_nat (length (RhSparse.buf (snd e))) <= RhSparse.cap (snd e))
         (RhSparse.hist t).

(** The keys of an object are listed in strictly ascending order. *)
Definition keys_ascending {V : Type} (o : Obj.obj V) : Prop :=
  StronglySorted Z.lt (Obj.keys o).

(** A vector of zeros. *)
Definition all_zero (l : list float) : Prop := Forall (fun x => x = 0%float) l.

(** A value that the placement loop does not skip. *)
Definition nonzero (v : float) : Prop := JS.strict_eq v 0%float = false.

(** The placement loop keeps [pos] and [val] aligned and stores no zero. *)
Definition slots_nonzero (s : Usad.slots) : Prop :=
  length (Usad.pos s) = length (Usad.vals s) /\ Forall nonzero (Usad.vals s).

(** The elevation that [inject_doc] gives to position [p]. *)
Definition injected_elevation (d : KK.RawSignature) (ev : KK.Event) (elev : float)
    (p : Z) : option float :=
  match KK.indexOf (KK.r_positions d) p with
  | Some j => KK.elev_at (KK.r_elevations d) j
  | None => Some (default elev (KK.ev_elevation ev))
  end.

(** The last score that a list gives to a document. *)
Definition last_score (list : list KK.Scored) (d : Z) : option float :=
  KK.s_score <$> last (List.filter (fun r => KK.id r =? d) list).

(** A score table for the documents [docIds] and [M] models. *)
Definition table_shape (docIds : list Z) (M : nat) (mx : list (list float)) : Prop :=
  length mx = length docIds /\ Forall (fun row => length row = M) mx.

(** A dictionary built from a position array: [d[ps[i]] = f i] for every
    [i], in order. *)
Definition dict_fold (f : nat -> option float) (ps : list Z) : Obj.dict :=
  fold_left (fun d '(i, p) => Obj.set p (f i) d) (imap (fun i p => (i, p)) ps) [].

(** [ranks[i][m]]. *)
Definition rank_at (ranks : list (list Z)) (i m : nat) : Z :=
  nth m (nth i ranks []) 0.

(** A rank table of [N] rows and [M] columns. *)
Definition ranks_shape (N M : nat) (ranks : list (list Z)) : Prop :=
  length ranks = N /\ Forall (fun row => length row = M) ranks.

(** A signature with as many elevations as positions. *)
Definition aligned (s : KK.Signature) : Prop :=
  length (KK.positions s) = length (KK.elevations s).

(** Every position has an elevation, and the elevations are finite
    numbers. *)
Definition finite_elevations (positions : list Z) (elevations : list float) : Prop :=
  (length positions <= length elevations)%nat
  /\ Forall (fun e => JS.isFinite e = true) elevations.

(** *** The placement loop, with the holder of each slot

    The loop of [encodeSparseSignature] keeps a position and a value for
    each slot, not the index of the feature whose value it is.  To name
    the two contenders of a collision, [place_owned] runs the same loop
    body and records that index beside the slot. *)

(** The decision of one iteration: the position that the feature claims,
    or [None] when it is skipped or dropped. *)
Definition choose (h : Usad.Hashing) (elev : list float) (s : Usad.slots)
    (orig : nat) : result (option Z) :=
  let v := Usad.at_num elev orig in
  if JS.strict_eq v 0%float then Ok None
  else
    do p1 <- Blake2b.blake2bIndex (Z.of_nat orig) (Usad.dim h)
               (default Blake2b.DEFAULT_SALT1 (Usad.salt1 h));
    if bool_decide (is_Some (Usad.taken s !! p1)) then
      if default true (Usad.useDoubleHash h) then
        do p2 <- Blake2b.blake2bIndex (Z.of_nat orig) (Usad.dim h)
                   (default Blake2b.DEFAULT_SALT2 (Usad.salt2 h));
        if negb (bool_decide (is_Some (Usad.taken s !! p2))) then Ok (Some p2)
        else if Usad.beats s v p1 then Ok (Some p1) else Ok None
      else
        if Usad.beats s v p1 then Ok (Some p1) else Ok None
    else Ok (Some p1).

Record owned := {
  o_slots : Usad.slots;
  owners : list nat
}.

(** [claim], on the record of holders. *)
Definition claim_owner (s : Usad.slots) (owners : list nat) (chosen : Z)
    (orig : nat) : list nat :=
  match Usad.taken s !! chosen with
  | Some i => <[i := orig]> owners
  | None => owners ++ [orig]
  end.

Definition place_owned (h : Usad.Hashing) (elev : list float) (so : owned)
    (orig : nat) : result owned :=
  do c <- choose h elev (o_slots so) orig;
  Ok (match c with
      | Some p =>
          {| o_slots := Usad.claim (o_slots so) p (Usad.at_num elev orig);
             owners := claim_owner (o_slots so) (owners so) p orig |}
      | None => so
      end).

Fixpoint place_all_owned (h : Usad.Hashing) (elev : list float) (so : owned)
    (idxs : list nat) : result owned :=
  match idxs with
  | [] => Ok so
  | orig :: rest => do so' <- place_owned h elev so orig; place_all_owned h elev so' rest
  end.

(** The record of holders is consistent with the slots after the features
    [done]: every slot has a holder, a feature of [done] whose elevation
    is the slot's value; and [taken] maps a position to a slot of that
    position. *)
Definition owned_wf (elev : list float) (done : list nat) (so : owned) : Prop :=
  length (Usad.pos (o_slots so)) = length (Usad.vals (o_slots so))
  /\ length (owners so) = length (Usad.vals (o_slots so))
  /\ (forall p i, Usad.taken (o_slots so) !! p = Some i ->
        Usad.pos (o_slots so) !! i = Some p)
  /\ (forall i inc, owners so !! i = Some inc ->
        In inc done /\ Usad.vals (o_slots so) !! i = Some (Usad.at_num elev inc)).

(** The order of the ranked features: [i] comes before [j] when its
    magnitude is at least that of [j] and, on equal magnitudes, its index
    is the smaller one. *)
Definition ranked_before (elev : list float) (i j : nat) : Prop :=
  le_num (JS.Math_abs (Usad.at_num elev j)) (JS.Math_abs (Usad.at_num elev i))
  /\ (le_num (JS.Math_abs (Usad.at_num elev i)) (JS.Math_abs (Usad.at_num elev j)) ->
      (i < j)%nat).

(** A running sum that is not [-0]. *)
Definition not_neg_zero (x : float) : Prop := Prim2SF x <> S754_zero true.

(** A dictionary whose keys are listed once and whose values are finite
    numbers. *)
Definition finite_dict (d : Obj.dict) : Prop :=
  NoDup (Obj.keys d)
  /\ Forall (fun v => exists x, v = Some x /\ JS.isFinite x = true) (Obj.values d).

(** Every entry of every ring satisfies [P]. *)
Definition rings_hold (P : Obj.dict -> Prop) (t : RhSparse.MultiScaleAnomaly) : Prop :=
  Forall (fun e => Forall P (RhSparse.buf (snd e))) (RhSparse.hist t).
(** * Proofs *)

Import JS Blake2b Usad.

#[local] Set Warnings "-inexact-float".

(** ** Facts about binary64 arithmetic *)

Section FloatFacts.

Lemma shr_1_nonneg mrs : 0 <= shr_m mrs -> 0 <= shr_m (shr_1 mrs).
Proof.
  destruct mrs as [m r s]; simpl.
  destruct m as [|p|p]; simpl; try lia; destruct p; simpl; lia.
Qed.

Lemma iter_shr_1_nonneg p : forall mrs,
  0 <= shr_m mrs -> 0 <= shr_m (SpecFloat.iter_pos shr_1 p mrs).
Proof.
  induction p as [p IH|p IH|]; intros mrs H; simpl.
  - apply IH, IH, shr_1_nonneg, H.
  - apply IH, IH, H.
  - apply shr_1_nonneg, H.
Qed.

Lemma shr_nonneg mrs e n : 0 <= shr_m mrs -> 0 <= shr_m (fst (shr mrs e n)).
Proof.
  destruct n; simpl; auto. apply iter_shr_1_nonneg.
Qed.

Lemma shr_record_of_loc_m m l : shr_m (shr_record_of_loc m l) = m.
Proof. destruct l as [|[]]; reflexivity. Qed.

Lemma shr_fexp_nonneg m e l :
  0 <= m -> 0 <= shr_m (fst (shr_fexp prec emax m e l)).
Proof.
  intros H. unfold shr_fexp. apply shr_nonneg.
  now rewrite shr_record_of_loc_m.
Qed.

Lemma round_nearest_even_nonneg m l : 0 <= m -> 0 <= round_nearest_even m l.
Proof.
  intros H. destruct l as [|[]]; simpl; try lia.
  destruct (Z.even m); lia.
Qed.

Lemma binary_round_aux_not_nan sx mx ex lx :
  0 <= mx -> binary_round_aux prec emax sx mx ex lx <> S754_nan.
Proof.
  intros H. unfold binary_round_aux.
  pose proof (shr_fexp_nonneg mx ex lx H) as H1.
  destruct (shr_fexp prec emax mx ex lx) as [mrs' e']. simpl in H1.
  pose proof (shr_fexp_nonneg _ e' loc_Exact
                (round_nearest_even_nonneg _ (loc_of_shr_record mrs') H1)) as H2.
  destruct (shr_fexp prec emax _ e' loc_Exact) as [mrs'' e'']. simpl in H2.
  destruct (shr_m mrs'') as [|m|m]; try discriminate; try lia.
  destruct (e'' <=? emax - prec); discriminate.
Qed.

Lemma binary_normalize_not_nan m e sz :
  binary_normalize prec emax m e sz <> S754_nan.
Proof.
  destruct m as [|p|p]; simpl; try discriminate;
    unfold binary_round;
    destruct (shl_align _ _ _) as [mz ez]; apply binary_round_aux_not_nan; lia.
Qed.

(** A number that passes [0 < a && a < 1] is finite and positive. *)
Lemma guard_finite (a : float) :
  num_gt a 0%float = true -> num_lt a 1%float = true ->
  exists m e, Prim2SF a = S754_finite false m e.
Proof.
  unfold num_gt, num_lt. rewrite !FloatAxioms.ltb_spec.
  assert (H0 : Prim2SF 0 = S754_zero false) by (vm_compute; reflexivity).
  rewrite H0. intros Hpos Hlt.
  destruct (Prim2SF a) as [s|s| |s m e].
  - discriminate Hpos.
  - destruct s; [discriminate Hpos|].
    unfold SFltb, SFcompare in Hlt.
    destruct (Prim2SF 1) as [s'|s'| |s' m' e']; try destruct s'; discriminate Hlt.
  - discriminate Hpos.
  - destruct s; [discriminate Hpos|]. eauto.
Qed.

Lemma sub_finite_not_nan (x y : float) sx mx ex sy my ey :
  Prim2SF x = S754_finite sx mx ex -> Prim2SF y = S754_finite sy my ey ->
  Prim2SF (x - y) <> S754_nan.
Proof.
  intros Hx Hy. rewrite FloatAxioms.sub_spec, Hx, Hy.
  unfold SF64sub, SFsub. apply binary_normalize_not_nan.
Qed.

Lemma mul_finite_not_nan (x y : float) sx mx ex :
  Prim2SF x = S754_finite sx mx ex -> Prim2SF y <> S754_nan ->
  Prim2SF (x * y) <> S754_nan.
Proof.
  intros Hx Hy. rewrite FloatAxioms.mul_spec, Hx.
  destruct (Prim2SF y) as [s|s| |s m e]; simpl; try discriminate; try congruence.
  apply binary_round_aux_not_nan. lia.
Qed.

Lemma digits2_iter_xO p : forall k,
  Z.pos (digits2_pos (Pos.iter xO p k)) = Z.pos (digits2_pos p) + Z.pos k.
Proof.
  intros k. induction k using Pos.peano_ind.
  - simpl. lia.
  - rewrite Pos.iter_succ. simpl. lia.
Qed.

Lemma digits2_bound p n : 0 <= n -> Z.pos p < 2 ^ n -> Z.pos (digits2_pos p) <= n.
Proof.
  revert n. induction p as [p IH|p IH|]; intros n Hn H; simpl.
  - assert (n = 0 \/ 0 < n) as [->|Hpos] by lia; [simpl in H; lia|].
    replace n with (Z.succ (n - 1)) in H by lia.
    rewrite Z.pow_succ_r in H by lia.
    specialize (IH (n - 1)). lia.
  - assert (n = 0 \/ 0 < n) as [->|Hpos] by lia; [simpl in H; lia|].
    replace n with (Z.succ (n - 1)) in H by lia.
    rewrite Z.pow_succ_r in H by lia.
    specialize (IH (n - 1)). lia.
  - assert (n = 0 \/ 0 < n) as [->|Hpos] by lia; [simpl in H; lia| lia].
Qed.

Lemma binary_round_aux_canonical sx m e :
  Z.pos (digits2_pos m) = 53 -> -1074 <= e <= 971 ->
  binary_round_aux prec emax sx (Z.pos m) e loc_Exact = S754_finite sx m e.
Proof.
  intros Hd He.
  assert (Hshift : fexp prec emax (Z.pos (digits2_pos m) + e) - e = 0).
  { rewrite Hd. unfold fexp, emin, prec, emax. lia. }
  unfold binary_round_aux, shr_fexp.
  change (Zdigits2 (Z.pos m)) with (Z.pos (digits2_pos m)).
  rewrite Hshift. simpl. rewrite Hshift. simpl.
  destruct (Z.leb_spec e (emax - prec)) as [_|Hbad]; [reflexivity|].
  unfold prec, emax in Hbad. lia.
Qed.

(** Integers in [1, 2^53) convert to a finite nonzero double. *)
Lemma of_Z_finite (z : Z) :
  0 < z < 2 ^ 53 -> exists m e, Prim2SF (of_Z z) = S754_finite false m e.
Proof.
  intros Hz. unfold of_Z.
  destruct (Z.ltb_spec z 0) as [?|_]; [lia|].
  rewrite of_uint63_spec, Uint63.of_Z_spec.
  rewrite Z.mod_small by (change wB with (2 ^ 63); split; [lia|];
    apply Z.lt_trans with (2 ^ 53); [lia | reflexivity]).
  destruct z as [|p|p]; try lia.
  pose proof (digits2_bound p 53 ltac:(lia) ltac:(lia)) as Hd.
  unfold binary_normalize, binary_round.
  set (d := Z.pos (digits2_pos p)) in *.
  assert (Hfexp : fexp prec emax (d + 0) = d - 53).
  { unfold fexp, emin, prec, emax. lia. }
  rewrite Hfexp. unfold shl_align.
  destruct (d - 53 - 0) as [|k|k] eqn:Hk; try lia.
  - exists p, 0. apply binary_round_aux_canonical; [fold d|]; lia.
  - exists (Pos.iter xO p k), (d - 53).
    apply binary_round_aux_canonical; [|lia].
    rewrite digits2_iter_xO. fold d. lia.
Qed.
End FloatFacts.

Section FloatOrder.

Lemma digits2_pos_bounds (p : positive) :
  2 ^ (Z.pos (digits2_pos p) - 1) <= Z.pos p < 2 ^ Z.pos (digits2_pos p).
Proof.
  induction p as [p IH|p IH|]; simpl digits2_pos.
  - rewrite Pos2Z.inj_succ.
    replace (Z.succ (Z.pos (digits2_pos p)) - 1) with (Z.succ (Z.pos (digits2_pos p) - 1)) by lia.
    rewrite !Z.pow_succ_r by lia. lia.
  - rewrite Pos2Z.inj_succ.
    replace (Z.succ (Z.pos (digits2_pos p)) - 1) with (Z.succ (Z.pos (digits2_pos p) - 1)) by lia.
    rewrite !Z.pow_succ_r by lia. lia.
  - simpl. lia.
Qed.

Lemma shr_1_div2 mrs : 0 <= shr_m mrs -> shr_m (shr_1 mrs) = shr_m mrs / 2.
Proof.
  destruct mrs as [m r s]; simpl. intros Hm.
  destruct m as [|p|p]; try lia; [reflexivity|].
  destruct p as [p|p|]; simpl.
  - rewrite Pos2Z.inj_xI. apply Z.div_unique with 1; lia.
  - rewrite Pos2Z.inj_xO. apply Z.div_unique with 0; lia.
  - reflexivity.
Qed.

Lemma iter_shr_1_div p : forall mrs,
  0 <= shr_m mrs ->
  shr_m (SpecFloat.iter_pos shr_1 p mrs) = shr_m mrs / 2 ^ Z.pos p.
Proof.
  induction p as [p IH|p IH|]; intros mrs Hm; simpl SpecFloat.iter_pos.
  - assert (Hp : 0 < 2 ^ Z.pos p) by (apply Z.pow_pos_nonneg; lia).
    assert (H1 : 0 <= shr_m (shr_1 mrs)).
    { rewrite shr_1_div2 by exact Hm. apply Z.div_pos; lia. }
    assert (H2 : 0 <= shr_m (SpecFloat.iter_pos shr_1 p (shr_1 mrs))).
    { rewrite IH by exact H1. apply Z.div_pos; lia. }
    rewrite IH by exact H2. rewrite IH by exact H1. rewrite shr_1_div2 by exact Hm.
    rewrite !Z.div_div by lia. f_equal.
    replace (Z.pos p~1) with (1 + Z.pos p + Z.pos p) by lia.
    rewrite !Z.pow_add_r by lia. change (2 ^ 1) with 2. ring.
  - assert (Hp : 0 < 2 ^ Z.pos p) by (apply Z.pow_pos_nonneg; lia).
    assert (H2 : 0 <= shr_m (SpecFloat.iter_pos shr_1 p mrs)).
    { rewrite IH by exact Hm. apply Z.div_pos; lia. }
    rewrite IH by exact H2. rewrite IH by exact Hm.
    rewrite !Z.div_div by lia. f_equal.
    replace (Z.pos p~0) with (Z.pos p + Z.pos p) by lia.
    rewrite Z.pow_add_r by lia. reflexivity.
  - rewrite shr_1_div2 by exact Hm. reflexivity.
Qed.

(** Shifting to the canonical exponent keeps a positive mantissa positive,
    and the exponent at or above [emin]. *)
Lemma shr_fexp_pos (m : positive) (e : Z) (l : location) :
  (-1074) <= e ->
  0 < shr_m (fst (shr_fexp prec emax (Z.pos m) e l))
  /\ (-1074) <= snd (shr_fexp prec emax (Z.pos m) e l).
Proof.
  intros He. unfold shr_fexp, shr. simpl Zdigits2.
  pose proof (digits2_pos_bounds m) as Hd.
  set (d := Z.pos (digits2_pos m)) in *.
  assert (Hm0 : shr_m (shr_record_of_loc (Z.pos m) l) = Z.pos m)
    by (destruct l as [|[]]; reflexivity).
  destruct (fexp prec emax (d + e) - e) as [|n|n] eqn:Hn; simpl fst; simpl snd.
  - rewrite Hm0. lia.
  - rewrite iter_shr_1_div by (rewrite Hm0; lia). rewrite Hm0.
    unfold fexp, SpecFloat.emin, prec, emax in *.
    assert (Hnd : Z.pos n <= d - 1) by lia.
    split; [|lia].
    apply Z.div_str_pos. split; [apply Z.pow_pos_nonneg; lia|].
    apply Z.le_trans with (2 ^ (d - 1)); [|lia].
    apply Z.pow_le_mono_r; lia.
  - rewrite Hm0. lia.
Qed.

Lemma binary_round_aux_signed sx (m : positive) e l :
  (-1074) <= e -> signed sx (binary_round_aux prec emax sx (Z.pos m) e l).
Proof.
  intros He. unfold binary_round_aux.
  destruct (shr_fexp_pos m e l He) as [H1 H1e].
  destruct (shr_fexp prec emax (Z.pos m) e l) as [mrs' e']. simpl in H1, H1e.
  assert (H2 : 0 < round_nearest_even (shr_m mrs') (loc_of_shr_record mrs')).
  { destruct (loc_of_shr_record mrs') as [|[]]; simpl; try lia.
    destruct (Z.even _); lia. }
  destruct (round_nearest_even _ _) as [|m2|m2]; try lia.
  destruct (shr_fexp_pos m2 e' loc_Exact H1e) as [H3 _].
  destruct (shr_fexp prec emax (Z.pos m2) e' loc_Exact) as [mrs'' e'']. simpl in H3.
  destruct (shr_m mrs'') as [|m3|m3]; try lia.
  destruct (e'' <=? emax - prec); reflexivity.
Qed.

Lemma binary_round_signed sx (m : positive) e :
  (-1074) <= e -> signed sx (binary_round prec emax sx m e).
Proof.
  intros He. unfold binary_round, shl_align.
  destruct (fexp prec emax (Z.pos (digits2_pos m) + e) - e) eqn:Hs;
    apply binary_round_aux_signed; try exact He.
  unfold fexp, SpecFloat.emin, prec, emax. lia.
Qed.

Lemma valid_finite_bounds s m e :
  valid_binary (S754_finite s m e) = true ->
  (-1074) <= e /\ Z.pos (digits2_pos m) <= 53
  /\ ((-1074) < e -> Z.pos (digits2_pos m) = 53).
Proof.
  unfold valid_binary, bounded, canonical_mantissa, fexp, SpecFloat.emin, prec, emax.
  intros H. apply andb_prop in H as [H _]. apply Z.eqb_eq in H. lia.
Qed.

Lemma shl_align_fst m e e' :
  e' <= e -> Z.pos (fst (shl_align m e e')) = Z.pos m * 2 ^ (e - e').
Proof.
  intros H. unfold shl_align.
  destruct (e' - e) as [|d|d] eqn:Hd; simpl fst; try lia.
  - replace (e - e') with 0 by lia. lia.
  - replace (e - e') with (Z.pos d) by lia. clear.
    induction d as [|d IH] using Pos.peano_ind.
    + simpl. lia.
    + rewrite Pos.iter_succ, Pos2Z.inj_succ, Z.pow_succ_r by lia.
      rewrite Pos2Z.inj_xO, IH. ring.
Qed.

(** The aligned mantissas compare as [SFcompare] says, for valid doubles
    of the same sign. *)
Lemma aligned_compare mx ex my ey :
  valid_binary (S754_finite false mx ex) = true ->
  valid_binary (S754_finite false my ey) = true ->
  (Z.pos mx * 2 ^ (ex - Z.min ex ey) ?= Z.pos my * 2 ^ (ey - Z.min ex ey))
  = match ex ?= ey with
    | Lt => Lt
    | Gt => Gt
    | Eq => Pos.compare_cont Eq mx my
    end.
Proof.
  intros Hx Hy.
  apply valid_finite_bounds in Hx as (Hxe & Hxd & Hxn).
  apply valid_finite_bounds in Hy as (Hye & Hyd & Hyn).
  pose proof (digits2_pos_bounds mx) as Bx.
  pose proof (digits2_pos_bounds my) as By.
  destruct (Z.compare_spec ex ey) as [Heq|Hlt|Hgt].
  - subst ey. rewrite Z.min_id, Z.sub_diag. simpl (2 ^ 0). rewrite !Z.mul_1_r.
    reflexivity.
  - rewrite Z.min_l by lia. rewrite Z.sub_diag. simpl (2 ^ 0). rewrite Z.mul_1_r.
    apply Z.compare_lt_iff.
    rewrite (Hyn ltac:(lia)) in By.
    assert (Z.pos mx < 2 ^ 53).
    { apply Z.lt_le_trans with (2 ^ Z.pos (digits2_pos mx)); [lia|].
      apply Z.pow_le_mono_r; lia. }
    assert (2 ^ 1 <= 2 ^ (ey - ex)) by (apply Z.pow_le_mono_r; lia).
    change (2 ^ (53 - 1)) with (2 ^ 52) in By. change (2 ^ 1) with 2 in *.
    assert (2 ^ 53 = 2 * 2 ^ 52) by reflexivity.
    nia.
  - rewrite Z.min_r by lia. rewrite Z.sub_diag. simpl (2 ^ 0). rewrite Z.mul_1_r.
    apply Z.compare_gt_iff.
    rewrite (Hxn ltac:(lia)) in Bx.
    assert (Z.pos my < 2 ^ 53).
    { apply Z.lt_le_trans with (2 ^ Z.pos (digits2_pos my)); [lia|].
      apply Z.pow_le_mono_r; lia. }
    assert (2 ^ 1 <= 2 ^ (ex - ey)) by (apply Z.pow_le_mono_r; lia).
    change (2 ^ (53 - 1)) with (2 ^ 52) in Bx. change (2 ^ 1) with 2 in *.
    assert (2 ^ 53 = 2 * 2 ^ 52) by reflexivity.
    nia.
Qed.


Lemma SFltb_zero_signed s r :
  signed s r -> SFltb (S754_zero false) r = negb s.
Proof.
  destruct r as [s'|s'| |s' m e]; simpl; try contradiction;
    intros ->; destruct s; reflexivity.
Qed.

Lemma binary_normalize_sign (M e : Z) :
  -1074 <= e ->
  SFltb (S754_zero false) (binary_normalize prec emax M e false) = (0 <? M).
Proof.
  intros He. destruct M as [|m|m]; simpl binary_normalize.
  - reflexivity.
  - rewrite (SFltb_zero_signed false); [reflexivity|].
    apply binary_round_signed, He.
  - rewrite (SFltb_zero_signed true); [reflexivity|].
    apply binary_round_signed, He.
Qed.

(** The comparator [(a, b) => a - b] is positive exactly when [b < a]:
    a difference of two distinct doubles never rounds to zero. *)
Lemma sub_positive_iff_lt (a b : float) :
  num_gt (a - b)%float 0%float = PrimFloat.ltb b a.
Proof.
  unfold num_gt. rewrite !FloatAxioms.ltb_spec, FloatAxioms.sub_spec.
  assert (H0 : Prim2SF 0 = S754_zero false) by (vm_compute; reflexivity).
  rewrite H0. clear H0.
  pose proof (Prim2SF_valid a) as Va. pose proof (Prim2SF_valid b) as Vb.
  destruct (Prim2SF a) as [sx|sx| |sx mx ex], (Prim2SF b) as [sy|sy| |sy my ey];
    try reflexivity;
    try (destruct sx; reflexivity); try (destruct sy; reflexivity);
    try (destruct sx, sy; reflexivity).
  unfold SF64sub, SFsub.
  destruct (valid_finite_bounds _ _ _ Va) as (Hex & _ & _).
  destruct (valid_finite_bounds _ _ _ Vb) as (Hey & _ & _).
  rewrite binary_normalize_sign by lia.
  rewrite !shl_align_fst by lia.
  unfold SFltb, SFcompare.
  destruct sx, sy; unfold cond_Zopp.
  - (* both negative *)
    assert (Vb' : valid_binary (S754_finite false my ey) = true) by exact Vb.
    assert (Va' : valid_binary (S754_finite false mx ex) = true) by exact Va.
    pose proof (aligned_compare my ey mx ex Vb' Va') as Hc.
    rewrite (Z.min_comm ey ex) in Hc.
    destruct (ey ?= ex) eqn:Hee.
    + destruct (Pos.compare_cont Eq my mx) eqn:Hmm; simpl CompOpp;
        [apply Z.compare_eq_iff in Hc | pose proof (proj1 (Z.compare_lt_iff _ _) Hc)
         | pose proof (proj1 (Z.compare_gt_iff _ _) Hc)];
        destruct (Z.ltb_spec 0 (- (Z.pos mx * 2 ^ (ex - Z.min ex ey))
                                 - - (Z.pos my * 2 ^ (ey - Z.min ex ey))));
        try reflexivity; lia.
    + pose proof (proj1 (Z.compare_lt_iff _ _) Hc).
      destruct (Z.ltb_spec 0 (- (Z.pos mx * 2 ^ (ex - Z.min ex ey))
                               - - (Z.pos my * 2 ^ (ey - Z.min ex ey))));
        try reflexivity; lia.
    + pose proof (proj1 (Z.compare_gt_iff _ _) Hc).
      destruct (Z.ltb_spec 0 (- (Z.pos mx * 2 ^ (ex - Z.min ex ey))
                               - - (Z.pos my * 2 ^ (ey - Z.min ex ey))));
        try reflexivity; lia.
  - (* a negative, b positive *)
    assert (0 < 2 ^ (ex - Z.min ex ey)) by (apply Z.pow_pos_nonneg; lia).
    assert (0 < 2 ^ (ey - Z.min ex ey)) by (apply Z.pow_pos_nonneg; lia).
    destruct (Z.ltb_spec 0 (- (Z.pos mx * 2 ^ (ex - Z.min ex ey))
                             - Z.pos my * 2 ^ (ey - Z.min ex ey)));
      try reflexivity; nia.
  - (* a positive, b negative *)
    assert (0 < 2 ^ (ex - Z.min ex ey)) by (apply Z.pow_pos_nonneg; lia).
    assert (0 < 2 ^ (ey - Z.min ex ey)) by (apply Z.pow_pos_nonneg; lia).
    destruct (Z.ltb_spec 0 (Z.pos mx * 2 ^ (ex - Z.min ex ey)
                             - - (Z.pos my * 2 ^ (ey - Z.min ex ey))));
      try reflexivity; nia.
  - (* both positive *)
    assert (Vb' : valid_binary (S754_finite false my ey) = true) by exact Vb.
    assert (Va' : valid_binary (S754_finite false mx ex) = true) by exact Va.
    pose proof (aligned_compare my ey mx ex Vb' Va') as Hc.
    rewrite (Z.min_comm ey ex) in Hc.
    destruct (ey ?= ex) eqn:Hee.
    + destruct (Pos.compare_cont Eq my mx) eqn:Hmm;
        [apply Z.compare_eq_iff in Hc | pose proof (proj1 (Z.compare_lt_iff _ _) Hc)
         | pose proof (proj1 (Z.compare_gt_iff _ _) Hc)];
        destruct (Z.ltb_spec 0 (Z.pos mx * 2 ^ (ex - Z.min ex ey)
                                 - Z.pos my * 2 ^ (ey - Z.min ex ey)));
        try reflexivity; lia.
    + pose proof (proj1 (Z.compare_lt_iff _ _) Hc).
      destruct (Z.ltb_spec 0 (Z.pos mx * 2 ^ (ex - Z.min ex ey)
                               - Z.pos my * 2 ^ (ey - Z.min ex ey)));
        try reflexivity; lia.
    + pose proof (proj1 (Z.compare_gt_iff _ _) Hc).
      destruct (Z.ltb_spec 0 (Z.pos mx * 2 ^ (ex - Z.min ex ey)
                               - Z.pos my * 2 ^ (ey - Z.min ex ey)));
        try reflexivity; lia.
Qed.

Lemma SFcompare_antisym x y c :
  SFcompare x y = Some c -> SFcompare y x = Some (CompOpp c).
Proof.
  destruct x as [sx|sx| |sx mx ex], y as [sy|sy| |sy my ey]; simpl;
    try discriminate;
    try (intros [= <-]; try destruct sx; try destruct sy; reflexivity).
  intros [= <-]. f_equal.
  destruct sx, sy; try reflexivity;
    rewrite (Z.compare_antisym ex ey);
    destruct (ex ?= ey); simpl; try reflexivity;
    pose proof (Pos.compare_cont_antisym mx my Eq) as E; simpl in E;
    rewrite <- E, ?CompOpp_involutive; reflexivity.
Qed.

(** On numbers that are not [NaN], [<] and [<=] are each other's
    complement. *)
Lemma not_lt_le (x y : float) :
  PrimFloat.is_nan x = false -> PrimFloat.is_nan y = false ->
  PrimFloat.ltb y x = false -> PrimFloat.leb x y = true.
Proof.
  unfold PrimFloat.is_nan.
  rewrite FloatAxioms.ltb_spec, FloatAxioms.leb_spec, !FloatAxioms.eqb_spec.
  unfold SFltb, SFleb, SFeqb. intros Hx Hy.
  destruct (SFcompare (Prim2SF y) (Prim2SF x)) as [c|] eqn:Hc.
  - rewrite (SFcompare_antisym _ _ _ Hc). destruct c; simpl; congruence.
  - exfalso.
    destruct (Prim2SF x) as [sx|sx| |sx mx ex], (Prim2SF y) as [sy|sy| |sy my ey];
      simpl in *; try discriminate.
Qed.

Lemma lt_le (x y : float) : PrimFloat.ltb x y = true -> PrimFloat.leb x y = true.
Proof.
  rewrite FloatAxioms.ltb_spec, FloatAxioms.leb_spec. unfold SFltb, SFleb.
  destruct (SFcompare _ _) as [[]|]; congruence.
Qed.

End FloatOrder.
(** ** Sorting with a comparator *)

Section SortFacts.
Context {A : Type}.
Variable after : A -> A -> bool.

Lemma insert_sorted_perm (x : A) (l : list A) :
  Permutation (insert_sorted after x l) (x :: l).
Proof.
  induction l as [|y l IH]; simpl; [reflexivity|].
  destruct (after x y); [|reflexivity].
  rewrite IH. apply perm_swap.
Qed.

Lemma sort_by_perm (l : list A) : Permutation (sort_by after l) l.
Proof.
  induction l as [|x l IH]; simpl; [reflexivity|].
  rewrite insert_sorted_perm. now constructor.
Qed.

Lemma sort_by_length (l : list A) : length (sort_by after l) = length l.
Proof. apply Permutation_length, sort_by_perm. Qed.

(** When the comparator decides an order [R] on the elements that satisfy
    [P], the output is sorted for [R]. *)
Variable R : A -> A -> Prop.
Variable P : A -> Prop.
Hypothesis after_true : forall x y, P x -> P y -> after x y = true -> R y x.
Hypothesis after_false : forall x y, P x -> P y -> after x y = false -> R x y.

Lemma insert_sorted_hd (x y : A) (l : list A) :
  R y x -> HdRel R y l -> HdRel R y (insert_sorted after x l).
Proof.
  intros Hyx Hl. destruct l as [|z l]; simpl; [now constructor|].
  destruct (after x z); constructor; [|exact Hyx].
  now inversion Hl.
Qed.

Lemma insert_sorted_sorted (x : A) (l : list A) :
  P x -> Forall P l -> Sorted R l -> Sorted R (insert_sorted after x l).
Proof.
  intros Hx HP Hs. induction l as [|y l IH]; simpl.
  - repeat constructor.
  - inversion HP as [|? ? Hy HPl]; subst. inversion Hs as [|? ? Hsl Hhd]; subst.
    destruct (after x y) eqn:E.
    + constructor; [now apply IH|].
      apply insert_sorted_hd; [|exact Hhd]. now apply after_true.
    + constructor; [exact Hs|]. constructor. now apply after_false.
Qed.

Lemma sort_by_sorted (l : list A) : Forall P l -> Sorted R (sort_by after l).
Proof.
  induction l as [|x l IH]; simpl; intros HP; [constructor|].
  inversion HP; subst.
  apply insert_sorted_sorted; [assumption| |now apply IH].
  eapply Permutation_Forall; [symmetry; apply sort_by_perm|assumption].
Qed.
End SortFacts.

Lemma sort_ascending_length (l : list float) :
  length (sort_ascending l) = length l.
Proof. apply sort_by_length. Qed.

Lemma sort_ascending_sorted (l : list float) :
  Forall not_nan l -> Sorted le_num (sort_ascending l).
Proof.
  apply sort_by_sorted; intros x y Hx Hy; rewrite sub_positive_iff_lt.
  - apply lt_le.
  - now apply not_lt_le.
Qed.

(** ** The conformal quantile *)

Lemma quantile_input_not_nan (n : nat) (alpha : float) :
  Z.of_nat n < 2 ^ 32 ->
  num_gt alpha 0%float = true -> num_lt alpha 1%float = true ->
  Prim2SF (of_Z (Z.of_nat n + 1) * (1 - alpha))%float <> S754_nan.
Proof.
  intros Hn Hpos Hlt.
  destruct (guard_finite alpha Hpos Hlt) as (ma & ea & Ha).
  destruct (of_Z_finite (Z.of_nat n + 1)) as (mn & en & Hx).
  { split; [lia|]. apply Z.lt_trans with (2 ^ 33); [|reflexivity].
    change (2 ^ 33) with (2 ^ 32 + 2 ^ 32). lia. }
  eapply mul_finite_not_nan; [exact Hx|].
  eapply sub_finite_not_nan; [|exact Ha].
  instantiate (1 := (-52)). instantiate (1 := 4503599627370496%positive).
  instantiate (1 := false). vm_compute. reflexivity.
Qed.

Lemma quantile_rank_in_range (n : nat) (alpha : float) :
  (1 <= n)%nat ->
  Prim2SF (of_Z (Z.of_nat n + 1) * (1 - alpha))%float <> S754_nan ->
  exists k : nat, quantile_rank n alpha = IFin (Z.of_nat k) /\ (k < n)%nat.
Proof.
  intros Hn Hnan. unfold quantile_rank, Math_ceil.
  destruct (Prim2SF _) as [s|[]| |s m e]; try congruence; simpl.
  - exists (Z.to_nat (Z.max 0 (Z.min (Z.of_nat n - 1) (0 - 1)))). split; [f_equal|]; lia.
  - exists 0%nat. split; [reflexivity|lia].
  - exists (n - 1)%nat. split; [f_equal|]; lia.
  - exists (Z.to_nat (Z.max 0 (Z.min (Z.of_nat n - 1) (ceil_finite s m e - 1)))).
    split; [f_equal|]; lia.
Qed.

(** On a non-empty list, with [alpha] inside (0,1), the quantile is the
    element of the sorted scores at the rank, which is a valid index. *)
Lemma conformalQuantile_value (scores : list float) (alpha : float) :
  (1 <= length scores)%nat -> Z.of_nat (length scores) < 2 ^ 32 ->
  alpha_in_unit alpha ->
  exists (k : nat) (v : float),
    quantile_rank (length scores) alpha = IFin (Z.of_nat k)
    /\ sort_ascending scores !! k = Some v
    /\ conformalQuantile scores alpha = Ok (Some v).
Proof.
  intros Hn Hlen [Hpos Hlt].
  pose proof (quantile_input_not_nan _ _ Hlen Hpos Hlt) as Hnan.
  destruct (quantile_rank_in_range _ _ Hn Hnan) as (k & Hk & Hkn).
  destruct (lookup_lt_is_Some_2 (sort_ascending scores) k) as [v Hv].
  { now rewrite sort_ascending_length. }
  exists k, v. repeat split; [exact Hk|exact Hv|].
  unfold conformalQuantile. rewrite Hpos, Hlt. simpl negb. cbv iota.
  destruct (Nat.eqb_spec (length scores) 0) as [E|_]; [lia|].
  rewrite Hk. unfold index.
  destruct (Z.leb_spec 0 (Z.of_nat k)) as [_|?]; [|lia].
  now rewrite Nat2Z.id, Hv.
Qed.

(** C1.  For a non-empty list of scores and [alpha] inside (0,1),
    [conformalQuantile] returns the element at index
    [clamp(ceil((n+1)*(1-alpha)) - 1, 0, n-1)] of the ascending sort of the
    scores (a permutation of the scores, in ascending order when no score
    is [NaN]); for [n = 99] and [alpha = 0.1] the index is [89]. *)
Theorem conformalQuantile_rank (scores : list float) (alpha : float) :
  (1 <= length scores)%nat -> Z.of_nat (length scores) < 2 ^ 32 ->
  num_gt alpha 0%float = true -> num_lt alpha 1%float = true ->
  exists (k : nat) (v : float),
    Spec.conformal_rank (length scores) alpha = IFin (Z.of_nat k)
    /\ sort_ascending scores !! k = Some v
    /\ conformalQuantile scores alpha = Ok (Some v)
    /\ Permutation (sort_ascending scores) scores
    /\ (Forall not_nan scores -> Sorted le_num (sort_ascending scores))
    /\ (length scores = 99%nat -> alpha = 0.1%float -> k = 89%nat).
Proof.
  intros Hn Hlen Hpos Hlt.
  destruct (conformalQuantile_value scores alpha Hn Hlen (conj Hpos Hlt))
    as (k & v & Hk & Hv & Hq).
  exists k, v. repeat split; try assumption.
  - apply sort_by_perm.
  - apply sort_ascending_sorted.
  - intros E99 Ea. subst alpha. rewrite E99 in Hk.
    assert (Hc : quantile_rank 99 0.1%float = IFin 89)
      by (vm_compute; reflexivity).
    rewrite Hc in Hk. injection Hk. lia.
Qed.

Lemma conformalQuantile_rank_witness :
  exists (k : nat) (v : float),
    Spec.conformal_rank 3 0.5%float = IFin (Z.of_nat k)
    /\ sort_ascending [3; 1; 2]%float !! k = Some v
    /\ conformalQuantile [3; 1; 2]%float 0.5%float = Ok (Some v)
    /\ Permutation (sort_ascending [3; 1; 2]%float) [3; 1; 2]%float
    /\ (Forall not_nan [3; 1; 2]%float -> Sorted le_num (sort_ascending [3; 1; 2]%float))
    /\ (3%nat = 99%nat -> 0.5%float = 0.1%float -> k = 89%nat).
Proof.
  apply (conformalQuantile_rank [3; 1; 2]%float 0.5%float).
  - simpl. lia.
  - reflexivity.
  - reflexivity.
  - reflexivity.
Defined.
(** ** The hashed positions *)

Lemma bytes_of_word_nonneg (w : Z) : Forall (fun b => 0 <= b) (bytes_of_word w).
Proof.
  unfold bytes_of_word. apply List.Forall_forall. intros b Hb.
  apply in_map_iff in Hb as (j & <- & _).
  apply Z.land_nonneg. right. lia.
Qed.

Lemma blake2b_bytes_nonneg input outlen key d :
  blake2b input outlen key = Ok d -> Forall (fun b => 0 <= b) d.
Proof.
  unfold blake2b. destruct (_ || _); [discriminate|].
  destruct (128 <? _); [discriminate|]. intros [= <-].
  apply Forall_take, Forall_flat_map, List.Forall_forall.
  intros w _. apply bytes_of_word_nonneg.
Qed.

Lemma blake2b_total input key :
  (length key <= 128)%nat -> exists d, blake2b input 16 key = Ok d.
Proof.
  intros Hk. unfold blake2b. simpl (_ || _). cbv iota.
  destruct (Z.ltb_spec 128 (Z.of_nat (length key))); [lia|]. eauto.
Qed.

Lemma getUint32_nonneg d o : Forall (fun b => 0 <= b) d -> 0 <= getUint32 d o.
Proof.
  intros Hd. unfold getUint32.
  assert (Hn : forall i, 0 <= nth i d 0).
  { intros i. destruct (nth_in_or_default i d 0) as [Hin| ->]; [|lia].
    rewrite List.Forall_forall in Hd. now apply Hd. }
  pose proof (Hn o). pose proof (Hn (o + 1)%nat).
  pose proof (Hn (o + 2)%nat). pose proof (Hn (o + 3)%nat).
  repeat apply Z.add_nonneg_nonneg; try apply Z.shiftl_nonneg; assumption.
Qed.

Lemma u64leFromDigest16_nonneg d :
  Forall (fun b => 0 <= b) d -> 0 <= u64leFromDigest16 d.
Proof.
  intros Hd. unfold u64leFromDigest16. apply Z.lor_nonneg. split.
  - apply Z.shiftl_nonneg. now apply getUint32_nonneg.
  - now apply getUint32_nonneg.
Qed.

Lemma blake2bIndex_range i D key p :
  0 < D <= 2 ^ 53 -> blake2bIndex i D key = Ok p -> 0 <= p < D.
Proof.
  intros HD. unfold blake2bIndex.
  destruct (blake2b (to8LE i) 16 key) as [d|] eqn:Hb; [|discriminate].
  simpl. intros [= <-].
  pose proof (u64leFromDigest16_nonneg d (blake2b_bytes_nonneg _ _ _ _ Hb)) as Hv.
  pose proof (Z.rem_bound_pos (u64leFromDigest16 d) D Hv ltac:(lia)) as Hr.
  unfold Number_of_BigInt.
  destruct (Z.ltb_spec (Z.abs (Z.rem (u64leFromDigest16 d) D)) (2 ^ 53)); lia.
Qed.

Lemma blake2bIndex_total i D key :
  (length key <= 128)%nat -> exists p, blake2bIndex i D key = Ok p.
Proof.
  intros Hk. unfold blake2bIndex.
  destruct (blake2b_total (to8LE i) key Hk) as [d ->]. simpl. eauto.
Qed.

(** ** The placement loop *)

Lemma slots_wf_empty D : slots_wf D empty_slots.
Proof.
  repeat split; simpl; try constructor.
  - intros H. now rewrite lookup_empty in H.
  - intros H. now rewrite lookup_nil in H.
Qed.

Lemma claim_wf D s chosen v :
  0 <= chosen < D -> slots_wf D s -> slots_wf D (claim s chosen v).
Proof.
  intros Hc (Hlen & Hinv & Hrange). unfold claim.
  destruct (taken s !! chosen) as [i|] eqn:Ht.
  - assert (Hi : pos s !! i = Some chosen) by now apply Hinv.
    rewrite (list_insert_id _ _ _ Hi).
    repeat split; simpl; try assumption.
    + now rewrite length_insert.
    + apply Hinv.
    + apply Hinv.
  - repeat split; simpl.
    + rewrite !length_app. simpl. lia.
    + intros H. destruct (decide (p = chosen)) as [->|Hne].
      * rewrite lookup_insert_eq in H. injection H as <-.
        rewrite lookup_app_r by lia. now rewrite Nat.sub_diag.
      * rewrite lookup_insert_ne in H by congruence.
        apply Hinv in H. rewrite lookup_app_l; [exact H|].
        eapply lookup_lt_Some, H.
    + intros H. destruct (decide (i < length (pos s))%nat) as [Hlt|Hge].
      * rewrite lookup_app_l in H by exact Hlt.
        apply Hinv in H. destruct (decide (p = chosen)) as [->|Hne]; [congruence|].
        now rewrite lookup_insert_ne by congruence.
      * rewrite lookup_app_r in H by lia.
        destruct (i - length (pos s))%nat as [|n] eqn:Hd; simpl in H; [|now destruct n].
        injection H as <-. rewrite lookup_insert_eq. f_equal. lia.
    + apply Forall_app. split; [assumption|]. now repeat constructor.
Qed.

Lemma claim_length s chosen v :
  (length (pos (claim s chosen v)) <= S (length (pos s)))%nat.
Proof.
  unfold claim. destruct (taken s !! chosen); simpl.
  - rewrite length_insert. lia.
  - rewrite length_app. simpl. lia.
Qed.

Lemma place_wf h elev s orig s' :
  0 < dim h <= 2 ^ 53 -> slots_wf (dim h) s ->
  place h elev s orig = Ok s' ->
  slots_wf (dim h) s' /\ (length (pos s') <= S (length (pos s)))%nat.
Proof.
  intros HD Hwf. unfold place.
  destruct (strict_eq _ _); [intros [= <-]; split; [assumption|lia]|].
  destruct (blake2bIndex _ _ (default DEFAULT_SALT1 _)) as [p1|] eqn:H1; [|discriminate].
  simpl bind. pose proof (blake2bIndex_range _ _ _ _ HD H1) as Hp1.
  destruct (bool_decide _).
  - destruct (default true (useDoubleHash h)).
    + destruct (blake2bIndex _ _ (default DEFAULT_SALT2 _)) as [p2|] eqn:H2; [|discriminate].
      simpl bind. pose proof (blake2bIndex_range _ _ _ _ HD H2) as Hp2.
      destruct (negb _); [intros [= <-]; split; [now apply claim_wf|apply claim_length]|].
      destruct (beats s _ p1); intros [= <-];
        (split; [try assumption; now apply claim_wf|try apply claim_length; lia]).
    + destruct (beats s _ p1); intros [= <-];
        (split; [try assumption; now apply claim_wf|try apply claim_length; lia]).
  - intros [= <-]. split; [now apply claim_wf|apply claim_length].
Qed.

Lemma place_total h elev s orig :
  salts_ok h -> exists s', place h elev s orig = Ok s'.
Proof.
  intros [Hs1 Hs2]. unfold place.
  destruct (strict_eq _ _); [eauto|].
  destruct (blake2bIndex_total (Z.of_nat orig) (dim h) _ Hs1) as [p1 ->]. simpl bind.
  destruct (blake2bIndex_total (Z.of_nat orig) (dim h) _ Hs2) as [p2 ->]. simpl bind.
  destruct (bool_decide _); [|eauto].
  destruct (default true _); [destruct (negb _); [eauto|]|]; destruct (beats _ _ _); eauto.
Qed.

Lemma place_all_wf h elev idxs : forall s s',
  0 < dim h <= 2 ^ 53 -> slots_wf (dim h) s ->
  place_all h elev s idxs = Ok s' ->
  slots_wf (dim h) s' /\ (length (pos s') <= length (pos s) + length idxs)%nat.
Proof.
  induction idxs as [|orig rest IH]; intros s s' HD Hwf; simpl.
  - intros [= <-]. split; [assumption|lia].
  - destruct (place h elev s orig) as [s1|] eqn:Hp; [|discriminate]. simpl bind.
    destruct (place_wf _ _ _ _ _ HD Hwf Hp) as [Hwf1 Hl1].
    intros Hrest. destruct (IH _ _ HD Hwf1 Hrest) as [Hwf' Hl']. split; [assumption|lia].
Qed.

Lemma place_all_total h elev idxs : forall s,
  salts_ok h -> exists s', place_all h elev s idxs = Ok s'.
Proof.
  induction idxs as [|orig rest IH]; intros s Hs; simpl; [eauto|].
  destruct (place_total h elev s orig Hs) as [s1 ->]. simpl bind. now apply IH.
Qed.

Lemma ranked_length elev kk :
  0 < kk -> Z.of_nat (length (ranked elev kk)) <= kk.
Proof.
  intros Hk. unfold ranked.
  destruct (Z.ltb_spec kk (Z.of_nat (length elev))) as [Hlt|Hge].
  - unfold slice0. destruct (Z.ltb_spec kk 0); [lia|].
    rewrite length_firstn. lia.
  - rewrite sort_by_length, length_seq. lia.
Qed.

(** ** The final ordering of the kept positions *)

Lemma slots_wf_NoDup D s : slots_wf D s -> NoDup (pos s).
Proof.
  intros (_ & Hinv & _). apply NoDup_alt. intros i j p Hi Hj.
  apply Hinv in Hi, Hj. congruence.
Qed.

Lemma map_nth_seq {A : Type} (l : list A) (d : A) :
  map (fun i => nth i l d) (seq 0 (length l)) = l.
Proof.
  induction l as [|x l IH]; simpl; [reflexivity|].
  f_equal. rewrite <- seq_shift, map_map. exact IH.
Qed.

Lemma Sorted_map {A B : Type} (f : A -> B) (R : B -> B -> Prop) (l : list A) :
  Sorted (fun a b => R (f a) (f b)) l -> Sorted R (map f l).
Proof.
  induction 1 as [|a l Hs IH Hhd]; simpl; constructor; [assumption|].
  destruct Hhd; simpl; now constructor.
Qed.

Lemma Sorted_le_NoDup_lt (l : list Z) : Sorted Z.le l -> NoDup l -> Sorted Z.lt l.
Proof.
  induction 1 as [|a l Hs IH Hhd]; intros Hnd; constructor.
  - apply IH. now apply NoDup_cons_1_2 in Hnd.
  - apply NoDup_cons_1_1 in Hnd. destruct Hhd as [|b l Hab]; constructor.
    assert (a <> b) by (intros ->; apply Hnd; left). lia.
Qed.

Lemma toInt32_small p : 0 <= p < 2 ^ 31 -> toInt32 p = p.
Proof.
  intros Hp. unfold toInt32. rewrite Z.mod_small; lia.
Qed.

Lemma l2norm_nil : l2norm [] = 0%float.
Proof. reflexivity. Qed.

Lemma finish_invariant D kk s :
  0 < D <= 2 ^ 31 -> slots_wf D s -> Z.of_nat (length (pos s)) <= kk ->
  signature_invariant D kk (finish s).
Proof.
  intros HD Hwf Hk. pose proof (slots_wf_NoDup _ _ Hwf) as Hnd.
  destruct Hwf as (Hlen & Hinv & Hrange). unfold finish.
  destruct (Nat.eqb_spec (length (pos s)) 0) as [E|E].
  - repeat split; simpl; try constructor. lia.
  - set (after := fun a b : nat => 0 <? nth a (pos s) 0 - nth b (pos s) 0).
    set (order := sort_by after (seq 0 (length (pos s)))).
    assert (Hperm : Permutation order (seq 0 (length (pos s))))
      by apply sort_by_perm.
    assert (Hidx : map (fun i => toInt32 (nth i (pos s) 0)) order
                   = map (fun i => nth i (pos s) 0) order).
    { apply map_ext_in. intros i Hi. apply toInt32_small.
      apply (Permutation_in _ Hperm), in_seq in Hi.
      rewrite List.Forall_forall in Hrange.
      specialize (Hrange (nth i (pos s) 0) ltac:(apply nth_In; lia)). lia. }
    assert (Hpp : Permutation (map (fun i => nth i (pos s) 0) order) (pos s)).
    { etransitivity; [apply Permutation_map, Hperm|]. now rewrite map_nth_seq. }
    unfold signature_invariant. simpl idx. simpl val. simpl norm. rewrite Hidx.
    assert (Hnd' : NoDup (map (fun i => nth i (pos s) 0) order)).
    { now rewrite Hpp. }
    repeat split.
    + apply Sorted_le_NoDup_lt; [|exact Hnd'].
      apply Sorted_map.
      apply (sort_by_sorted after (fun a b => nth a (pos s) 0 <= nth b (pos s) 0)
                            (fun _ => True)).
      * intros x y _ _ H. unfold after in H. apply Z.ltb_lt in H. lia.
      * intros x y _ _ H. unfold after in H. apply Z.ltb_ge in H. lia.
      * apply List.Forall_forall. auto.
    + exact Hnd'.
    + eapply Permutation_Forall; [symmetry; exact Hpp|exact Hrange].
    + now rewrite !length_map.
    + rewrite length_map. unfold order. rewrite sort_by_length, length_seq. exact Hk.
Qed.

Lemma encode_total vec c :
  0 < k c -> 0 < dim (hashing c) -> salts_ok (hashing c) ->
  exists s, encodeSparseSignature vec c = Ok s.
Proof.
  intros Hk HD Hs. unfold encodeSparseSignature.
  destruct (Z.leb_spec (k c) 0); [lia|].
  destruct (Z.leb_spec (dim (hashing c)) 0); [lia|].
  destruct (place_all_total (hashing c) (elevation (robustZ vec) (clipQuantile c))
              (ranked (elevation (robustZ vec) (clipQuantile c)) (k c))
              empty_slots Hs) as [sl ->].
  simpl. eauto.
Qed.

(** C4 (as the code has it).  For [k > 0] and a dimension [0 < D <= 2^31]
    (positions are stored in an [Int32Array]), the encoder returns a
    signature whenever the salts are valid keys, and every signature it
    returns satisfies the data-model invariant: positions strictly
    ascending and unique, each in [[0, D)], as many values as positions,
    at most [k] of them, and [norm] the L2 norm of the values. *)
Theorem encodeSparseSignature_invariant (vec : list float) (c : Config) :
  0 < k c -> 0 < dim (hashing c) <= 2 ^ 31 ->
  (salts_ok (hashing c) -> exists s, encodeSparseSignature vec c = Ok s)
  /\ (forall s, encodeSparseSignature vec c = Ok s ->
                signature_invariant (dim (hashing c)) (k c) s).
Proof.
  intros Hk HD. split; [intros Hs; apply encode_total; [assumption|lia|assumption]|].
  intros s. unfold encodeSparseSignature.
  destruct (Z.leb_spec (k c) 0); [lia|].
  destruct (Z.leb_spec (dim (hashing c)) 0); [lia|].
  destruct (place_all _ _ _ _) as [sl|] eqn:Hp; [|discriminate].
  simpl bind. intros [= <-].
  assert (HD53 : 0 < dim (hashing c) <= 2 ^ 53).
  { split; [lia|]. apply Z.le_trans with (2 ^ 31); [lia|]. discriminate. }
  destruct (place_all_wf _ _ _ _ _ HD53 (slots_wf_empty _) Hp) as [Hwf Hl].
  apply finish_invariant; [assumption..|].
  pose proof (ranked_length (elevation (robustZ vec) (clipQuantile c)) (k c) Hk).
  simpl in Hl. lia.
Qed.

Lemma encodeSparseSignature_invariant_witness :
  let vec := [100; 1; 2; 3; 4; 5; 6; 7; 8; 9; 10;
              11; 12; 13; 14; 15; 16; 17; 18; 19; 20]%float in
  (salts_ok (hashing default_config) ->
   exists s, encodeSparseSignature vec default_config = Ok s)
  /\ (forall s, encodeSparseSignature vec default_config = Ok s ->
                signature_invariant 4096 16 s).
Proof.
  apply (encodeSparseSignature_invariant
           [100; 1; 2; 3; 4; 5; 6; 7; 8; 9; 10;
            11; 12; 13; 14; 15; 16; 17; 18; 19; 20]%float default_config).
  - simpl. lia.
  - simpl. split; [lia|discriminate].
Defined.

(** C4 as stated fails for a dimension above [2^31]: with [D = 2^32] the
    position of feature [0] is [2286107734], which the 32-bit index array
    stores as [-2008859562], outside [[0, D)]. *)
Lemma encode_position_outside_dimension :
  let c := {| k := 16; hashing := default_hashing (2 ^ 32); clipQuantile := 0%float |} in
  0 < k c /\ 0 < dim (hashing c)
  /\ blake2bIndex 0 (2 ^ 32) DEFAULT_SALT1 = Ok 2286107734
  /\ exists s, encodeSparseSignature [1; 0; 0]%float c = Ok s
               /\ idx s = [-2008859562]
               /\ ~ signature_invariant (dim (hashing c)) (k c) s.
Proof.
  split; [reflexivity|]. split; [reflexivity|]. split; [vm_compute; reflexivity|].
  eexists. split; [vm_compute; reflexivity|]. split; [reflexivity|].
  intros (_ & _ & Hrange & _). simpl in Hrange.
  apply Forall_cons_1 in Hrange as [Hr _]. lia.
Qed.

(** ** Sparse cosine of a signature with itself *)

Lemma merge_dot_self (l : list (Z * float)) : forall dot,
  merge_dot l l dot = fold_left (fun acc e => (acc + snd e * snd e)%float) l dot.
Proof.
  induction l as [|[p v] l IH]; intros dot; simpl; [reflexivity|].
  rewrite Z.eqb_refl. apply IH.
Qed.

Lemma entries_values (ps : list Z) : forall vs : list float,
  length ps = length vs ->
  map snd (imap (fun i p => (p, at_num vs i)) ps) = vs.
Proof.
  induction ps as [|p ps IH]; intros [|v vs] Hlen; simpl in *; try lia; [reflexivity|].
  f_equal. apply IH. lia.
Qed.

Lemma fold_left_snd (l : list (Z * float)) : forall dot,
  fold_left (fun acc e => (acc + snd e * snd e)%float) l dot
  = fold_left (fun acc x => (acc + x * x)%float) (map snd l) dot.
Proof. induction l as [|e l IH]; intros dot; simpl; [reflexivity|apply IH]. Qed.

Lemma finish_shape (s : slots) :
  length (idx (finish s)) = length (val (finish s))
  /\ norm (finish s) = l2norm (val (finish s)).
Proof.
  unfold finish. destruct (length (pos s) =? 0)%nat; simpl.
  - split; reflexivity.
  - now rewrite !length_map.
Qed.

Lemma encode_shape vec c s :
  encodeSparseSignature vec c = Ok s ->
  length (idx s) = length (val s) /\ norm s = l2norm (val s).
Proof.
  unfold encodeSparseSignature.
  destruct (k c <=? 0); [discriminate|].
  destruct (dim (hashing c) <=? 0); [discriminate|].
  destruct (place_all _ _ _ _) as [sl|]; [|discriminate].
  simpl. intros [= <-]. apply finish_shape.
Qed.

(** C5 (as the code has it).  The cosine of an encoded signature with
    itself is [S / ((sqrt S + eps) * (sqrt S + eps))], where [S] is the sum
    of the squared values and [eps = 1e-12]: the regularised denominator
    keeps it away from [1] unless [eps] is absorbed by the norm. *)
Theorem cosineSparse_self (vec : list float) (c : Config) (s : SparseSignature) :
  encodeSparseSignature vec c = Ok s ->
  let S := fold_left (fun acc x => (acc + x * x)%float) (val s) 0%float in
  let denom := ((Math_sqrt S + c_1em12) * (Math_sqrt S + c_1em12))%float in
  cosineSparse s s = if num_gt denom 0%float then (S / denom)%float else 0%float.
Proof.
  intros Henc. destruct (encode_shape _ _ _ Henc) as [Hlen Hnorm].
  unfold cosineSparse, entries.
  rewrite merge_dot_self, fold_left_snd, (entries_values _ _ Hlen), Hnorm.
  reflexivity.
Qed.

Lemma cosineSparse_self_witness :
  let s := {| idx := [0]; val := [(-0x1.030123be1adc2p+1)%float];
              norm := 0x1.030123be1adc2p+1%float |} in
  let S := fold_left (fun acc x => (acc + x * x)%float) (val s) 0%float in
  let denom := ((Math_sqrt S + c_1em12) * (Math_sqrt S + c_1em12))%float in
  cosineSparse s s = if num_gt denom 0%float then (S / denom)%float else 0%float.
Proof.
  apply (cosineSparse_self [1; 0; -3]%float
           {| k := 16; hashing := default_hashing 1; clipQuantile := 0%float |}).
  vm_compute. reflexivity.
Defined.

(** C5 as stated fails: on the default configuration, the signature of a
    21-entry vector with one outlier is not empty and its cosine with itself
    is below [1]. *)
Lemma cosineSparse_self_below_one :
  exists s,
    encodeSparseSignature
      [100; 1; 2; 3; 4; 5; 6; 7; 8; 9; 10; 11; 12; 13; 14; 15; 16; 17; 18; 19; 20]%float
      default_config = Ok s
    /\ idx s = [3158]
    /\ strict_eq (cosineSparse s s) 1%float = false
    /\ num_lt (cosineSparse s s) 1%float = true.
Proof.
  eexists. split; [vm_compute; reflexivity|].
  repeat split; vm_compute; reflexivity.
Qed.

(** ** Non-finite entries *)

(** C2 at a failing input.  The encoder does not throw on an infinite
    entry, but it does not replace it by [0] either: the entry becomes a
    [NaN] elevation, which passes the test [v === 0] and is placed, where
    the sanitized vector encodes to the empty signature. *)
Theorem encode_nonfinite_not_sanitized :
  elevation (robustZ [infinity; 1; 2; 3]%float) 0.95%float
    = [nan; (-0)%float; (-0)%float; 0%float]
  /\ encodeSparseSignature [infinity; 1; 2; 3]%float default_config
    = Ok {| idx := [3158]; val := [nan]; norm := nan |}
  /\ encodeSparseSignature [0; 1; 2; 3]%float default_config
    = Ok {| idx := []; val := []; norm := 0%float |}.
Proof. repeat split; vm_compute; reflexivity. Qed.

(** ** Collision resolution *)

Lemma strict_eq_not_gt (a b : float) : strict_eq a b = true -> num_gt a b = false.
Proof.
  unfold strict_eq, num_gt. rewrite FloatAxioms.eqb_spec, FloatAxioms.ltb_spec.
  unfold SFeqb, SFltb.
  destruct (SFcompare (Prim2SF a) (Prim2SF b)) as [[]|] eqn:Hc; try discriminate.
  intros _. now rewrite (SFcompare_antisym _ _ _ Hc).
Qed.

(** The loop body at a collision on both positions.  The incoming
    feature takes over the slot of [p1], its value replacing the
    incumbent's, exactly when its magnitude is strictly larger; otherwise
    it is dropped and nothing changes, in particular on equal
    magnitudes. *)
Lemma place_both_occupied (h : Hashing) (elev : list float) (s : slots)
    (orig : nat) (p1 p2 : Z) (ie : nat) :
  let v := at_num elev orig in
  strict_eq v 0%float = false ->
  default true (useDoubleHash h) = true ->
  blake2bIndex (Z.of_nat orig) (dim h) (default DEFAULT_SALT1 (salt1 h)) = Ok p1 ->
  blake2bIndex (Z.of_nat orig) (dim h) (default DEFAULT_SALT2 (salt2 h)) = Ok p2 ->
  taken s !! p1 = Some ie ->
  is_Some (taken s !! p2) ->
  let incumbent := at_num (vals s) ie in
  place h elev s orig
  = Ok (if num_gt (Math_abs v) (Math_abs incumbent)
        then {| pos := <[ie := p1]> (pos s);
                vals := <[ie := v]> (vals s);
                taken := taken s |}
        else s)
  /\ (strict_eq (Math_abs v) (Math_abs incumbent) = true ->
      place h elev s orig = Ok s).
Proof.
  intros v Hv Hdouble H1 H2 Ht1 Ht2 incumbent.
  assert (Hplace : place h elev s orig
                   = Ok (if num_gt (Math_abs v) (Math_abs incumbent)
                         then {| pos := <[ie := p1]> (pos s);
                                 vals := <[ie := v]> (vals s);
                                 taken := taken s |}
                         else s)).
  { unfold place. fold v. rewrite Hv, H1. simpl bind.
    rewrite bool_decide_eq_true_2 by (rewrite Ht1; eauto).
    rewrite Hdouble, H2. simpl bind.
    rewrite bool_decide_eq_true_2 by exact Ht2. simpl negb. cbv iota.
    unfold beats, claim. rewrite Ht1. fold incumbent.
    destruct (num_gt (Math_abs v) (Math_abs incumbent)); reflexivity. }
  split; [exact Hplace|].
  intros Htie. rewrite Hplace, (strict_eq_not_gt _ _ Htie). reflexivity.
Qed.

(** ** The detector: calibration *)

Lemma conformalQuantile_throws (scores : list float) (alpha : float) :
  throws (conformalQuantile scores alpha)
  <-> scores = [] \/ ~ alpha_in_unit alpha.
Proof.
  unfold conformalQuantile, alpha_in_unit.
  destruct (num_gt alpha 0) eqn:Hg, (num_lt alpha 1) eqn:Hl; simpl;
    try (split; [intros _; right; intros [? ?]; discriminate|trivial]).
  destruct scores as [|x l]; simpl.
  - split; [now left|trivial].
  - split; [contradiction|]. intros [?|Hn]; [discriminate|]. now apply Hn.
Qed.

Lemma conformalQuantile_ok_alpha scores alpha t :
  conformalQuantile scores alpha = Ok t -> alpha_in_unit alpha.
Proof.
  unfold conformalQuantile, alpha_in_unit.
  destruct (num_gt alpha 0), (num_lt alpha 1); simpl; try discriminate. auto.
Qed.

Lemma encode_throws_bad_config d x :
  d_k d <= 0 \/ dim (d_hashing d) <= 0 -> throws (encode d x).
Proof.
  unfold encode, encodeSparseSignature. simpl.
  destruct (Z.leb_spec (d_k d) 0); [reflexivity|].
  destruct (Z.leb_spec (dim (d_hashing d)) 0); [reflexivity|]. lia.
Qed.

Lemma encode_all_total d samples :
  0 < d_k d -> 0 < dim (d_hashing d) -> salts_ok (d_hashing d) ->
  exists sigs, encode_all d samples = Ok sigs /\ length sigs = length samples.
Proof.
  intros Hk HD Hs. induction samples as [|v rest (sigs & IH & Hlen)]; simpl.
  - now exists [].
  - destruct (encode_total v {| k := d_k d; hashing := d_hashing d;
                                clipQuantile := d_clip d |} Hk HD Hs) as [sv Hsv].
    unfold encode. rewrite Hsv. simpl bind. rewrite IH. simpl bind.
    exists (sv :: sigs). simpl. now rewrite Hlen.
Qed.

(** C7 (as the code has it).  With salts that are valid keys, [calibrate]
    throws exactly when the samples are empty, [alpha] fails the guard
    [0 < alpha < 1], or the detector's [k] or [hashing.dim] is not
    positive; otherwise it completes and returns the conformal quantile of
    the leave-one-out scores, a number, which it also stores as the
    threshold. *)
Theorem calibrate_throws_iff (d : USADetector) (samples : list (list float)) :
  salts_ok (d_hashing d) ->
  (throws (calibrate d samples)
   <-> samples = [] \/ ~ alpha_in_unit (d_alpha d)
       \/ d_k d <= 0 \/ dim (d_hashing d) <= 0)
  /\ (forall t d', calibrate d samples = Ok (t, d') ->
        conformalQuantile (calScores d') (d_alpha d) = Ok t
        /\ thr d' = t
        /\ length (calSigs d') = length samples
        /\ length (calScores d') = length samples
        /\ (Z.of_nat (length samples) < 2 ^ 32 -> exists v, t = Some v)).
Proof.
  intros Hs. unfold calibrate.
  destruct (Z.leb_spec (d_k d) 0) as [Hk|Hk];
    [|destruct (Z.leb_spec (dim (hashing {| k := d_k d; hashing := d_hashing d;
                                            clipQuantile := d_clip d |})) 0)
        as [HD|HD]; simpl in HD].
  - (* k is not positive *)
    destruct samples as [|v rest]; simpl.
    + split; [split; [intros _; now left|intros _; exact I]|intros ? ? [=]].
    + pose proof (encode_throws_bad_config d v (or_introl Hk)) as Ht.
      destruct (encode d v); [contradiction|]. simpl.
      split; [split; [intros _; right; right; now left|intros _; exact I]|intros ? ? [=]].
  - (* dim is not positive *)
    destruct samples as [|v rest]; simpl.
    + split; [split; [intros _; now left|intros _; exact I]|intros ? ? [=]].
    + pose proof (encode_throws_bad_config d v (or_intror HD)) as Ht.
      destruct (encode d v); [contradiction|]. simpl.
      split; [split; [intros _; right; right; now right|intros _; exact I]|intros ? ? [=]].
  - (* a valid configuration *)
    destruct (encode_all_total d samples Hk HD Hs) as (sigs & -> & Hlen). simpl bind.
    destruct (Nat.eqb_spec (length sigs) 0) as [E|E].
    + assert (samples = []) as -> by (destruct samples; [reflexivity|simpl in Hlen; lia]).
      split; [split; [intros _; now left|intros _; exact I]|intros ? ? [=]].
    + set (scores := imap (loo_score (d_kNN d) sigs) sigs).
      assert (Hsl : length scores = length sigs) by apply length_imap.
      pose proof (conformalQuantile_throws scores (d_alpha d)) as Hq.
      destruct (conformalQuantile scores (d_alpha d)) as [t|msg] eqn:Hcq; simpl.
      * split.
        -- split; [contradiction|].
           intros [->|[Ha|[?|?]]]; try lia; [simpl in Hlen; lia|].
           apply Hq. now right.
        -- intros t' d' [= <- <-]. simpl. repeat split; try assumption; try lia.
           intros Hbound.
           destruct (conformalQuantile_value scores (d_alpha d)) as (k0 & v & _ & _ & Hv).
           ++ lia.
           ++ lia.
           ++ eapply conformalQuantile_ok_alpha, Hcq.
           ++ rewrite Hv in Hcq. injection Hcq as <-. eauto.
      * split; [|intros ? ? [=]]. split; [|intros _; exact I]. intros _.
        destruct (proj1 Hq I) as [Hnil|Ha]; [|now right; left].
        rewrite Hnil in Hsl. simpl in Hsl. lia.
Qed.

Lemma calibrate_throws_iff_witness :
  let d := new_detector 4096 16 0.1%float 25 None
                        0.95%float in
  let samples := [[1; 2; 3]%float] in
  (throws (calibrate d samples)
   <-> samples = [] \/ ~ alpha_in_unit (d_alpha d)
       \/ d_k d <= 0 \/ dim (d_hashing d) <= 0)
  /\ (forall t d', calibrate d samples = Ok (t, d') ->
        conformalQuantile (calScores d') (d_alpha d) = Ok t
        /\ thr d' = t
        /\ length (calSigs d') = length samples
        /\ length (calScores d') = length samples
        /\ (Z.of_nat (length samples) < 2 ^ 32 -> exists v, t = Some v)).
Proof.
  apply (calibrate_throws_iff
           (new_detector 4096 16 0.1%float 25 None
                         0.95%float)
           [[1; 2; 3]%float]).
  split; vm_compute; lia.
Defined.

(** C7 as stated fails: a detector built with [k = 0] throws on a
    non-empty calibration set although [alpha = 0.1] is inside (0,1). *)
Lemma calibrate_throws_on_bad_k :
  let d := new_detector 4096 0 0.1%float 25 None
                        0.95%float in
  calibrate d [[1; 2; 3]%float] = Throw "k must be positive"
  /\ [[1; 2; 3]%float] <> []
  /\ alpha_in_unit (d_alpha d).
Proof.
  repeat split; try reflexivity. discriminate.
Qed.

(** ** The detector: online update *)

Lemma calibrate_ok_alpha d0 samples t d :
  calibrate d0 samples = Ok (t, d) -> alpha_in_unit (d_alpha d).
Proof.
  unfold calibrate. destruct (encode_all d0 samples) as [sigs|]; [|discriminate].
  simpl bind. destruct (length sigs =? 0)%nat; [discriminate|].
  destruct (conformalQuantile _ _) as [t'|] eqn:Hq; [|discriminate].
  simpl. intros [= <- <-]. simpl. eapply conformalQuantile_ok_alpha, Hq.
Qed.

Lemma updateIfNormal_alpha d x b d' :
  updateIfNormal d x = Ok (b, d') -> d_alpha d' = d_alpha d.
Proof.
  unfold updateIfNormal. destruct (predict d x) as [p|]; [|discriminate].
  simpl bind. destruct (isAnomaly p); [now intros [= <- <-]|].
  destruct (encode d x) as [sx|]; [|discriminate]. simpl bind.
  destruct (conformalQuantile _ _); [|discriminate]. simpl.
  now intros [= <- <-].
Qed.

Lemma calibrated_alpha d : calibrated d -> alpha_in_unit (d_alpha d).
Proof.
  induction 1 as [d0 samples t d Hc|d x b d' _ IH Hu].
  - eapply calibrate_ok_alpha, Hc.
  - now rewrite (updateIfNormal_alpha _ _ _ _ Hu).
Qed.

Lemma slice0_drop_last {A : Type} (l : list A) (x : A) :
  slice0 (l ++ [x]) (-1) = l.
Proof.
  unfold slice0. simpl (_ <? _). cbv iota.
  rewrite length_app. simpl length.
  replace (Z.to_nat (Z.of_nat (length l + 1) + -1)) with (length l) by lia.
  rewrite firstn_app, Nat.sub_diag, firstn_all. simpl. apply app_nil_r.
Qed.

(** C10.  On a calibrated detector, when [predict(x)] flags an anomaly,
    [updateIfNormal(x)] returns [false] and the detector is unchanged;
    otherwise it returns [true], appends the signature of [x] to the pool
    and one score (the prediction's score) to the score list, recomputes
    the threshold as the conformal quantile of the new score list, and
    leaves every other field as it was. *)
Theorem updateIfNormal_frame (d : USADetector) (x : list float) (p : Prediction) :
  calibrated d ->
  predict d x = Ok p ->
  (isAnomaly p = true -> updateIfNormal d x = Ok (false, d))
  /\ (isAnomaly p = false ->
      exists sx t,
        encode d x = Ok sx
        /\ conformalQuantile (calScores d ++ [score p]) (d_alpha d) = Ok t
        /\ updateIfNormal d x
           = Ok (true, {| d_hashing := d_hashing d; d_k := d_k d;
                          d_alpha := d_alpha d; d_kNN := d_kNN d;
                          d_clip := d_clip d;
                          calSigs := calSigs d ++ [sx];
                          calScores := calScores d ++ [score p];
                          thr := t |})).
Proof.
  intros Hcal Hp. split; intros Ha.
  - unfold updateIfNormal. rewrite Hp. simpl bind. now rewrite Ha.
  - pose proof (calibrated_alpha d Hcal) as Halpha.
    unfold updateIfNormal. rewrite Hp. simpl bind. rewrite Ha.
    unfold predict, nonconformity in Hp.
    destruct (Nat.eqb_spec (length (calSigs d)) 0) as [E|E]; [discriminate|].
    destruct (encode d x) as [sx|] eqn:Hsx; [|discriminate]. simpl bind in *.
    destruct (threshold d) as [t0|]; [|discriminate]. simpl in Hp.
    injection Hp as <-. simpl score.
    rewrite slice0_drop_last.
    rewrite sort_ascending_length, length_map.
    destruct (Nat.eqb_spec (length (calSigs d)) 0) as [E'|_]; [contradiction|].
    set (s := knn_mean _ _).
    pose proof (conformalQuantile_throws (calScores d ++ [s]) (d_alpha d)) as Hq.
    destruct (conformalQuantile (calScores d ++ [s]) (d_alpha d)) as [t|msg].
    + exists sx, t. simpl. auto.
    + exfalso. destruct (proj1 Hq I) as [Hnil|Hn]; [|contradiction].
      now destruct (calScores d).
Qed.

Lemma updateIfNormal_frame_witness :
  let d := demo_detector in
  let x := [1; 0; 0]%float in
  let p := demo_prediction x in
  (isAnomaly p = true -> updateIfNormal d x = Ok (false, d))
  /\ (isAnomaly p = false ->
      exists sx t,
        encode d x = Ok sx
        /\ conformalQuantile (calScores d ++ [score p]) (d_alpha d) = Ok t
        /\ updateIfNormal d x
           = Ok (true, {| d_hashing := d_hashing d; d_k := d_k d;
                          d_alpha := d_alpha d; d_kNN := d_kNN d;
                          d_clip := d_clip d;
                          calSigs := calSigs d ++ [sx];
                          calScores := calScores d ++ [score p];
                          thr := t |})).
Proof.
  apply (updateIfNormal_frame demo_detector [1; 0; 0]%float
           (demo_prediction [1; 0; 0]%float)).
  - apply (calibrated_by_calibrate
             (new_detector 4096 16 0.1%float 25 None 0%float)
             [[1; 0; 0]; [0; 1; 0]; [1; 0; 0; 0]]%float
             (Some 1%float)).
    vm_compute. reflexivity.
  - vm_compute. reflexivity.
Defined.

(** ** The multi-scale tracker *)

Lemma Obj_set_Forall {V : Type} (P : Z * V -> Prop) key v (o : Obj.obj V) :
  P (key, v) -> Forall P o -> Forall P (Obj.set key v o).
Proof.
  intros Hkv. induction 1 as [|[k' v'] o Hk Ho IH]; simpl.
  - now repeat constructor.
  - destruct (key =? k'); [now constructor|].
    destruct (key <? k'); constructor; try assumption. now constructor.
Qed.

Lemma Obj_set_keys_In {V : Type} key (v : V) (o : Obj.obj V) x :
  In x (Obj.keys (Obj.set key v o)) -> x = key \/ In x (Obj.keys o).
Proof.
  induction o as [|[k' v'] o IH]; simpl.
  - intros [<-|[]]. now left.
  - destruct (Z.eqb_spec key k') as [->|Hne]; simpl.
    + intros [<-|H]; auto.
    + destruct (key <? k'); simpl; intros [<-|H]; auto.
      destruct (IH H); auto.
Qed.

Lemma Obj_set_ascending {V : Type} key (v : V) (o : Obj.obj V) :
  keys_ascending o -> keys_ascending (Obj.set key v o).
Proof.
  unfold keys_ascending. induction o as [|[k' v'] o IH]; simpl; intros Hs.
  - repeat constructor.
  - apply StronglySorted_inv in Hs as [Hs Hhd].
    destruct (Z.eqb_spec key k') as [->|Hne]; simpl.
    + now constructor.
    + destruct (Z.ltb_spec key k') as [Hlt|Hge]; simpl.
      * constructor; [now constructor|]. constructor; [exact Hlt|].
        eapply List.Forall_impl; [|exact Hhd]. simpl. intros; lia.
      * constructor; [now apply IH|].
        apply List.Forall_forall. intros x Hx.
        apply Obj_set_keys_In in Hx as [->|Hx]; [lia|].
        rewrite List.Forall_forall in Hhd. now apply Hhd.
Qed.

Lemma new_tracker_rings scales knn :
  Forall (fun s => 0 <= s) scales ->
  Forall (fun e => RhSparse.buf (snd e) = [] /\ 0 <= RhSparse.cap (snd e))
         (RhSparse.hist (RhSparse.new_tracker scales knn))
  /\ keys_ascending (RhSparse.hist (RhSparse.new_tracker scales knn)).
Proof.
  intros Hs. unfold RhSparse.new_tracker. simpl.
  assert (H : forall acc : Obj.obj RhSparse.ring,
             Forall (fun e => RhSparse.buf (snd e) = [] /\ 0 <= RhSparse.cap (snd e)) acc ->
             keys_ascending acc ->
             let h := fold_left
                        (fun h s => Obj.set s {| RhSparse.buf := []; RhSparse.cap := s |} h)
                        scales acc in
             Forall (fun e => RhSparse.buf (snd e) = [] /\ 0 <= RhSparse.cap (snd e)) h
             /\ keys_ascending h).
  { induction Hs as [|s scales Hs0 Hs IH]; intros acc Hacc Hasc; simpl; [auto|].
    apply IH.
    - apply Obj_set_Forall; [simpl; auto|exact Hacc].
    - now apply Obj_set_ascending. }
  apply H; constructor.
Qed.

Lemma push_bounded q r :
  0 <= RhSparse.cap r ->
  Z.of_nat (length (RhSparse.buf r)) <= RhSparse.cap r ->
  Z.of_nat (length (RhSparse.buf (RhSparse.push q r))) <= RhSparse.cap r.
Proof.
  intros Hc Hb. unfold RhSparse.push. simpl.
  destruct (Z.ltb_spec (RhSparse.cap r) (Z.of_nat (length (RhSparse.buf r ++ [q])))) as [H|H].
  - rewrite length_app in H. simpl in H.
    destruct (RhSparse.buf r) as [|x l]; simpl in *; [lia|].
    rewrite length_app. simpl. lia.
  - exact H.
Qed.

Lemma update_rings t sig :
  RhSparse.hist (snd (RhSparse.update_and_score t sig))
  = map (fun '(s, r) => (s, RhSparse.push (RhSparse.sig_to_dict sig) r)) (RhSparse.hist t).
Proof. reflexivity. Qed.

Lemma update_bounded t sig :
  Forall (fun e => 0 <= RhSparse.cap (snd e)) (RhSparse.hist t) ->
  rings_bounded t ->
  Forall (fun e => 0 <= RhSparse.cap (snd e))
         (RhSparse.hist (snd (RhSparse.update_and_score t sig)))
  /\ rings_bounded (snd (RhSparse.update_and_score t sig)).
Proof.
  unfold rings_bounded. rewrite update_rings.
  induction (RhSparse.hist t) as [|[s r] h IH]; intros Hc Hb; simpl.
  - split; constructor.
  - inversion Hc; subst. inversion Hb; subst. simpl in *.
    destruct (IH ltac:(assumption) ltac:(assumption)) as [IH1 IH2].
    split; constructor; simpl; try assumption. now apply push_bounded.
Qed.

(** C9.  Starting from a new tracker whose scales are sizes, after any
    sequence of [update_and_score] calls no ring holds more entries than
    its capacity; each call appends the new entry to every ring and, when
    that exceeds the capacity, removes the first (oldest) entry. *)
Theorem rings_never_exceed_capacity (scales : list Z) (knn : Z)
    (sigs : list RhSparse.Signature) :
  Forall (fun s => 0 <= s) scales ->
  rings_bounded (run_tracker (RhSparse.new_tracker scales knn) sigs)
  /\ (forall t sig,
        RhSparse.hist (snd (RhSparse.update_and_score t sig))
        = map (fun '(s, r) => (s, RhSparse.push (RhSparse.sig_to_dict sig) r))
              (RhSparse.hist t))
  /\ (forall q r,
        RhSparse.cap (RhSparse.push q r) = RhSparse.cap r
        /\ (Z.of_nat (length (RhSparse.buf r)) + 1 <= RhSparse.cap r ->
            RhSparse.buf (RhSparse.push q r) = RhSparse.buf r ++ [q])
        /\ (RhSparse.cap r < Z.of_nat (length (RhSparse.buf r)) + 1 ->
            exists oldest,
              RhSparse.buf r ++ [q] = oldest :: RhSparse.buf (RhSparse.push q r))).
Proof.
  intros Hs. split; [|split].
  - destruct (new_tracker_rings scales knn Hs) as [Hinit _].
    assert (H0 : Forall (fun e => 0 <= RhSparse.cap (snd e))
                        (RhSparse.hist (RhSparse.new_tracker scales knn))).
    { eapply List.Forall_impl; [|exact Hinit]. simpl. tauto. }
    assert (Hb0 : rings_bounded (RhSparse.new_tracker scales knn)).
    { unfold rings_bounded. eapply List.Forall_impl; [|exact Hinit].
      simpl. intros e [-> ?]. simpl. assumption. }
    unfold run_tracker. clear Hinit Hs.
    generalize dependent (RhSparse.new_tracker scales knn).
    induction sigs as [|sig sigs IH]; intros t Hc Hb; simpl; [exact Hb|].
    destruct (update_bounded t sig Hc Hb) as [Hc' Hb'].
    now apply IH.
  - intros t sig. apply update_rings.
  - intros q r. unfold RhSparse.push. simpl. split; [reflexivity|].
    rewrite length_app. simpl length.
    split; intros H.
    + destruct (Z.ltb_spec (RhSparse.cap r) (Z.of_nat (length (RhSparse.buf r) + 1)));
        [lia|reflexivity].
    + destruct (Z.ltb_spec (RhSparse.cap r) (Z.of_nat (length (RhSparse.buf r) + 1)));
        [|lia].
      destruct (RhSparse.buf r) as [|x l]; simpl; eauto.
Qed.

Lemma rings_never_exceed_capacity_witness :
  let scales := [2; 1] in
  let sig1 := {| RhSparse.positions := [3; 7]; RhSparse.elevations := [1; 2]%float |} in
  let sig2 := {| RhSparse.positions := [3]; RhSparse.elevations := [1]%float |} in
  let sigs := [sig1; sig2; sig1] in
  rings_bounded (run_tracker (RhSparse.new_tracker scales 5) sigs)
  /\ (forall t sig,
        RhSparse.hist (snd (RhSparse.update_and_score t sig))
        = map (fun '(s, r) => (s, RhSparse.push (RhSparse.sig_to_dict sig) r))
              (RhSparse.hist t))
  /\ (forall q r,
        RhSparse.cap (RhSparse.push q r) = RhSparse.cap r
        /\ (Z.of_nat (length (RhSparse.buf r)) + 1 <= RhSparse.cap r ->
            RhSparse.buf (RhSparse.push q r) = RhSparse.buf r ++ [q])
        /\ (RhSparse.cap r < Z.of_nat (length (RhSparse.buf r)) + 1 ->
            exists oldest,
              RhSparse.buf r ++ [q] = oldest :: RhSparse.buf (RhSparse.push q r))).
Proof.
  apply (rings_never_exceed_capacity [2; 1] 5).
  repeat constructor; lia.
Defined.

(** ** The multi-scale tracker: scoring *)

(** Setting keys in ascending order appends at the end. *)
Lemma Obj_set_append {V : Type} key (v : V) (o : Obj.obj V) :
  Forall (fun k' => k' < key) (Obj.keys o) -> Obj.set key v o = o ++ [(key, v)].
Proof.
  induction o as [|[k' v'] o IH]; simpl; intros H; [reflexivity|].
  apply Forall_cons_1 in H as [Hk Ho].
  destruct (Z.eqb_spec key k'); [lia|].
  destruct (Z.ltb_spec key k'); [lia|].
  f_equal. now apply IH.
Qed.

Lemma fold_set_ascending {V W : Type} (f : V -> W) (h : Obj.obj V) :
  forall acc : Obj.obj W,
    keys_ascending h ->
    Forall (fun ka => Forall (fun kh => ka < kh) (Obj.keys h)) (Obj.keys acc) ->
    fold_left (fun per '(s, r) => Obj.set s (f r) per) h acc
    = acc ++ map (fun '(s, r) => (s, f r)) h.
Proof.
  unfold keys_ascending.
  induction h as [|[s r] h IH]; intros acc Hs Hacc; simpl.
  - now rewrite app_nil_r.
  - apply StronglySorted_inv in Hs as [Hs Hhd]. simpl in *.
    rewrite Obj_set_append.
    + rewrite IH; [now rewrite <- app_assoc|exact Hs|].
      unfold Obj.keys. rewrite map_app. apply Forall_app. split.
      * eapply List.Forall_impl; [|exact Hacc]. simpl.
        intros a Ha. now apply Forall_cons_1 in Ha as [_ Ha].
      * simpl. constructor; [exact Hhd|constructor].
    + eapply List.Forall_impl; [|exact Hacc]. simpl.
      intros a Ha. now apply Forall_cons_1 in Ha as [Ha _].
Qed.

Lemma update_keys t sig :
  Obj.keys (RhSparse.hist (snd (RhSparse.update_and_score t sig)))
  = Obj.keys (RhSparse.hist t).
Proof.
  simpl. unfold Obj.keys. rewrite map_map. apply map_ext. now intros [s r].
Qed.

Lemma run_tracker_shape sigs : forall t,
  Obj.keys (RhSparse.hist (run_tracker t sigs)) = Obj.keys (RhSparse.hist t)
  /\ RhSparse.knn_k (run_tracker t sigs) = RhSparse.knn_k t.
Proof.
  induction sigs as [|sig sigs IH]; intros t; [split; reflexivity|].
  change (run_tracker t (sig :: sigs))
    with (run_tracker (snd (RhSparse.update_and_score t sig)) sigs).
  destruct (IH (snd (RhSparse.update_and_score t sig))) as [H1 H2].
  rewrite H1, H2. split; [apply update_keys|reflexivity].
Qed.

Lemma Obj_set_nonempty {V : Type} key (v : V) (o : Obj.obj V) : Obj.set key v o <> [].
Proof.
  destruct o as [|[k0 v0] o]; simpl; [discriminate|].
  destruct (key =? k0); [discriminate|]. destruct (key <? k0); discriminate.
Qed.

Lemma fold_set_nonempty (scales : list Z) : forall acc : Obj.obj RhSparse.ring,
  acc <> [] ->
  fold_left (fun h s => Obj.set s {| RhSparse.buf := []; RhSparse.cap := s |} h)
            scales acc <> [].
Proof.
  induction scales as [|x sc IH]; intros acc Hacc; simpl; [exact Hacc|].
  apply IH, Obj_set_nonempty.
Qed.

Lemma new_tracker_nonempty scales knn :
  scales <> [] -> RhSparse.hist (RhSparse.new_tracker scales knn) <> [].
Proof.
  intros Hne. destruct scales as [|s0 scales]; [contradiction|].
  apply (fold_set_nonempty scales), Obj_set_nonempty.
Qed.

(** ** The KK kernel *)

Lemma to_set_elem (l : list Z) : forall seen x,
  x ∈ Obj.to_set l seen <-> x ∈ l /\ x ∉ seen.
Proof.
  induction l as [|y l IH]; intros seen x; simpl.
  - rewrite elem_of_nil. tauto.
  - destruct (bool_decide_reflect (y ∈ seen)) as [Hy|Hy].
    + rewrite IH, elem_of_cons. split; [tauto|].
      intros [[->|?] ?]; [contradiction|tauto].
    + rewrite !elem_of_cons, IH, elem_of_cons. split.
      * intros [->|[? ?]]; [tauto|]. split; [tauto|]. tauto.
      * intros [[->|?] ?]; [tauto|].
        destruct (decide (x = y)) as [->|Hne]; [tauto|]. right. tauto.
Qed.

Lemma to_set_NoDup (l : list Z) : forall seen, NoDup (Obj.to_set l seen).
Proof.
  induction l as [|y l IH]; intros seen; simpl; [constructor|].
  destruct (bool_decide (y ∈ seen)); [apply IH|].
  constructor; [|apply IH].
  rewrite to_set_elem, elem_of_cons. tauto.
Qed.

Lemma to_set_list_to_set (l : list Z) :
  (list_to_set (Obj.to_set l []) : gset Z) = list_to_set l.
Proof.
  apply set_eq. intros x. rewrite !elem_of_list_to_set, to_set_elem, elem_of_nil. tauto.
Qed.

Lemma count_hits (Xs A : list Z) : forall h0 : Z,
  fold_left (fun hit p => if bool_decide (p ∈ Xs) then hit + 1 else hit) A h0
  = h0 + Z.of_nat (length (filter (fun p => p ∈ Xs) A)).
Proof.
  induction A as [|p A IH]; intros h0; simpl; [lia|].
  rewrite IH, filter_cons.
  destruct (bool_decide_reflect (p ∈ Xs)) as [Hp|Hp];
    destruct (decide (p ∈ Xs)); try contradiction; simpl; lia.
Qed.

Lemma filter_size_intersection (A Xs : list Z) :
  NoDup A ->
  length (filter (fun p => p ∈ Xs) A)
  = size ((list_to_set A : gset Z) ∩ list_to_set Xs).
Proof.
  intros Hnd.
  rewrite <- (size_list_to_set (C := gset Z)) by now apply NoDup_filter.
  f_equal. apply set_eq. intros x.
  rewrite elem_of_intersection, !elem_of_list_to_set, list_elem_of_filter. tauto.
Qed.

Lemma anomalyOverlapFrac_spec (Q X : KK.Signature) (M : Z) :
  KK.anomalyOverlapFrac Q X M
  = Spec.overlap_frac (list_to_set (KK.anomalySet Q M)) (list_to_set (KK.positions X)).
Proof.
  unfold KK.anomalyOverlapFrac, Spec.overlap_frac.
  assert (Hnd : NoDup (KK.anomalySet Q M)) by apply to_set_NoDup.
  rewrite (size_list_to_set (C := gset Z)) by exact Hnd.
  destruct (length (KK.anomalySet Q M) =? 0)%nat; [reflexivity|].
  rewrite count_hits, (filter_size_intersection _ _ Hnd), to_set_list_to_set.
  reflexivity.
Qed.

Lemma anomalySet_top_positions (Q : KK.Signature) (M : Z) :
  0 <= M -> (list_to_set (KK.anomalySet Q M) : gset Z) = Spec.top_positions Q M.
Proof.
  intros HM. unfold KK.anomalySet, Spec.top_positions.
  rewrite to_set_list_to_set. f_equal. f_equal.
  set (sorted := sort_by _ _).
  unfold slice0.
  destruct (Z.ltb_spec (Z.min M (Z.of_nat (length sorted))) 0); [lia|].
  destruct (Z.le_gt_cases M (Z.of_nat (length sorted))) as [Hle|Hgt].
  - f_equal. lia.
  - rewrite !firstn_all2; [reflexivity| |]; lia.
Qed.

Example kkScore_example :
  let Q := {| KK.positions := [1; 5; 9];
              KK.elevations := [0.5; 0.75; 0.25]%float;
              KK.dimension := 16 |} in
  let X := {| KK.positions := [5; 9; 11];
              KK.elevations := [0.5; 0.5; 0.25]%float;
              KK.dimension := 16 |} in
  KK.anomalySet Q 2 = [5; 1]
  /\ KK.a (KK.kkScore Q X 0.5 0.5 2 c_1em12) = 0.5%float.
Proof. split; vm_compute; reflexivity. Qed.

(** ** The model on concrete inputs *)

(** The hashed positions of the first features under the default salts. *)
Example blake2bIndex_default_salts :
  blake2bIndex 0 4096 DEFAULT_SALT1 = Ok 3158
  /\ blake2bIndex 0 4096 DEFAULT_SALT2 = Ok 2793
  /\ blake2bIndex 1 4096 DEFAULT_SALT1 = Ok 1870
  /\ blake2bIndex 1 4096 DEFAULT_SALT2 = Ok 1735.
Proof. repeat split; vm_compute; reflexivity. Qed.

(** Median of an even and of an odd number of values, and of none. *)
Example median_examples :
  median [4; 1; 3; 2]%float = 2.5%float
  /\ median [5; 1; 3]%float = 3%float
  /\ PrimFloat.is_nan (median []) = true.
Proof. repeat split; vm_compute; reflexivity. Qed.

(** Scenario A of the specification: an all-zero vector of length 128
    encodes to the empty signature. *)
Example encode_all_zero :
  encodeSparseSignature (repeat 0%float 128) default_config
  = Ok {| idx := []; val := []; norm := 0%float |}.
Proof. vm_compute. reflexivity. Qed.

(** With dimension [1] every feature collides; of two features of equal
    magnitude the one with the lower index, which is placed first, stays. *)
Example encode_tie_keeps_first :
  let c := {| k := 16; hashing := default_hashing 1; clipQuantile := 0%float |} in
  (exists s, encodeSparseSignature [-1; 0; 1]%float c = Ok s
             /\ idx s = [0] /\ num_lt (nth 0 (val s) 0%float) 0%float = true)
  /\ (exists s, encodeSparseSignature [1; 0; -1]%float c = Ok s
                /\ idx s = [0] /\ num_gt (nth 0 (val s) 0%float) 0%float = true).
Proof.
  split; eexists; (split; [vm_compute; reflexivity|]); split; reflexivity.
Qed.

(** The threshold formula on 99 scores: the 90th smallest is returned. *)
Example conformalQuantile_99 :
  conformalQuantile (rev (map of_nat (seq 1 99))) 0.1%float = Ok (Some 90%float).
Proof. vm_compute. reflexivity. Qed.

(** The self-similarity is exactly [1] only when the norm absorbs [eps]. *)
Example cosineSparse_self_large_norm :
  let s := {| idx := [3158]; val := [674490759476.59521%float];
              norm := 674490759476.59521%float |} in
  cosineSparse s s = 1%float.
Proof. vm_compute. reflexivity. Qed.
(** * More of usad.js: the hash, the encoder, the cosine and the detector *)

(** ** The hash: shape of a digest *)

Lemma compress_length st piece isLast : length (st_h (compress st piece isLast)) = 8%nat.
Proof. reflexivity. Qed.

Lemma absorb_length blocks : forall st,
  length (st_h st) = 8%nat -> length (st_h (absorb st blocks)) = 8%nat.
Proof.
  induction blocks as [|piece rest IH]; intros st Hst; [exact Hst|].
  destruct rest as [|piece' rest']; [apply compress_length|].
  change (absorb st (piece :: piece' :: rest'))
    with (absorb (compress st piece false) (piece' :: rest')).
  apply IH, compress_length.
Qed.

Lemma bytes_of_word_bytes (w : Z) : Forall (fun b => 0 <= b < 256) (bytes_of_word w).
Proof.
  unfold bytes_of_word. apply List.Forall_forall. intros b Hb.
  apply in_map_iff in Hb as (j & <- & _).
  change 255 with (Z.ones 8). rewrite Z.land_ones by lia.
  apply Z.mod_pos_bound. reflexivity.
Qed.

Lemma flat_map_length_const {A B : Type} (f : A -> list B) (n : nat) (l : list A) :
  (forall x, length (f x) = n) -> length (flat_map f l) = (n * length l)%nat.
Proof.
  intros Hf. induction l as [|x l IH]; simpl; [lia|].
  rewrite length_app, Hf, IH. lia.
Qed.

(** X1.  [blake2b] throws exactly when [outlen] is outside [1..64] or the
    key is longer than one 128-byte block; otherwise the digest it returns
    has exactly [outlen] entries, each of them a byte. *)
Theorem blake2b_digest (input key : list Z) (outlen : Z) :
  (throws (blake2b input outlen key)
   <-> outlen <= 0 \/ 64 < outlen \/ (128 < length key)%nat)
  /\ (forall d, blake2b input outlen key = Ok d ->
        Z.of_nat (length d) = outlen /\ Forall (fun b => 0 <= b < 256) d).
Proof.
  unfold blake2b.
  destruct (Z.leb_spec outlen 0) as [H0|H0]; simpl orb.
  { split; [split; [intros _; now left|intros _; exact I]|discriminate]. }
  destruct (Z.ltb_spec 64 outlen) as [H64|H64]; cbv iota.
  { split; [split; [intros _; right; now left|intros _; exact I]|discriminate]. }
  destruct (Z.ltb_spec 128 (Z.of_nat (length key))) as [Hk|Hk].
  { split; [split; [intros _; right; right; lia|intros _; exact I]|discriminate]. }
  split.
  - split; [intros []|]. intros [?|[?|?]]; lia.
  - intros d [= <-]. split.
    + rewrite length_take, (flat_map_length_const _ 8).
      * rewrite absorb_length by reflexivity. lia.
      * intros w. reflexivity.
    + apply Forall_take, Forall_flat_map, List.Forall_forall.
      intros w _. apply bytes_of_word_bytes.
Qed.

(** ** The all-zero vector *)


Lemma all_zero_repeat n : all_zero (repeat 0%float n).
Proof. apply List.Forall_forall. intros x Hx. now apply repeat_spec in Hx. Qed.

Lemma all_zero_eq l : all_zero l -> l = repeat 0%float (length l).
Proof.
  induction 1 as [|x l -> _ IH]; simpl; [reflexivity|]. now rewrite <- IH.
Qed.

Lemma all_zero_sort l : all_zero l -> all_zero (sort_ascending l).
Proof.
  intros H. unfold all_zero.
  eapply Permutation_Forall; [symmetry; apply sort_by_perm|exact H].
Qed.

Lemma all_zero_at l i : all_zero l -> (i < length l)%nat -> at_num l i = 0%float.
Proof.
  intros H Hi. unfold at_num. unfold all_zero in H. rewrite List.Forall_forall in H.
  apply H, nth_In, Hi.
Qed.

Lemma median_zeros l : all_zero l -> l <> [] -> median l = 0%float.
Proof.
  intros H Hne. unfold median.
  pose proof (all_zero_sort _ H) as Hs.
  pose proof (sort_ascending_length l) as Hlen.
  assert (Hpos : (0 < length l)%nat) by (destruct l; [congruence|simpl; lia]).
  destruct (Nat.odd _) eqn:Hodd.
  - apply all_zero_at; [exact Hs|]. rewrite Hlen.
    apply Nat.Div0.div_lt_upper_bound. lia.
  - destruct (Nat.eqb_spec (length (sort_ascending l)) 0) as [E|E]; [lia|].
    rewrite !all_zero_at; try exact Hs.
    + reflexivity.
    + rewrite Hlen. pose proof (Nat.Div0.div_le_upper_bound (length l) 2 (length l)). lia.
    + rewrite Hlen. apply Nat.Div0.div_lt_upper_bound. lia.
Qed.

Lemma robustZ_zeros l : all_zero l -> all_zero (robustZ l).
Proof.
  intros H. destruct l as [|x l]; [constructor|].
  unfold robustZ. set (v := x :: l) in *.
  assert (Hne : v <> []) by discriminate.
  rewrite (median_zeros v H Hne).
  assert (Hdev : all_zero (map (fun xi => Math_abs (xi - 0)) v)).
  { apply List.Forall_forall. intros y Hy. apply in_map_iff in Hy as (z & <- & Hz).
    unfold all_zero in H. rewrite List.Forall_forall in H. rewrite (H z Hz). reflexivity. }
  rewrite (median_zeros _ Hdev) by (subst v; discriminate).
  apply List.Forall_forall. intros y Hy. apply in_map_iff in Hy as (z & <- & Hz).
  unfold all_zero in H. rewrite List.Forall_forall in H. rewrite (H z Hz). reflexivity.
Qed.

Lemma clip_input_not_nan (n : nat) (clip : float) :
  Z.of_nat n < 2 ^ 32 ->
  num_gt clip 0%float = true -> num_lt clip 1%float = true ->
  Prim2SF (of_nat n * clip)%float <> S754_nan.
Proof.
  intros Hn Hpos Hlt.
  destruct (guard_finite clip Hpos Hlt) as (ma & ea & Ha).
  destruct (Nat.eq_dec n 0%nat) as [->|Hn0].
  - rewrite FloatAxioms.mul_spec, Ha.
    replace (Prim2SF (of_nat 0)) with (S754_zero false) by (vm_compute; reflexivity).
    discriminate.
  - destruct (of_Z_finite (Z.of_nat n)) as (mn & en & Hx).
    { split; [lia|]. apply Z.lt_trans with (2 ^ 32); [lia|reflexivity]. }
    eapply mul_finite_not_nan; [exact Hx|]. rewrite Ha. discriminate.
Qed.

Lemma clamp_index_in_range (n : nat) (x : integral) :
  (1 <= n)%nat -> x <> INaN ->
  exists k : nat, imax 0 (imin (Z.of_nat n - 1) (isub1 x)) = IFin (Z.of_nat k)
                  /\ (k < n)%nat.
Proof.
  intros Hn Hx. destruct x as [| | |z]; [congruence| | |]; simpl.
  - exists 0%nat. split; [reflexivity|lia].
  - exists (n - 1)%nat. split; [f_equal|]; lia.
  - exists (Z.to_nat (Z.max 0 (Z.min (Z.of_nat n - 1) (z - 1)))).
    split; [f_equal|]; lia.
Qed.

Lemma Math_ceil_not_nan (x : float) : Prim2SF x <> S754_nan -> Math_ceil x <> INaN.
Proof.
  unfold Math_ceil. destruct (Prim2SF x) as [s|[]| |s m e]; congruence.
Qed.

Lemma elevation_zeros z clip :
  Z.of_nat (length z) < 2 ^ 32 -> all_zero z -> all_zero (elevation z clip).
Proof.
  intros Hlen H. unfold elevation.
  destruct (num_gt clip 0) eqn:Hg; [|exact H].
  destruct (num_lt clip 1) eqn:Hl; [|exact H].
  simpl andb. cbv iota.
  destruct z as [|x z']; [constructor|]. set (z := x :: z') in *.
  assert (Habs : all_zero (map Math_abs z)).
  { apply List.Forall_forall. intros y Hy. apply in_map_iff in Hy as (w & <- & Hw).
    unfold all_zero in H. rewrite List.Forall_forall in H. now rewrite (H w Hw). }
  pose proof (all_zero_sort _ Habs) as Hs.
  assert (Hsl : length (sort_ascending (map Math_abs z)) = length z)
    by now rewrite sort_ascending_length, length_map.
  assert (Hq : default NaN (index (sort_ascending (map Math_abs z))
                 (imax 0 (imin (Z.of_nat (length (sort_ascending (map Math_abs z))) - 1)
                    (isub1 (Math_ceil (of_nat (length (sort_ascending (map Math_abs z))) * clip)%float)))))
               = 0%float).
  { rewrite Hsl.
    pose proof (clip_input_not_nan (length z) clip Hlen Hg Hl) as Hnan.
    destruct (clamp_index_in_range (length z) (Math_ceil (of_nat (length z) * clip)%float))
      as (k & Hk1 & Hk); [subst z; simpl; lia|now apply Math_ceil_not_nan|].
    rewrite Hk1. unfold index.
    destruct (Z.leb_spec 0 (Z.of_nat k)); [|lia]. rewrite Nat2Z.id.
    destruct (lookup_lt_is_Some_2 (sort_ascending (map Math_abs z)) k) as [v Hv];
      [lia|].
    rewrite Hv. simpl. unfold all_zero in Hs. rewrite List.Forall_forall in Hs.
    apply Hs. eapply list_elem_of_In, list_elem_of_lookup_2, Hv. }
  rewrite Hq.
  apply List.Forall_forall. intros y Hy. apply in_map_iff in Hy as (w & <- & Hw).
  unfold all_zero in H. rewrite List.Forall_forall in H. rewrite (H w Hw). reflexivity.
Qed.

Lemma place_all_zeros h elev idxs : forall s,
  all_zero elev -> Forall (fun i => (i < length elev)%nat) idxs ->
  place_all h elev s idxs = Ok s.
Proof.
  induction idxs as [|i idxs IH]; intros s Hz Hi; [reflexivity|].
  inversion Hi as [|? ? Hi1 Hi2]; subst. simpl.
  unfold place at 1. rewrite (all_zero_at _ _ Hz Hi1). simpl. now apply IH.
Qed.

Lemma ranked_in_range elev kk :
  Forall (fun i => (i < length elev)%nat) (ranked elev kk).
Proof.
  unfold ranked.
  set (srt := sort_by _ _).
  assert (Hs : Forall (fun i => (i < length elev)%nat) srt).
  { eapply Permutation_Forall; [symmetry; apply sort_by_perm|].
    apply List.Forall_forall. intros i Hi. apply in_seq in Hi. lia. }
  destruct (kk <? _); [|exact Hs].
  unfold slice0. destruct (kk <? 0); now apply Forall_take.
Qed.

(** X2.  For a valid configuration ([k > 0], [hashing.dim > 0]) the
    all-zero vector of any length, the empty vector included, encodes to
    the empty signature [{ idx: [], val: [], norm: 0 }]: every robust
    z-score and every elevation is [0], and a zero elevation is skipped. *)
Theorem encode_zero_vector (n : nat) (c : Config) :
  Z.of_nat n < 2 ^ 32 -> 0 < k c -> 0 < dim (hashing c) ->
  encodeSparseSignature (repeat 0%float n) c
  = Ok {| idx := []; val := []; norm := 0%float |}.
Proof.
  intros Hn Hk HD. unfold encodeSparseSignature.
  destruct (Z.leb_spec (k c) 0); [lia|].
  destruct (Z.leb_spec (dim (hashing c)) 0); [lia|].
  pose proof (robustZ_zeros _ (all_zero_repeat n)) as Hz.
  assert (Hzl : length (robustZ (repeat 0%float n)) = n).
  { unfold robustZ. now rewrite length_map, repeat_length. }
  pose proof (elevation_zeros _ (clipQuantile c) ltac:(now rewrite Hzl) Hz) as He.
  rewrite (place_all_zeros _ _ _ empty_slots He (ranked_in_range _ _)).
  reflexivity.
Qed.

Lemma encode_zero_vector_witness :
  encodeSparseSignature (repeat 0%float 5) default_config
  = Ok {| idx := []; val := []; norm := 0%float |}.
Proof. apply (encode_zero_vector 5 default_config); reflexivity. Defined.

(** ** No zero is stored *)


Lemma claim_nonzero s chosen v :
  slots_nonzero s -> nonzero v -> slots_nonzero (claim s chosen v).
Proof.
  intros [Hlen Hnz] Hv. unfold claim.
  destruct (taken s !! chosen) as [i|]; split; simpl.
  - now rewrite !length_insert.
  - now apply Forall_insert.
  - rewrite !length_app. simpl. lia.
  - apply Forall_app. split; [exact Hnz|]. now constructor.
Qed.

Lemma place_nonzero h elev s orig s' :
  slots_nonzero s -> place h elev s orig = Ok s' -> slots_nonzero s'.
Proof.
  intros Hs. unfold place.
  destruct (strict_eq (at_num elev orig) 0) eqn:Hv; [now intros [= <-]|].
  destruct (blake2bIndex _ _ (default DEFAULT_SALT1 _)) as [p1|]; [|discriminate].
  simpl bind.
  repeat match goal with
         | |- context [if ?b then _ else _] => destruct b
         | |- context [bind ?r _] => destruct r; simpl bind
         | |- Ok _ = Ok _ -> _ => intros [= <-]
         | |- Throw _ = Ok _ -> _ => discriminate
         end; try assumption; now apply claim_nonzero.
Qed.

Lemma place_all_nonzero h elev idxs : forall s s',
  slots_nonzero s -> place_all h elev s idxs = Ok s' -> slots_nonzero s'.
Proof.
  induction idxs as [|i idxs IH]; intros s s' Hs; simpl.
  - now intros [= <-].
  - destruct (place h elev s i) as [s1|] eqn:Hp; [|discriminate]. simpl.
    apply IH. eapply place_nonzero; eauto.
Qed.

Lemma finish_nonzero s : slots_nonzero s -> Forall nonzero (val (finish s)).
Proof.
  intros [Hlen Hnz]. unfold finish.
  destruct (length (pos s) =? 0)%nat; simpl; [constructor|].
  apply List.Forall_forall. intros v Hv. apply in_map_iff in Hv as (i & <- & Hi).
  apply (Permutation_in _ (sort_by_perm _ _)), in_seq in Hi.
  rewrite List.Forall_forall in Hnz. apply Hnz. unfold at_num. apply nth_In. lia.
Qed.

(** X3.  A signature returned by [encodeSparseSignature] stores no zero:
    no entry of [val] is [=== 0] (the placement loop skips such
    elevations, and an overwrite stores a value that was not skipped). *)
Theorem encodeSparseSignature_no_zero (vec : list float) (c : Config) (s : SparseSignature) :
  encodeSparseSignature vec c = Ok s ->
  Forall (fun v => strict_eq v 0%float = false) (val s).
Proof.
  unfold encodeSparseSignature.
  destruct (k c <=? 0); [discriminate|].
  destruct (dim (hashing c) <=? 0); [discriminate|].
  destruct (place_all _ _ _ _) as [sl|] eqn:Hp; [|discriminate].
  simpl. intros [= <-]. apply finish_nonzero.
  eapply place_all_nonzero; [|exact Hp]. split; [reflexivity|constructor].
Qed.

Lemma encodeSparseSignature_no_zero_witness :
  Forall (fun v => strict_eq v 0%float = false)
         [(-674490759476.59521)%float; 674490759476.59521%float].
Proof.
  apply (encodeSparseSignature_no_zero [0; 1; 0; 0; 0; -1; 0]%float
           {| k := 4; hashing := default_hashing 64; clipQuantile := 0%float |}
           {| idx := [12; 14];
              val := [(-674490759476.59521)%float; 674490759476.59521%float];
              norm := 953873979747.13013%float |}).
  vm_compute. reflexivity.
Defined.

(** ** The order on numbers is transitive *)

Lemma SFleb_trans (x y z : spec_float) :
  SFleb x y = true -> SFleb y z = true -> SFleb x z = true.
Proof.
  unfold SFleb.
  destruct x as [sx|sx| |sx mx ex], y as [sy|sy| |sy my ey], z as [sz|sz| |sz mz ez];
    simpl; try discriminate; try reflexivity;
    try (destruct sx; try discriminate; try reflexivity);
    try (destruct sy; try discriminate; try reflexivity);
    try (destruct sz; try discriminate; try reflexivity);
    change (Pos.compare_cont Eq mx my) with (Pos.compare mx my);
    change (Pos.compare_cont Eq my mz) with (Pos.compare my mz);
    change (Pos.compare_cont Eq mx mz) with (Pos.compare mx mz);
    destruct (Z.compare_spec ex ey), (Z.compare_spec ey ez), (Z.compare_spec ex ez);
    try lia; simpl; try discriminate; try reflexivity;
    destruct (Pos.compare_spec mx my), (Pos.compare_spec my mz),
             (Pos.compare_spec mx mz);
    try lia; simpl; try discriminate; try reflexivity.
Qed.

Lemma le_num_trans (x y z : float) : le_num x y -> le_num y z -> le_num x z.
Proof.
  unfold le_num. rewrite !FloatAxioms.leb_spec. apply SFleb_trans.
Qed.

Lemma sort_ascending_strongly (l : list float) :
  Forall not_nan l -> StronglySorted le_num (sort_ascending l).
Proof.
  intros H. apply Sorted_StronglySorted.
  - intros x y z. apply le_num_trans.
  - now apply sort_ascending_sorted.
Qed.

Lemma le_num_refl (x : float) : not_nan x -> le_num x x.
Proof.
  intros Hx. apply not_lt_le; try exact Hx.
  rewrite FloatAxioms.ltb_spec. unfold SFltb.
  unfold not_nan, PrimFloat.is_nan in Hx. rewrite FloatAxioms.eqb_spec in Hx.
  unfold SFeqb in Hx. destruct (SFcompare _ _) as [[]|]; simpl in *; congruence.
Qed.

Section SortedLists.
Context {A : Type}.
Variable R : A -> A -> Prop.

Lemma StronglySorted_lookup (l : list A) : forall i j x y,
  StronglySorted R l -> (i < j)%nat -> l !! i = Some x -> l !! j = Some y -> R x y.
Proof.
  induction l as [|a l IH]; intros i j x y Hs Hij Hi Hj; [discriminate|].
  apply StronglySorted_inv in Hs as [Hs Ha].
  destruct j as [|j]; [lia|]. simpl in Hj.
  destruct i as [|i]; simpl in Hi.
  - injection Hi as ->. rewrite List.Forall_forall in Ha.
    apply Ha. eapply list_elem_of_In, list_elem_of_lookup_2, Hj.
  - apply (IH i j); try assumption. lia.
Qed.

Lemma filter_length_perm (f : A -> bool) (l l' : list A) :
  Permutation l l' -> length (List.filter f l) = length (List.filter f l').
Proof.
  induction 1 as [|x l l' _ IH|x y l|l l' l'' _ IH1 _ IH2]; simpl.
  - reflexivity.
  - destruct (f x); simpl; now rewrite IH.
  - destruct (f x), (f y); reflexivity.
  - now rewrite IH1.
Qed.

Lemma filter_length_all (f : A -> bool) (l : list A) :
  Forall (fun x => f x = true) l -> length (List.filter f l) = length l.
Proof.
  induction 1 as [|x l Hx _ IH]; simpl; [reflexivity|]. rewrite Hx. simpl. now rewrite IH.
Qed.

Lemma filter_length_take (f : A -> bool) (l : list A) (n : nat) :
  (length (List.filter f (take n l)) <= length (List.filter f l))%nat.
Proof.
  rewrite <- (take_drop n l) at 2. rewrite List.filter_app, length_app. lia.
Qed.

Lemma filter_length_drop (f : A -> bool) (l : list A) (n : nat) :
  (length (List.filter f (drop n l)) <= length (List.filter f l))%nat.
Proof.
  rewrite <- (take_drop n l) at 2. rewrite List.filter_app, length_app. lia.
Qed.
End SortedLists.

(** X8.  On scores without [NaN], the value [conformalQuantile] returns
    is the order statistic of its rank [r]: it is one of the scores, at
    least [r + 1] scores are [<=] it and at least [n - r] scores are [>=]
    it. *)
Theorem conformalQuantile_order_statistic (scores : list float) (alpha : float) :
  (1 <= length scores)%nat -> Z.of_nat (length scores) < 2 ^ 32 ->
  alpha_in_unit alpha -> Forall not_nan scores ->
  exists (k : nat) (v : float),
    quantile_rank (length scores) alpha = IFin (Z.of_nat k)
    /\ conformalQuantile scores alpha = Ok (Some v)
    /\ In v scores
    /\ (k + 1 <= length (List.filter (fun s => PrimFloat.leb s v) scores))%nat
    /\ (length scores - k <= length (List.filter (fun s => PrimFloat.leb v s) scores))%nat.
Proof.
  intros Hn Hlen Ha Hnn.
  destruct (conformalQuantile_value scores alpha Hn Hlen Ha) as (k & v & Hk & Hv & Hq).
  pose proof (sort_ascending_strongly scores Hnn) as Hs.
  pose proof (sort_by_perm (fun a b => num_gt (a - b)%float 0%float) scores) as Hperm.
  fold (sort_ascending scores) in Hperm.
  assert (Hin : In v scores).
  { apply (Permutation_in _ Hperm). eapply list_elem_of_In, list_elem_of_lookup_2, Hv. }
  assert (Hvn : not_nan v).
  { rewrite List.Forall_forall in Hnn. now apply Hnn. }
  assert (Hkn : (k < length (sort_ascending scores))%nat) by now apply lookup_lt_Some in Hv.
  exists k, v. repeat split; try assumption.
  - rewrite <- (filter_length_perm _ _ _ Hperm).
    etransitivity; [|apply (filter_length_take _ _ (k + 1))].
    rewrite filter_length_all; [rewrite length_take; lia|].
    apply List.Forall_forall. intros x Hx.
    apply list_elem_of_In, elem_of_take in Hx as (i & Hi & Hik).
    destruct (decide (i = k)) as [->|Hne].
    + rewrite Hv in Hi. injection Hi as <-. now apply le_num_refl.
    + apply (StronglySorted_lookup le_num _ i k x v Hs); [lia|assumption..].
  - rewrite <- (filter_length_perm _ _ _ Hperm).
    etransitivity; [|apply (filter_length_drop _ _ k)].
    rewrite filter_length_all.
    + rewrite length_drop, sort_ascending_length. lia.
    + apply List.Forall_forall. intros x Hx.
      apply list_elem_of_In, list_elem_of_lookup_1 in Hx as (i & Hi).
      rewrite lookup_drop in Hi.
      destruct i as [|i].
      * rewrite Nat.add_0_r, Hv in Hi. injection Hi as <-. now apply le_num_refl.
      * apply (StronglySorted_lookup le_num _ k (k + S i) v x Hs); [lia|assumption..].
Qed.

Lemma conformalQuantile_order_statistic_witness :
  exists (k : nat) (v : float),
    quantile_rank 3 0.5%float = IFin (Z.of_nat k)
    /\ conformalQuantile [3; 1; 2]%float 0.5%float = Ok (Some v)
    /\ In v [3; 1; 2]%float
    /\ (k + 1 <= length (List.filter (fun s => PrimFloat.leb s v) [3; 1; 2]%float))%nat
    /\ (3 - k <= length (List.filter (fun s => PrimFloat.leb v s) [3; 1; 2]%float))%nat.
Proof.
  apply (conformalQuantile_order_statistic [3; 1; 2]%float 0.5%float).
  - simpl. lia.
  - reflexivity.
  - split; reflexivity.
  - repeat constructor.
Defined.

(** ** Sorting by a key, largest first *)

Section SortDescending.
Context {A : Type}.
Variable key : A -> float.

Lemma sort_desc_strongly (l : list A) :
  Forall (fun x => not_nan (key x)) l ->
  StronglySorted (fun x y => le_num (key y) (key x))
    (sort_by (fun x y => num_gt (key y - key x)%float 0%float) l).
Proof.
  intros H. apply Sorted_StronglySorted.
  - intros x y z Hxy Hyz. eapply le_num_trans; eassumption.
  - apply (sort_by_sorted _ _ (fun x => not_nan (key x))); [| |exact H];
      intros x y Hx Hy; rewrite sub_positive_iff_lt.
    + apply lt_le.
    + now apply not_lt_le.
Qed.

(** The first [n] elements of the sorted list dominate the others. *)
Lemma sort_desc_take (l : list A) (n : nat) x y :
  Forall (fun x => not_nan (key x)) l ->
  let sorted := sort_by (fun x y => num_gt (key y - key x)%float 0%float) l in
  x ∈ take n sorted -> y ∈ drop n sorted -> le_num (key y) (key x).
Proof.
  intros H sorted Hx Hy. pose proof (sort_desc_strongly l H) as Hs. fold sorted in Hs.
  apply elem_of_take in Hx as (i & Hi & Hin).
  apply list_elem_of_lookup_1 in Hy as (j & Hj). rewrite lookup_drop in Hj.
  apply (StronglySorted_lookup (fun x y => le_num (key y) (key x)) sorted i (n + j) x y Hs);
    [lia|assumption..].
Qed.
End SortDescending.

Lemma abs_not_nan (x : float) : not_nan x -> not_nan (Math_abs x).
Proof.
  unfold not_nan, Math_abs, PrimFloat.is_nan.
  rewrite !FloatAxioms.eqb_spec, FloatAxioms.abs_spec.
  destruct (Prim2SF x) as [s|s| |s m e]; simpl; try destruct s; auto;
    intros _; unfold SFeqb; simpl; now rewrite Z.compare_refl, Pos.compare_cont_refl.
Qed.

Lemma at_num_not_nan (l : list float) (i : nat) :
  Forall not_nan l -> (i < length l)%nat -> not_nan (at_num l i).
Proof.
  intros H Hi. rewrite List.Forall_forall in H. apply H, nth_In, Hi.
Qed.

(** X4.  The features that enter the placement loop are the [k] of
    largest magnitude: for elevations without [NaN], the list of kept
    indices has no repetition, holds [min(k, n)] indices of the vector, and
    every kept index has an elevation at least as large in absolute value
    as every index that was not kept. *)
Theorem ranked_top_k (elev : list float) (kk : Z) :
  0 < kk -> Forall not_nan elev ->
  NoDup (ranked elev kk)
  /\ Z.of_nat (length (ranked elev kk)) = Z.min kk (Z.of_nat (length elev))
  /\ (forall i, In i (ranked elev kk) -> (i < length elev)%nat)
  /\ (forall i j, In i (ranked elev kk) -> (j < length elev)%nat ->
        ~ In j (ranked elev kk) ->
        le_num (Math_abs (at_num elev j)) (Math_abs (at_num elev i))).
Proof.
  intros Hk Hnn. unfold ranked.
  set (key := fun i : nat => Math_abs (at_num elev i)).
  set (idxs := sort_by _ (seq 0 (length elev))).
  assert (Hperm : Permutation idxs (seq 0 (length elev))) by apply sort_by_perm.
  assert (Hnd : NoDup idxs).
  { rewrite Hperm. apply NoDup_ListNoDup, seq_NoDup. }
  assert (Hlen : length idxs = length elev).
  { rewrite (Permutation_length Hperm). apply length_seq. }
  assert (Hkey : Forall (fun i => not_nan (key i)) (seq 0 (length elev))).
  { apply List.Forall_forall. intros i Hi. apply in_seq in Hi.
    apply abs_not_nan, at_num_not_nan; [exact Hnn|lia]. }
  assert (Hrange : forall i, In i idxs -> (i < length elev)%nat).
  { intros i Hi. apply (Permutation_in _ Hperm), in_seq in Hi. lia. }
  destruct (Z.ltb_spec kk (Z.of_nat (length elev))) as [Hlt|Hge].
  - unfold slice0. destruct (Z.ltb_spec kk 0); [lia|].
    repeat split.
    + eapply sublist_NoDup; [exact Hnd|apply sublist_take].
    + rewrite length_take. lia.
    + intros i Hi. apply Hrange. apply list_elem_of_In in Hi.
      apply elem_of_take in Hi as (a & Ha & _).
      eapply list_elem_of_In, list_elem_of_lookup_2, Ha.
    + intros i j Hi Hj Hnj.
      apply (sort_desc_take key (seq 0 (length elev)) (Z.to_nat kk) i j Hkey).
      * now apply list_elem_of_In.
      * assert (Hjin : j ∈ idxs).
        { apply list_elem_of_In, (Permutation_in _ (Permutation_sym Hperm)), in_seq. lia. }
        fold idxs. rewrite <- (take_drop (Z.to_nat kk) idxs) in Hjin.
        apply elem_of_app in Hjin as [Hj1|Hj2]; [|exact Hj2].
        exfalso. apply Hnj. now apply list_elem_of_In.
  - repeat split.
    + exact Hnd.
    + lia.
    + exact Hrange.
    + intros i j _ Hj Hnj. exfalso. apply Hnj.
      apply (Permutation_in _ (Permutation_sym Hperm)), in_seq. lia.
Qed.

Lemma ranked_top_k_witness :
  let elev := [0.5; -3; 2; 0]%float in
  NoDup (ranked elev 2)
  /\ Z.of_nat (length (ranked elev 2)) = Z.min 2 (Z.of_nat (length elev))
  /\ (forall i, In i (ranked elev 2) -> (i < length elev)%nat)
  /\ (forall i j, In i (ranked elev 2) -> (j < length elev)%nat ->
        ~ In j (ranked elev 2) ->
        le_num (Math_abs (at_num elev j)) (Math_abs (at_num elev i))).
Proof.
  apply (ranked_top_k [0.5; -3; 2; 0]%float 2).
  - lia.
  - repeat constructor.
Defined.

(** ** Symmetry of the sparse cosine *)

Lemma float_mul_comm (x y : float) : (x * y = y * x)%float.
Proof.
  apply Prim2SF_inj. rewrite !FloatAxioms.mul_spec.
  destruct (Prim2SF x) as [sx|sx| |sx mx ex], (Prim2SF y) as [sy|sy| |sy my ey];
    simpl; try reflexivity; try (now rewrite xorb_comm).
  now rewrite xorb_comm, Pos.mul_comm, Z.add_comm.
Qed.

Lemma merge_dot_cons pa va a' pb vb b' dot :
  merge_dot ((pa, va) :: a') ((pb, vb) :: b') dot
  = if pa =? pb then merge_dot a' b' (dot + va * vb)%float
    else if pa <? pb then merge_dot a' ((pb, vb) :: b') dot
    else merge_dot ((pa, va) :: a') b' dot.
Proof. reflexivity. Qed.

Lemma merge_dot_nil_r a dot : merge_dot a [] dot = dot.
Proof. destruct a as [|[pa va] a']; reflexivity. Qed.

Lemma merge_dot_comm (n : nat) : forall a b dot,
  (length a + length b <= n)%nat -> merge_dot a b dot = merge_dot b a dot.
Proof.
  induction n as [|n IH]; intros a b dot Hn.
  - destruct a, b; simpl in Hn; try lia. reflexivity.
  - destruct a as [|[pa va] a']; [now rewrite merge_dot_nil_r|].
    destruct b as [|[pb vb] b']; [now rewrite merge_dot_nil_r|].
    rewrite !merge_dot_cons. simpl in Hn.
    destruct (Z.eqb_spec pa pb) as [E|E].
    + subst pb. rewrite Z.eqb_refl, (float_mul_comm vb va). apply IH. lia.
    + destruct (Z.eqb_spec pb pa) as [E'|_]; [congruence|].
      destruct (Z.ltb_spec pa pb) as [L|L], (Z.ltb_spec pb pa) as [L'|L']; try lia.
      * apply IH. simpl. lia.
      * apply IH. simpl. lia.
Qed.

(** X5.  [cosineSparse] and [distanceSparse] are symmetric in their two
    signatures, whatever the signatures hold. *)
Theorem cosineSparse_symmetric (a b : SparseSignature) :
  cosineSparse a b = cosineSparse b a
  /\ distanceSparse a b = distanceSparse b a.
Proof.
  assert (H : cosineSparse a b = cosineSparse b a).
  { unfold cosineSparse.
    rewrite (merge_dot_comm _ (entries a) (entries b) _ (Nat.le_refl _)).
    now rewrite (float_mul_comm (norm a + c_1em12) (norm b + c_1em12)). }
  split; [exact H|]. unfold distanceSparse. now rewrite H.
Qed.

(** ** The empty signature *)

Lemma zero_div_positive (d : float) :
  num_gt d 0%float = true -> (0 / d)%float = 0%float.
Proof.
  unfold num_gt. rewrite FloatAxioms.ltb_spec. intros Hd.
  apply Prim2SF_inj. rewrite FloatAxioms.div_spec.
  assert (H0 : Prim2SF 0 = S754_zero false) by (vm_compute; reflexivity).
  rewrite H0 in *.
  destruct (Prim2SF d) as [s|s| |s m e]; try discriminate Hd;
    destruct s; try discriminate Hd; reflexivity.
Qed.

(** X6.  A signature without positions has cosine [0] and distance [1] to
    every signature, on either side, whatever the norms are. *)
Theorem cosineSparse_empty (a b : SparseSignature) :
  idx a = [] ->
  cosineSparse a b = 0%float /\ cosineSparse b a = 0%float
  /\ distanceSparse a b = 1%float /\ distanceSparse b a = 1%float.
Proof.
  intros Ha.
  assert (H1 : cosineSparse a b = 0%float).
  { unfold cosineSparse, entries. rewrite Ha. simpl.
    destruct (num_gt _ _) eqn:Hd; [|reflexivity]. now apply zero_div_positive. }
  assert (H2 : cosineSparse b a = 0%float).
  { unfold cosineSparse, entries. rewrite Ha. simpl. rewrite merge_dot_nil_r.
    destruct (num_gt _ _) eqn:Hd; [|reflexivity]. now apply zero_div_positive. }
  unfold distanceSparse. rewrite H1, H2. repeat split; reflexivity.
Qed.

Lemma cosineSparse_empty_witness :
  let a := {| idx := []; val := []; norm := 0%float |} in
  let b := {| idx := [3; 7]; val := [1; 2]%float; norm := 2.2360679774997898%float |} in
  cosineSparse a b = 0%float /\ cosineSparse b a = 0%float
  /\ distanceSparse a b = 1%float /\ distanceSparse b a = 1%float.
Proof.
  apply (cosineSparse_empty
           {| idx := []; val := []; norm := 0%float |}
           {| idx := [3; 7]; val := [1; 2]%float; norm := 2.2360679774997898%float |}).
  reflexivity.
Defined.

(** X7.  [conformalQuantile] throws exactly when [alpha] fails
    [0 < alpha < 1] or there is no score, the test on [alpha] coming first;
    when it returns, the result is one of the scores. *)
Theorem conformalQuantile_member (scores : list float) (alpha : float) :
  Z.of_nat (length scores) < 2 ^ 32 ->
  (throws (conformalQuantile scores alpha)
   <-> ~ alpha_in_unit alpha \/ scores = [])
  /\ (conformalQuantile [] alpha
      = if num_gt alpha 0%float && num_lt alpha 1%float
        then Throw "need calibration scores" else Throw "alpha must be in (0,1)")
  /\ (forall t, conformalQuantile scores alpha = Ok t ->
        exists v, t = Some v /\ In v scores).
Proof.
  intros Hlen. split; [|split].
  - rewrite conformalQuantile_throws. tauto.
  - unfold conformalQuantile. destruct (num_gt alpha 0%float); destruct (num_lt alpha 1%float); reflexivity.
  - intros t Ht.
    pose proof (conformalQuantile_ok_alpha _ _ _ Ht) as Ha.
    destruct scores as [|x l] eqn:E.
    { unfold conformalQuantile in Ht. destruct Ha as [Hg Hl]. rewrite Hg, Hl in Ht. discriminate Ht. }
    rewrite <- E in *.
    destruct (conformalQuantile_value scores alpha) as (k & v & _ & Hv & Hq);
      [subst scores; simpl; lia|exact Hlen|exact Ha|].
    rewrite Hq in Ht. injection Ht as <-. exists v. split; [reflexivity|].
    eapply Permutation_in; [apply sort_by_perm|].
    eapply list_elem_of_In, list_elem_of_lookup_2, Hv.
Qed.

Lemma conformalQuantile_member_witness :
  (throws (conformalQuantile [3; 1; 2]%float 0.5%float)
   <-> ~ alpha_in_unit 0.5%float \/ [3; 1; 2]%float = [])
  /\ (conformalQuantile [] 0.5%float
      = if num_gt 0.5%float 0%float && num_lt 0.5%float 1%float
        then Throw "need calibration scores" else Throw "alpha must be in (0,1)")
  /\ (forall t, conformalQuantile [3; 1; 2]%float 0.5%float = Ok t ->
        exists v, t = Some v /\ In v [3; 1; 2]%float).
Proof. apply (conformalQuantile_member [3; 1; 2]%float 0.5%float). reflexivity. Defined.

(** ** Invariants of a calibrated detector *)

Lemma encode_ok_config d x s :
  encode d x = Ok s -> 0 < d_k d /\ 0 < dim (d_hashing d).
Proof.
  unfold encode, encodeSparseSignature. simpl.
  destruct (Z.leb_spec (d_k d) 0); [discriminate|].
  destruct (Z.leb_spec (dim (d_hashing d)) 0); [discriminate|]. lia.
Qed.

Lemma encode_all_length d samples sigs :
  encode_all d samples = Ok sigs -> length sigs = length samples.
Proof.
  revert sigs. induction samples as [|v rest IH]; intros sigs; simpl.
  - now intros [= <-].
  - destruct (encode d v) as [sv|]; [|discriminate]. simpl bind.
    destruct (encode_all d rest) as [sr|]; [|discriminate]. simpl.
    intros [= <-]. simpl. now rewrite (IH sr).
Qed.

Lemma encode_all_ok_config d v rest sigs :
  encode_all d (v :: rest) = Ok sigs -> 0 < d_k d /\ 0 < dim (d_hashing d).
Proof.
  simpl. destruct (encode d v) as [sv|] eqn:Hv; [|discriminate].
  intros _. eapply encode_ok_config, Hv.
Qed.

Lemma calibrated_facts (d : USADetector) :
  calibrated d ->
  length (calSigs d) = length (calScores d)
  /\ (1 <= length (calSigs d))%nat
  /\ conformalQuantile (calScores d) (d_alpha d) = Ok (thr d)
  /\ 0 < d_k d /\ 0 < dim (d_hashing d).
Proof.
  induction 1 as [d0 samples t d Hc|d x b d' _ IH Hu].
  - unfold calibrate in Hc.
    destruct (encode_all d0 samples) as [sigs|] eqn:He; [|discriminate].
    simpl bind in Hc.
    destruct (Nat.eqb_spec (length sigs) 0) as [E|E]; [discriminate|].
    destruct (conformalQuantile _ _) as [t'|] eqn:Hq; [|discriminate].
    simpl in Hc. injection Hc as <- <-. simpl.
    pose proof (encode_all_length _ _ _ He) as Hl.
    destruct samples as [|v rest]; [simpl in Hl; lia|].
    destruct (encode_all_ok_config _ _ _ _ He) as [Hk HD].
    repeat split; try assumption; try lia. now rewrite length_imap.
  - destruct IH as (Hl & Hn & Hq & Hk & HD).
    unfold updateIfNormal in Hu.
    destruct (predict d x) as [p|]; [|discriminate]. simpl bind in Hu.
    destruct (isAnomaly p).
    + injection Hu as <- <-. repeat split; assumption.
    + destruct (encode d x) as [sx|]; [|discriminate]. simpl bind in Hu.
      destruct (conformalQuantile _ _) as [t'|] eqn:Hq'; [|discriminate].
      simpl in Hu. injection Hu as <- <-. simpl.
      rewrite !length_app. simpl. repeat split; try assumption; lia.
Qed.

(** X9.  After a successful [calibrate], and after any number of
    successful [updateIfNormal] calls, the detector holds as many scores
    as signatures, at least one of each, its threshold is the conformal
    quantile of its current scores, and its [k] and [hashing.dim] are
    positive. *)
Theorem calibrated_invariant (d : USADetector) :
  calibrated d ->
  length (calSigs d) = length (calScores d)
  /\ (1 <= length (calSigs d))%nat
  /\ conformalQuantile (calScores d) (d_alpha d) = Ok (thr d)
  /\ 0 < d_k d /\ 0 < dim (d_hashing d).
Proof. exact (calibrated_facts d). Qed.

Lemma calibrated_invariant_witness :
  length (calSigs demo_detector) = length (calScores demo_detector)
  /\ (1 <= length (calSigs demo_detector))%nat
  /\ conformalQuantile (calScores demo_detector) (d_alpha demo_detector)
     = Ok (thr demo_detector)
  /\ 0 < d_k demo_detector /\ 0 < dim (d_hashing demo_detector).
Proof.
  apply (calibrated_invariant demo_detector).
  apply (calibrated_by_calibrate
           (new_detector 4096 16 0.1%float 25 None 0%float)
           [[1; 0; 0]; [0; 1; 0]; [1; 0; 0; 0]]%float
           (Some 1%float)).
  vm_compute. reflexivity.
Defined.

Lemma updateIfNormal_hashing d x b d' :
  updateIfNormal d x = Ok (b, d') -> d_hashing d' = d_hashing d.
Proof.
  unfold updateIfNormal. destruct (predict d x) as [p|]; [|discriminate].
  simpl bind. destruct (isAnomaly p); [now intros [= <- <-]|].
  destruct (encode d x) as [sx|]; [|discriminate]. simpl bind.
  destruct (conformalQuantile _ _); [|discriminate]. simpl.
  now intros [= <- <-].
Qed.

(** X10.  A calibrated detector (with salts that are valid keys) answers
    every query: [encode] and [threshold] return, [nonconformity] returns
    the mean of the [kNN] smallest distances to the pool, [predict] returns
    that score, the stored threshold and their comparison, and
    [updateIfNormal] does not throw. *)
Theorem predict_total (d : USADetector) (x : list float) :
  calibrated d -> salts_ok (d_hashing d) ->
  Z.of_nat (length (calScores d)) < 2 ^ 32 ->
  exists sx t,
    encode d x = Ok sx
    /\ thr d = Some t
    /\ threshold d = Ok t
    /\ nonconformity d x
       = Ok (knn_mean (d_kNN d) (sort_ascending (map (distanceSparse sx) (calSigs d))))
    /\ (forall s, nonconformity d x = Ok s ->
          predict d x = Ok {| isAnomaly := num_gt s t; score := s; p_threshold := t |})
    /\ ~ throws (updateIfNormal d x).
Proof.
  intros Hcal Hs Hlen.
  destruct (calibrated_facts d Hcal) as (Hl & Hn & Hq & Hk & HD).
  destruct (encode_total x {| k := d_k d; hashing := d_hashing d; clipQuantile := d_clip d |}
              Hk HD Hs) as [sx Hsx].
  destruct (conformalQuantile_value (calScores d) (d_alpha d)) as (k0 & t & _ & _ & Hv);
    [lia|exact Hlen|now apply calibrated_alpha|].
  rewrite Hq in Hv. injection Hv as Ht.
  assert (Hnc : nonconformity d x
       = Ok (knn_mean (d_kNN d) (sort_ascending (map (distanceSparse sx) (calSigs d))))).
  { unfold nonconformity.
    destruct (Nat.eqb_spec (length (calSigs d)) 0) as [E|_]; [lia|].
    unfold encode. rewrite Hsx. reflexivity. }
  assert (Hth : threshold d = Ok t) by (unfold threshold; now rewrite Ht).
  exists sx, t. repeat split; try assumption.
  - intros s Hsc. unfold predict. rewrite Hsc, Hth. reflexivity.
  - unfold updateIfNormal, predict. rewrite Hnc, Hth. simpl bind.
    destruct (num_gt _ t); [intros []|].
    unfold encode. rewrite Hsx. simpl bind.
    match goal with |- context [conformalQuantile ?sc ?a] =>
      pose proof (conformalQuantile_throws sc a) as Hq';
      destruct (conformalQuantile sc a) as [t'|msg] end; [intros []|].
    intros _. destruct (proj1 Hq' I) as [Hnil|Ha].
    + now destruct (calScores d).
    + apply Ha. now apply calibrated_alpha.
Qed.

Lemma predict_total_witness :
  let d := demo_detector in
  let x := [1; 0; 0]%float in
  exists sx t,
    encode d x = Ok sx
    /\ thr d = Some t
    /\ threshold d = Ok t
    /\ nonconformity d x
       = Ok (knn_mean (d_kNN d) (sort_ascending (map (distanceSparse sx) (calSigs d))))
    /\ (forall s, nonconformity d x = Ok s ->
          predict d x = Ok {| isAnomaly := num_gt s t; score := s; p_threshold := t |})
    /\ ~ throws (updateIfNormal d x).
Proof.
  apply (predict_total demo_detector [1; 0; 0]%float).
  - apply (calibrated_by_calibrate
             (new_detector 4096 16 0.1%float 25 None 0%float)
             [[1; 0; 0]; [0; 1; 0]; [1; 0; 0; 0]]%float
             (Some 1%float)).
    vm_compute. reflexivity.
  - split; vm_compute; lia.
  - vm_compute. reflexivity.
Defined.

(** X11.  Calibrating on a single vector gives the pool of that one
    signature, the single score [0] (there is no other member to take a
    distance to) and the threshold [0]. *)
Theorem calibrate_single (d : USADetector) (x : list float) :
  salts_ok (d_hashing d) -> 0 < d_k d -> 0 < dim (d_hashing d) ->
  alpha_in_unit (d_alpha d) ->
  exists sx,
    encode d x = Ok sx
    /\ calibrate d [x]
       = Ok (Some 0%float,
             {| d_hashing := d_hashing d; d_k := d_k d; d_alpha := d_alpha d;
                d_kNN := d_kNN d; d_clip := d_clip d;
                calSigs := [sx]; calScores := [0%float]; thr := Some 0%float |}).
Proof.
  intros Hs Hk HD Ha.
  destruct (encode_total x {| k := d_k d; hashing := d_hashing d; clipQuantile := d_clip d |}
              Hk HD Hs) as [sx Hsx].
  exists sx. split; [exact Hsx|].
  unfold calibrate. simpl encode_all. unfold encode. rewrite Hsx. simpl bind.
  simpl imap. unfold loo_score at 1. simpl.
  destruct (conformalQuantile_value [0%float] (d_alpha d)) as (k0 & v & _ & Hv & Hq);
    [simpl; lia|reflexivity|exact Ha|].
  rewrite Hq. simpl.
  destruct k0 as [|k0]; simpl in Hv; [|discriminate Hv].
  injection Hv as <-. reflexivity.
Qed.

Lemma calibrate_single_witness :
  let d := new_detector 4096 16 0.1%float 25 None 0.95%float in
  exists sx,
    encode d [1; 5; 2]%float = Ok sx
    /\ calibrate d [[1; 5; 2]%float]
       = Ok (Some 0%float,
             {| d_hashing := d_hashing d; d_k := d_k d; d_alpha := d_alpha d;
                d_kNN := d_kNN d; d_clip := d_clip d;
                calSigs := [sx]; calScores := [0%float]; thr := Some 0%float |}).
Proof.
  apply (calibrate_single (new_detector 4096 16 0.1%float 25 None 0.95%float)
           [1; 5; 2]%float).
  - split; vm_compute; lia.
  - reflexivity.
  - reflexivity.
  - split; reflexivity.
Defined.

(** ** A detector with [kNN = 0] *)

Lemma not_gt_nan (t : float) : num_gt NaN t = false.
Proof.
  unfold num_gt. rewrite FloatAxioms.ltb_spec.
  replace (Prim2SF NaN) with S754_nan by (vm_compute; reflexivity).
  destruct (Prim2SF t) as [s|s| |s m e]; try destruct s; reflexivity.
Qed.

Lemma knn_mean_0 dists : knn_mean 0 dists = NaN.
Proof.
  unfold knn_mean. rewrite Z.min_l by lia. reflexivity.
Qed.

(** X12.  With [kNN = 0] the score is [0 / 0]: every prediction that
    returns has a [NaN] score and does not flag an anomaly. *)
Theorem predict_kNN_zero (d : USADetector) (x : list float) (p : Prediction) :
  d_kNN d = 0 -> predict d x = Ok p ->
  PrimFloat.is_nan (score p) = true /\ isAnomaly p = false.
Proof.
  intros H0. unfold predict, nonconformity.
  destruct (length (calSigs d) =? 0)%nat; [discriminate|].
  destruct (encode d x) as [sx|]; [|discriminate]. simpl bind.
  destruct (threshold d) as [t|]; [|discriminate]. simpl.
  intros [= <-]. simpl. rewrite H0, knn_mean_0. split; [reflexivity|apply not_gt_nan].
Qed.

Lemma predict_kNN_zero_witness :
  PrimFloat.is_nan NaN = true /\ false = false.
Proof.
  apply (predict_kNN_zero
           {| d_hashing := default_hashing 64; d_k := 4; d_alpha := 0.5%float;
              d_kNN := 0; d_clip := 0%float;
              calSigs := [{| idx := [3]; val := [1%float]; norm := 1%float |}];
              calScores := [0%float]; thr := Some 0%float |}
           [0; 1; 0]%float
           {| isAnomaly := false; score := NaN; p_threshold := 0%float |}).
  - reflexivity.
  - vm_compute. reflexivity.
Defined.

(** * More of kk-kernel.js: dictionaries, queries, injection, spikes and fusion *)

(** ** Position dictionaries *)

Lemma Obj_get_set_eq {V : Type} key (v : V) (o : Obj.obj V) :
  Obj.get (Obj.set key v o) key = Some v.
Proof.
  induction o as [|[k' v'] o IH]; simpl.
  - now rewrite Z.eqb_refl.
  - destruct (Z.eqb_spec key k') as [->|Hne]; simpl.
    + now rewrite Z.eqb_refl.
    + destruct (key <? k'); simpl.
      * now rewrite Z.eqb_refl.
      * destruct (Z.eqb_spec key k'); [contradiction|exact IH].
Qed.

Lemma Obj_get_set_ne {V : Type} key key' (v : V) (o : Obj.obj V) :
  key <> key' -> Obj.get (Obj.set key v o) key' = Obj.get o key'.
Proof.
  intros Hne. induction o as [|[k' v'] o IH]; simpl.
  - destruct (Z.eqb_spec key' key); [congruence|reflexivity].
  - destruct (Z.eqb_spec key k') as [->|Hne']; simpl.
    + destruct (Z.eqb_spec key' k'); [congruence|reflexivity].
    + destruct (key <? k'); simpl.
      * destruct (Z.eqb_spec key' key); [congruence|reflexivity].
      * destruct (key' =? k'); [reflexivity|exact IH].
Qed.

(** Dictionaries built from a position array, whatever the values. *)
Section DictFold.
Variable f : nat -> option float.

Lemma dict_fold_snoc (ps : list Z) (p : Z) :
  dict_fold f (ps ++ [p]) = Obj.set p (f (length ps)) (dict_fold f ps).
Proof.
  unfold dict_fold. rewrite imap_app, fold_left_app. simpl. now rewrite Nat.add_0_r.
Qed.

Lemma dict_fold_absent (ps : list Z) (p : Z) :
  p ∉ ps -> Obj.get (dict_fold f ps) p = None.
Proof.
  induction ps as [|x ps IH] using rev_ind; intros Hp; [reflexivity|].
  rewrite dict_fold_snoc. rewrite elem_of_app, list_elem_of_singleton in Hp.
  rewrite Obj_get_set_ne by (intros ->; tauto). apply IH. tauto.
Qed.

Lemma dict_fold_last (ps : list Z) (i : nat) (p : Z) :
  ps !! i = Some p -> (forall j, (i < j)%nat -> ps !! j <> Some p) ->
  Obj.get (dict_fold f ps) p = Some (f i).
Proof.
  revert i. induction ps as [|x ps IH] using rev_ind; intros i Hi Hlast;
    [discriminate|].
  rewrite dict_fold_snoc.
  destruct (decide (i = length ps)) as [->|Hne].
  - rewrite lookup_app_r, Nat.sub_diag in Hi by lia. injection Hi as ->.
    apply Obj_get_set_eq.
  - assert (Hlt : (i < length ps)%nat).
    { apply lookup_lt_Some in Hi. rewrite length_app in Hi. simpl in Hi. lia. }
    rewrite lookup_app_l in Hi by exact Hlt.
    assert (Hx : x <> p).
    { intros ->. apply (Hlast (length ps) Hlt).
      now rewrite lookup_app_r, Nat.sub_diag by lia. }
    rewrite Obj_get_set_ne by exact Hx.
    apply (IH i Hi). intros j Hj Hpj. apply (Hlast j Hj).
    rewrite lookup_app_l; [exact Hpj|]. now apply lookup_lt_Some in Hpj.
Qed.
End DictFold.


Lemma to_dict_fold (ps : list Z) (es : list float) :
  Obj.to_dict ps es = dict_fold (fun i => es !! i) ps.
Proof. reflexivity. Qed.

Lemma to_dict_snoc (ps : list Z) (p : Z) (es : list float) :
  Obj.to_dict (ps ++ [p]) es = Obj.set p (es !! length ps) (Obj.to_dict ps es).
Proof. rewrite !to_dict_fold. apply dict_fold_snoc. Qed.

Lemma to_dict_read_absent (ps : list Z) (es : list float) (p : Z) :
  p ∉ ps -> Obj.get (Obj.to_dict ps es) p = None.
Proof. rewrite to_dict_fold. apply dict_fold_absent. Qed.

Lemma to_dict_read_last (ps : list Z) (es : list float) (i : nat) (p : Z) :
  ps !! i = Some p -> (forall j, (i < j)%nat -> ps !! j <> Some p) ->
  Obj.get (Obj.to_dict ps es) p = Some (es !! i).
Proof. rewrite to_dict_fold. apply (dict_fold_last (fun i => es !! i)). Qed.

Lemma to_dict_keys (ps : list Z) (es : list float) (p : Z) :
  In p (Obj.keys (Obj.to_dict ps es)) <-> p ∈ ps.
Proof.
  induction ps as [|x ps IH] using rev_ind.
  - simpl. rewrite elem_of_nil. tauto.
  - rewrite to_dict_snoc, elem_of_app, list_elem_of_singleton, <- IH.
    generalize (Obj.to_dict ps es) (es !! length ps). intros o v. clear.
    induction o as [|[k' v'] o IHo]; simpl.
    + split; [intros [<-|[]]; now right|intros [[]| ->]; now left].
    + destruct (Z.eqb_spec x k') as [->|Hne]; simpl; [intuition congruence|].
      destruct (x <? k'); simpl; intuition congruence.
Qed.

Lemma to_dict_facts (positions : list Z) (elevations : list float) (p : Z) :
  (p ∉ positions -> Obj.read (Obj.to_dict positions elevations) p = None)
  /\ (forall i, positions !! i = Some p ->
        (forall j, (i < j)%nat -> positions !! j <> Some p) ->
        Obj.read (Obj.to_dict positions elevations) p = elevations !! i)
  /\ (In p (Obj.keys (Obj.to_dict positions elevations)) <-> p ∈ positions).
Proof.
  unfold Obj.read. repeat split.
  - intros Hp. now rewrite to_dict_read_absent.
  - intros i Hi Hlast. now rewrite (to_dict_read_last _ _ i).
  - apply to_dict_keys.
  - apply to_dict_keys.
Qed.

(** X13.  [MultiScaleAnomaly.to_dict] and the kernel's [dict] map each
    position to the elevation at its last occurrence in [positions]
    ([undefined] if [elevations] is too short), have no entry for any other
    key, and have exactly the positions as keys. *)
Theorem to_dict_read (sig : RhSparse.Signature) (Q : KK.Signature) (p : Z) :
  let d := RhSparse.sig_to_dict sig in
  let Qd := KK.dict_of Q in
  ((p ∉ RhSparse.positions sig -> Obj.read d p = None)
   /\ (forall i, RhSparse.positions sig !! i = Some p ->
         (forall j, (i < j)%nat -> RhSparse.positions sig !! j <> Some p) ->
         Obj.read d p = RhSparse.elevations sig !! i)
   /\ (In p (Obj.keys d) <-> p ∈ RhSparse.positions sig))
  /\ ((p ∉ KK.positions Q -> Obj.read Qd p = None)
      /\ (forall i, KK.positions Q !! i = Some p ->
            (forall j, (i < j)%nat -> KK.positions Q !! j <> Some p) ->
            Obj.read Qd p = KK.elevations Q !! i)
      /\ (In p (Obj.keys Qd) <-> p ∈ KK.positions Q)).
Proof. split; apply to_dict_facts. Qed.

(** ** The base cosine on disjoint supports *)

Lemma baseCosine_dot_disjoint (Xd Qd : Obj.dict) (ps : list Z) :
  (forall p, p ∈ ps -> Obj.read Xd p = None) ->
  fold_left (fun dot p => match Obj.read Xd p with
                          | Some x => (dot + Obj.to_num (Obj.read Qd p) * x)%float
                          | None => dot
                          end) ps 0%float = 0%float.
Proof.
  induction ps as [|p ps IH]; intros H; simpl; [reflexivity|].
  rewrite (H p) by apply list_elem_of_here.
  apply IH. intros p' Hp'. apply H. now apply list_elem_of_further.
Qed.

(** X14.  [baseCosine] is exactly [0] when no position of [Q] is a
    position of [X]. *)
Theorem baseCosine_disjoint (Q X : KK.Signature) (eps : float) :
  (forall p, p ∈ KK.positions Q -> p ∉ KK.positions X) ->
  KK.baseCosine Q X eps = 0%float.
Proof.
  intros Hd. unfold KK.baseCosine. rewrite baseCosine_dot_disjoint; [reflexivity|].
  intros p Hp. unfold Obj.read, KK.dict_of.
  now rewrite to_dict_read_absent by now apply Hd.
Qed.

Lemma baseCosine_disjoint_witness :
  KK.baseCosine {| KK.positions := [1; 5]; KK.elevations := [0.5; 0.25]%float;
                   KK.dimension := 8 |}
                {| KK.positions := [2; 6]; KK.elevations := [0.5; 0.75]%float;
                   KK.dimension := 8 |} c_1em12 = 0%float.
Proof.
  apply (baseCosine_disjoint
           {| KK.positions := [1; 5]; KK.elevations := [0.5; 0.25]%float;
              KK.dimension := 8 |}
           {| KK.positions := [2; 6]; KK.elevations := [0.5; 0.75]%float;
              KK.dimension := 8 |} c_1em12).
  intros p Hp. simpl in *. rewrite !elem_of_cons, elem_of_nil in *. lia.
Defined.

(** ** The anomaly set *)

Lemma slice0_length_le {A : Type} (l : list A) (k : Z) :
  0 <= k -> Z.of_nat (length (slice0 l k)) <= k.
Proof.
  intros Hk. unfold slice0. destruct (Z.ltb_spec k 0); [lia|].
  rewrite length_take. lia.
Qed.

Lemma slice0_incl {A : Type} (l : list A) (k : Z) x : In x (slice0 l k) -> In x l.
Proof.
  unfold slice0. destruct (k <? 0); intros H;
    apply list_elem_of_In, elem_of_take in H as (i & Hi & _);
    eapply list_elem_of_In, list_elem_of_lookup_2, Hi.
Qed.

Lemma to_set_length (l : list Z) : forall seen,
  (length (Obj.to_set l seen) <= length l)%nat.
Proof.
  induction l as [|x l IH]; intros seen; simpl; [lia|].
  destruct (bool_decide (x ∈ seen)); simpl; [specialize (IH seen)|specialize (IH (x :: seen))]; lia.
Qed.

Lemma imap_fst_positions (ps : list Z) (es : list float) :
  map fst (imap (fun i p => (p, es !! i)) ps) = ps.
Proof.
  revert es. induction ps as [|p ps IH] using rev_ind; intros es; [reflexivity|].
  rewrite imap_app, map_app, IH. reflexivity.
Qed.

(** X15.  For [M >= 0], [anomalySet(Q, M)] has no repetition, holds only
    positions of [Q], at most [M] of them, and all of them when [Q] has at
    most [M] positions. *)
Theorem anomalySet_bounds (Q : KK.Signature) (M : Z) :
  0 <= M ->
  NoDup (KK.anomalySet Q M)
  /\ (forall p, p ∈ KK.anomalySet Q M -> p ∈ KK.positions Q)
  /\ Z.of_nat (length (KK.anomalySet Q M)) <= M
  /\ (length (KK.anomalySet Q M) <= length (KK.positions Q))%nat
  /\ (Z.of_nat (length (KK.positions Q)) <= M ->
      forall p, p ∈ KK.positions Q -> p ∈ KK.anomalySet Q M).
Proof.
  intros HM. unfold KK.anomalySet.
  set (pairs := imap (fun i p => (p, KK.elevations Q !! i)) (KK.positions Q)).
  set (sorted := sort_by _ pairs).
  assert (Hperm : Permutation sorted pairs) by apply sort_by_perm.
  assert (Hlen : length sorted = length (KK.positions Q)).
  { unfold sorted. rewrite sort_by_length. unfold pairs. apply length_imap. }
  assert (Hfst : Permutation (map fst sorted) (KK.positions Q)).
  { rewrite <- (imap_fst_positions (KK.positions Q) (KK.elevations Q)).
    now apply Permutation_map. }
  set (kk := Z.min M (Z.of_nat (length sorted))).
  assert (Hk : 0 <= kk) by (unfold kk; lia).
  repeat split.
  - apply to_set_NoDup.
  - intros p Hp. apply to_set_elem in Hp as [Hp _].
    apply list_elem_of_In, in_map_iff in Hp as (e & <- & He).
    apply slice0_incl in He.
    apply list_elem_of_In. apply (Permutation_in _ Hfst). now apply in_map.
  - etransitivity; [apply Nat2Z.inj_le, to_set_length|].
    rewrite length_map. etransitivity; [apply slice0_length_le, Hk|]. unfold kk. lia.
  - etransitivity; [apply to_set_length|]. rewrite length_map.
    unfold slice0. destruct (kk <? 0); rewrite length_take; lia.
  - intros Hall p Hp. apply to_set_elem. split; [|apply not_elem_of_nil].
    assert (Hsl : slice0 sorted kk = sorted).
    { unfold slice0. destruct (Z.ltb_spec kk 0); [lia|].
      apply firstn_all2. unfold kk. lia. }
    rewrite Hsl. apply list_elem_of_In. apply (Permutation_in _ (Permutation_sym Hfst)).
    now apply list_elem_of_In.
Qed.

Lemma anomalySet_bounds_witness :
  let Q := {| KK.positions := [1; 5; 7]; KK.elevations := [0.5; 0.25; 0.75]%float;
              KK.dimension := 8 |} in
  NoDup (KK.anomalySet Q 2)
  /\ (forall p, p ∈ KK.anomalySet Q 2 -> p ∈ KK.positions Q)
  /\ Z.of_nat (length (KK.anomalySet Q 2)) <= 2
  /\ (length (KK.anomalySet Q 2) <= length (KK.positions Q))%nat
  /\ (Z.of_nat (length (KK.positions Q)) <= 2 ->
      forall p, p ∈ KK.positions Q -> p ∈ KK.anomalySet Q 2).
Proof.
  apply (anomalySet_bounds
           {| KK.positions := [1; 5; 7]; KK.elevations := [0.5; 0.25; 0.75]%float;
              KK.dimension := 8 |} 2).
  lia.
Defined.

(** ** The input filters *)

Lemma isFinite_idem_0 : isFinite 0%float = true.
Proof. reflexivity. Qed.

(** X27.  [RH_SparseEncoder._safe] keeps the length, returns only finite
    numbers, replaces exactly the entries that are not finite by [0],
    leaves a finite vector as it is, and is idempotent; the data encoder's
    [sanitize] with its default fill [0] is the same function, and returns
    only finite numbers for any finite fill. *)
Theorem safe_sanitizes (arr : list float) :
  length (RhSparse.safe arr) = length arr
  /\ Forall (fun x => isFinite x = true) (RhSparse.safe arr)
  /\ (forall i x, arr !! i = Some x ->
        RhSparse.safe arr !! i = Some (if isFinite x then x else 0%float))
  /\ (Forall (fun x => isFinite x = true) arr -> RhSparse.safe arr = arr)
  /\ RhSparse.safe (RhSparse.safe arr) = RhSparse.safe arr
  /\ KK.sanitize arr 0%float = RhSparse.safe arr
  /\ (forall fill, isFinite fill = true ->
        Forall (fun x => isFinite x = true) (KK.sanitize arr fill)).
Proof.
  assert (Hfin : forall fill, isFinite fill = true ->
            Forall (fun x => isFinite x = true) (KK.sanitize arr fill)).
  { intros fill Hf. unfold KK.sanitize. apply List.Forall_forall. intros y Hy.
    apply in_map_iff in Hy as (x & <- & _). now destruct (isFinite x) eqn:E. }
  assert (Hid : forall l, Forall (fun x => isFinite x = true) l -> RhSparse.safe l = l).
  { intros l Hl. unfold RhSparse.safe. induction Hl as [|x l Hx _ IH]; simpl;
      [reflexivity|]. now rewrite Hx, IH. }
  repeat split.
  - unfold RhSparse.safe. apply length_map.
  - apply (Hfin 0%float). reflexivity.
  - intros i x Hi. unfold RhSparse.safe. now rewrite list_lookup_fmap, Hi.
  - apply Hid.
  - apply Hid. apply (Hfin 0%float). reflexivity.
  - exact Hfin.
Qed.

Lemma pairs_lookup (ps : list Z) (es : list float) (x : Z * option float) :
  x ∈ imap (fun i p => (p, es !! i)) ps ->
  exists i, ps !! i = Some (fst x) /\ snd x = es !! i.
Proof.
  intros Hx. apply elem_of_lookup_imap_1 in Hx as (i & p & -> & Hp). eauto.
Qed.

(** X16.  [anomalySet(Q, M)] picks by elevation: when the positions of
    [Q] are distinct and its elevations are numbers, every position in the
    set has an elevation at least as large as every position of [Q] left
    out of it. *)
Theorem anomalySet_top (Q : KK.Signature) (M : Z) :
  0 <= M -> NoDup (KK.positions Q) ->
  (length (KK.positions Q) <= length (KK.elevations Q))%nat ->
  Forall not_nan (KK.elevations Q) ->
  forall i j p p' e e',
    KK.positions Q !! i = Some p -> KK.elevations Q !! i = Some e ->
    KK.positions Q !! j = Some p' -> KK.elevations Q !! j = Some e' ->
    p ∈ KK.anomalySet Q M -> p' ∉ KK.anomalySet Q M ->
    le_num e' e.
Proof.
  intros HM Hnd Hlen Hnn i j p p' e e' Hi Hei Hj Hej Hp Hp'.
  unfold KK.anomalySet in Hp, Hp'.
  set (pairs := imap (fun i p => (p, KK.elevations Q !! i)) (KK.positions Q)) in *.
  set (key := fun x : Z * option float => Obj.to_num (snd x)).
  assert (Hkey : Forall (fun x => not_nan (key x)) pairs).
  { apply List.Forall_forall. intros x Hx. apply list_elem_of_In, pairs_lookup in Hx
      as (a & Ha & Hs). unfold key. rewrite Hs.
    destruct (lookup_lt_is_Some_2 (KK.elevations Q) a) as [ea Hea].
    { apply lookup_lt_Some in Ha. lia. }
    rewrite Hea. simpl. rewrite List.Forall_forall in Hnn. apply Hnn.
    eapply list_elem_of_In, list_elem_of_lookup_2, Hea. }
  set (sorted := sort_by (fun a b => num_gt (Obj.to_num (snd b) - Obj.to_num (snd a))%float 0%float)
                         pairs) in *.
  assert (Hperm : Permutation sorted pairs) by apply sort_by_perm.
  set (m := Z.to_nat (Z.min M (Z.of_nat (length sorted)))).
  assert (Hsl : slice0 sorted (Z.min M (Z.of_nat (length sorted))) = take m sorted).
  { unfold slice0. destruct (Z.ltb_spec (Z.min M (Z.of_nat (length sorted))) 0); [lia|].
    reflexivity. }
  rewrite Hsl in Hp, Hp'.
  assert (Huniq : forall x a, x ∈ sorted -> KK.positions Q !! a = Some (fst x) ->
                              x = (fst x, KK.elevations Q !! a)).
  { intros x a Hx Ha. rewrite Hperm in Hx. apply pairs_lookup in Hx as (a' & Ha' & Hs).
    rewrite (NoDup_lookup _ _ _ _ Hnd Ha Ha'). destruct x; simpl in *. now rewrite Hs. }
  (* the pair of [p] is among the first [m] *)
  apply to_set_elem in Hp as [Hp _].
  apply list_elem_of_fmap in Hp as (x & Hfx & Hx).
  assert (Hxs : x ∈ sorted).
  { apply elem_of_take in Hx as (a & Ha & _). eapply list_elem_of_lookup_2, Ha. }
  rewrite Hfx in Hi. rewrite (Huniq x i Hxs Hi), Hei in Hx.
  (* the pair of [p'] is among the others *)
  assert (Hy : (p', Some e') ∈ drop m sorted).
  { assert (Hys : (p', Some e') ∈ sorted).
    { rewrite Hperm. rewrite <- Hej.
      apply (elem_of_lookup_imap_2 (fun i p => (p, KK.elevations Q !! i)) _ _ _ Hj). }
    rewrite <- (take_drop m sorted) in Hys.
    apply elem_of_app in Hys as [Hy1|Hy2]; [|exact Hy2].
    exfalso. apply Hp'. apply to_set_elem. split; [|apply not_elem_of_nil].
    apply list_elem_of_fmap. exists (p', Some e'). split; [reflexivity|exact Hy1]. }
  apply (sort_desc_take key pairs m _ _ Hkey Hx Hy).
Qed.

Lemma anomalySet_top_witness : le_num 0.25%float 0.75%float.
Proof.
  apply (anomalySet_top
           {| KK.positions := [1; 5; 7]; KK.elevations := [0.5; 0.25; 0.75]%float;
              KK.dimension := 8 |} 2 ltac:(lia)
           ltac:(apply NoDup_ListNoDup; repeat constructor; simpl; intuition lia)
           ltac:(simpl; lia) ltac:(repeat constructor)
           2%nat 1%nat 7 5 0.75%float 0.25%float);
    try reflexivity.
  - apply list_elem_of_In. vm_compute. tauto.
  - intros H. apply list_elem_of_In in H. vm_compute in H.
    destruct H as [H|[H|[]]]; discriminate H.
Defined.

(** ** Injected anomalies *)

Lemma sort_Z_sorted (l : list Z) : Sorted Z.le (sort_by (fun a b => 0 <? a - b) l).
Proof.
  apply (sort_by_sorted _ Z.le (fun _ => True)).
  - intros x y _ _ H. apply Z.ltb_lt in H. lia.
  - intros x y _ _ H. apply Z.ltb_ge in H. lia.
  - apply List.Forall_forall. auto.
Qed.

Lemma sort_Z_strict (l : list Z) :
  NoDup l -> Sorted Z.lt (sort_by (fun a b => 0 <? a - b) l).
Proof.
  intros Hnd. apply Sorted_le_NoDup_lt; [apply sort_Z_sorted|].
  now rewrite sort_by_perm.
Qed.

Lemma sort_Z_id (l : list Z) :
  Sorted Z.lt l -> sort_by (fun a b => 0 <? a - b) l = l.
Proof.
  induction 1 as [|x l Hs IH Hhd]; simpl; [reflexivity|].
  rewrite IH. destruct Hhd as [|y l' Hxy]; simpl; [reflexivity|].
  destruct (Z.ltb_spec 0 (x - y)); [lia|reflexivity].
Qed.

Lemma to_set_absorb (l' : list Z) : forall seen,
  (forall x, x ∈ l' -> x ∈ seen) -> Obj.to_set l' seen = [].
Proof.
  induction l' as [|x l' IH]; intros seen H; simpl; [reflexivity|].
  destruct (bool_decide_reflect (x ∈ seen)) as [_|Hn].
  - apply IH. intros y Hy. apply H. now apply list_elem_of_further.
  - exfalso. apply Hn, H, list_elem_of_here.
Qed.

Lemma to_set_NoDup_id (l l' : list Z) : forall seen,
  NoDup l -> (forall x, x ∈ l -> x ∉ seen) -> (forall x, x ∈ l' -> x ∈ l \/ x ∈ seen) ->
  Obj.to_set (l ++ l') seen = l.
Proof.
  induction l as [|x l IH]; intros seen Hnd Hs Hsub; simpl.
  - apply to_set_absorb. intros y Hy. destruct (Hsub y Hy) as [H|H]; [|exact H].
    now apply elem_of_nil in H.
  - apply NoDup_cons in Hnd as [Hx Hnd].
    destruct (bool_decide_reflect (x ∈ seen)) as [Hin|_].
    + exfalso. apply (Hs x); [apply list_elem_of_here|exact Hin].
    + f_equal. apply IH; [exact Hnd| |].
      * intros y Hy Hy'. apply elem_of_cons in Hy' as [->|Hy']; [contradiction|].
        apply (Hs y); [now apply list_elem_of_further|exact Hy'].
      * intros y Hy. destruct (Hsub y Hy) as [H|H].
        -- apply elem_of_cons in H as [->|H]; [right; apply list_elem_of_here|now left].
        -- right. now apply list_elem_of_further.
Qed.

Lemma indexOf_Some (l : list Z) (p : Z) (j : nat) :
  KK.indexOf l p = Some j ->
  l !! j = Some p /\ forall i, (i < j)%nat -> l !! i <> Some p.
Proof.
  revert j. induction l as [|x l IH]; intros j; simpl; [discriminate|].
  destruct (Z.eqb_spec x p) as [->|Hne].
  - intros [= <-]. split; [reflexivity|]. intros i Hi. lia.
  - destruct (KK.indexOf l p) as [j'|] eqn:E; simpl; [|discriminate].
    intros [= <-]. destruct (IH j' eq_refl) as [H1 H2]. split; [exact H1|].
    intros [|i] Hi; simpl; [congruence|]. apply H2. lia.
Qed.

Lemma indexOf_None (l : list Z) (p : Z) : KK.indexOf l p = None <-> p ∉ l.
Proof.
  induction l as [|x l IH]; simpl.
  - split; [intros _; apply not_elem_of_nil|reflexivity].
  - rewrite not_elem_of_cons. destruct (Z.eqb_spec x p) as [->|Hne].
    + split; [discriminate|tauto].
    + destruct (KK.indexOf l p); simpl.
      * split; [discriminate|]. intros [_ H]. now apply IH in H.
      * split; [|reflexivity]. intros _. split; [congruence|]. now apply IH.
Qed.

Lemma indexOf_NoDup (l : list Z) (p : Z) (k : nat) :
  NoDup l -> l !! k = Some p -> KK.indexOf l p = Some k.
Proof.
  intros Hnd Hk. destruct (KK.indexOf l p) as [j|] eqn:E.
  - apply indexOf_Some in E as [Hj _]. f_equal. eapply NoDup_lookup; eauto.
  - apply indexOf_None in E. exfalso. apply E. eapply list_elem_of_lookup_2, Hk.
Qed.

Lemma Sorted_lt_NoDup (l : list Z) : Sorted Z.lt l -> NoDup l.
Proof.
  intros Hs. apply Sorted_StronglySorted in Hs; [|intros x y z; lia].
  induction Hs as [|x l Hs IH Hx]; constructor; [|exact IH].
  intros Hin. apply list_elem_of_In in Hin. rewrite List.Forall_forall in Hx.
  specialize (Hx x Hin). lia.
Qed.

Lemma inject_doc_positions (d : KK.RawSignature) (ev : KK.Event) (elev : float) :
  let d' := KK.inject_doc d ev elev in
  Sorted Z.lt (KK.r_positions d')
  /\ (forall p, p ∈ KK.r_positions d'
        <-> p ∈ KK.r_positions d \/ p ∈ default [] (KK.ev_positions ev)).
Proof.
  simpl. split.
  - apply sort_Z_strict, to_set_NoDup.
  - intros p. rewrite sort_by_perm, to_set_elem, elem_of_app.
    pose proof (not_elem_of_nil p). tauto.
Qed.

Lemma inject_doc_unfold (d : KK.RawSignature) (ev : KK.Event) (elev : float) :
  KK.inject_doc d ev elev
  = let ps := sort_by (fun a b => 0 <? a - b)
                (Obj.to_set (KK.r_positions d ++ default [] (KK.ev_positions ev)) []) in
    {| KK.r_positions := ps;
       KK.r_elevations := map (injected_elevation d ev elev) ps;
       KK.r_dimension := KK.r_dimension d |}.
Proof. reflexivity. Qed.

(** X18.  One injected event leaves its document well formed: the
    positions are strictly ascending, they are the old positions together
    with the event's, there are as many elevations as positions, and the
    dimension is unchanged; applying the same event again changes
    nothing. *)
Theorem inject_doc_wellformed (d : KK.RawSignature) (ev : KK.Event) (elev : float) :
  let d' := KK.inject_doc d ev elev in
  Sorted Z.lt (KK.r_positions d')
  /\ (forall p, p ∈ KK.r_positions d'
        <-> p ∈ KK.r_positions d \/ p ∈ default [] (KK.ev_positions ev))
  /\ length (KK.r_elevations d') = length (KK.r_positions d')
  /\ KK.r_dimension d' = KK.r_dimension d
  /\ KK.inject_doc d' ev elev = d'.
Proof.
  intros d'. destruct (inject_doc_positions d ev elev) as [Hs Hp].
  fold d' in Hs, Hp.
  split; [exact Hs|]. split; [exact Hp|]. split; [apply length_map|].
  split; [reflexivity|].
  pose proof (Sorted_lt_NoDup _ Hs) as Hnd.
  assert (Hm : Obj.to_set (KK.r_positions d' ++ default [] (KK.ev_positions ev)) []
               = KK.r_positions d').
  { apply to_set_NoDup_id; [exact Hnd| |].
    - intros x _. apply not_elem_of_nil.
    - intros x Hx. left. apply Hp. now right. }
  rewrite (inject_doc_unfold d'). cbv zeta. rewrite Hm, (sort_Z_id _ Hs).
  assert (Hlen : length (KK.r_elevations d') = length (KK.r_positions d'))
    by apply length_map.
  clearbody d'.
  assert (He : map (injected_elevation d' ev elev) (KK.r_positions d')
               = KK.r_elevations d').
  { apply list_eq. intros k. rewrite list_lookup_fmap.
    destruct (KK.r_positions d' !! k) as [p|] eqn:Hk; simpl.
    - unfold injected_elevation. rewrite (indexOf_NoDup _ _ _ Hnd Hk).
      unfold KK.elev_at. destruct (KK.r_elevations d' !! k) as [e|] eqn:Hek.
      + reflexivity.
      + apply lookup_ge_None in Hek. apply lookup_lt_Some in Hk. lia.
    - symmetry. apply lookup_ge_None. apply lookup_ge_None in Hk. lia. }
  rewrite He. now destruct d'.
Qed.

(** ** Queries from gaps *)

Lemma sort_nat_as_Z (l : list nat) :
  map Z.of_nat (sort_by (fun a b => 0 <? Z.of_nat a - Z.of_nat b) l)
  = sort_by (fun a b => 0 <? a - b) (map Z.of_nat l).
Proof.
  induction l as [|x l IH]; simpl; [reflexivity|].
  rewrite <- IH. generalize (sort_by (fun a b => 0 <? Z.of_nat a - Z.of_nat b) l).
  intros s. induction s as [|y s IHs]; simpl; [reflexivity|].
  destruct (0 <? Z.of_nat x - Z.of_nat y); simpl; [now rewrite IHs|reflexivity].
Qed.

(** X17.  [queryFromGaps] returns a signature of dimension [D], the
    number of gaps, whose positions are strictly ascending indices below
    [D], [min(D, max(1, topK))] of them, with as many elevations.  The
    positions are the kept indices sorted; the elevations are the rescaled
    gaps of the kept indices in the order of the selection, which (for gaps
    without [NaN]) is by descending gap, and every kept index has a gap at
    least as large as every index left out. *)
Theorem queryFromGaps_shape (gaps : list float) (topK : Z) (minElev : float) :
  let Q := KK.queryFromGaps gaps topK minElev in
  let D := length gaps in
  KK.dimension Q = Z.of_nat D
  /\ Sorted Z.lt (KK.positions Q)
  /\ Forall (fun p => 0 <= p < Z.of_nat D) (KK.positions Q)
  /\ Z.of_nat (length (KK.positions Q)) = Z.min (Z.of_nat D) (Z.max 1 topK)
  /\ length (KK.elevations Q) = length (KK.positions Q)
  /\ exists keep : list nat,
       Permutation (map Z.of_nat keep) (KK.positions Q)
       /\ (let gMin := Math_min_of (map (at_num gaps) keep) in
           let gMax := Math_max_of (map (at_num gaps) keep) in
           KK.elevations Q
           = map (fun i => (minElev + (at_num gaps i - gMin) / or_one (gMax - gMin)
                                      * (0.999999 - minElev))%float) keep)
       /\ (Forall not_nan gaps ->
           StronglySorted (fun i j => le_num (at_num gaps j) (at_num gaps i)) keep
           /\ forall i j, In i keep -> (j < D)%nat -> ~ In j keep ->
                le_num (at_num gaps j) (at_num gaps i)).
Proof.
  intros Q D. unfold Q, KK.queryFromGaps. cbv zeta. fold D.
  set (idx := sort_by _ (seq 0 D)).
  set (n := Z.max 1 (Z.min topK (Z.of_nat D))).
  assert (Hperm : Permutation idx (seq 0 D)) by apply sort_by_perm.
  assert (Hnd : NoDup idx) by (rewrite Hperm; apply NoDup_ListNoDup, seq_NoDup).
  assert (Hlen : length idx = D) by (rewrite (Permutation_length Hperm); apply length_seq).
  assert (Hsl : slice0 idx n = take (Z.to_nat n) idx).
  { unfold slice0. destruct (Z.ltb_spec n 0); [unfold n in *; lia|reflexivity]. }
  rewrite Hsl. set (keep := take (Z.to_nat n) idx).
  assert (Hknd : NoDup keep) by (eapply sublist_NoDup; [exact Hnd|apply sublist_take]).
  assert (Hkin : forall i, In i keep -> (i < D)%nat).
  { intros i Hi. apply list_elem_of_In, elem_of_take in Hi as (a & Ha & _).
    apply list_elem_of_lookup_2, list_elem_of_In in Ha.
    apply (Permutation_in _ Hperm), in_seq in Ha. lia. }
  cbn [KK.dimension KK.positions KK.elevations].
  assert (Hps : Permutation (sort_by (fun a b => 0 <? Z.of_nat a - Z.of_nat b) keep) keep)
    by apply sort_by_perm.
  split; [reflexivity|]. split.
  { rewrite sort_nat_as_Z. apply sort_Z_strict.
    apply NoDup_fmap; [intros a b; lia|exact Hknd]. }
  split.
  { apply List.Forall_forall. intros p Hp. apply in_map_iff in Hp as (i & <- & Hi).
    apply (Permutation_in _ Hps) in Hi. apply Hkin in Hi. lia. }
  split.
  { rewrite length_map, (Permutation_length Hps). unfold keep.
    rewrite length_take, Hlen. unfold n. lia. }
  split.
  { now rewrite !length_map, (Permutation_length Hps). }
  exists keep. split; [now apply Permutation_map; symmetry|].
  split.
  { rewrite map_map. reflexivity. }
  intros Hnn.
  assert (Hkey : Forall (fun i => not_nan (at_num gaps i)) (seq 0 D)).
  { apply List.Forall_forall. intros i Hi. apply in_seq in Hi.
    apply at_num_not_nan; [exact Hnn|]. unfold D in Hi. lia. }
  pose proof (sort_desc_strongly (fun i => at_num gaps i) _ Hkey) as Hs.
  split.
  - assert (Hs' : StronglySorted (fun i j => le_num (at_num gaps j) (at_num gaps i)) idx)
      by exact Hs.
    unfold keep. clear -Hs'. revert Hs'. generalize (Z.to_nat n). intros k.
    revert k. induction idx as [|x l IH]; intros [|k] Hs; simpl; try constructor.
    + apply IH. now apply StronglySorted_inv in Hs.
    + apply StronglySorted_inv in Hs as [_ Hx]. now apply Forall_take.
  - intros i j Hi Hj Hnj.
    apply (sort_desc_take (fun i => at_num gaps i) (seq 0 D) (Z.to_nat n) i j Hkey).
    + now apply list_elem_of_In.
    + assert (Hjin : j ∈ idx).
      { apply list_elem_of_In, (Permutation_in _ (Permutation_sym Hperm)), in_seq. lia. }
      fold idx. rewrite <- (take_drop (Z.to_nat n) idx) in Hjin.
      apply elem_of_app in Hjin as [Hj1|Hj2]; [|exact Hj2].
      exfalso. apply Hnj. now apply list_elem_of_In.
Qed.

Lemma raw_dict_absent (s : KK.RawSignature) (p : Z) :
  p ∉ KK.r_positions s -> Obj.read (KK.raw_dict s) p = None.
Proof.
  intros Hp. unfold Obj.read.
  change (KK.raw_dict s)
    with (dict_fold (fun i => KK.elev_at (KK.r_elevations s) i) (KK.r_positions s)).
  now rewrite dict_fold_absent.
Qed.

Lemma raw_dict_NoDup (s : KK.RawSignature) (k : nat) (p : Z) :
  NoDup (KK.r_positions s) -> KK.r_positions s !! k = Some p ->
  Obj.read (KK.raw_dict s) p = KK.elev_at (KK.r_elevations s) k.
Proof.
  intros Hnd Hk. unfold Obj.read.
  change (KK.raw_dict s)
    with (dict_fold (fun i => KK.elev_at (KK.r_elevations s) i) (KK.r_positions s)).
  rewrite (dict_fold_last (fun i => KK.elev_at (KK.r_elevations s) i) _ k p Hk);
    [reflexivity|].
  intros j Hj Hpj. pose proof (NoDup_lookup _ _ _ _ Hnd Hk Hpj). lia.
Qed.

(** X19.  After an injected event a position that the document already
    had keeps the elevation of its first occurrence (so, for distinct
    positions, the document's dictionary is unchanged on the old
    positions), a position added by the event gets the event's elevation,
    or the default when the event has none, and no other position
    appears. *)
Theorem inject_doc_elevations (d : KK.RawSignature) (ev : KK.Event) (elev : float)
    (p : Z) :
  let d' := KK.inject_doc d ev elev in
  (forall j, KK.indexOf (KK.r_positions d) p = Some j ->
     Obj.read (KK.raw_dict d') p = KK.elev_at (KK.r_elevations d) j)
  /\ (NoDup (KK.r_positions d) -> p ∈ KK.r_positions d ->
      Obj.read (KK.raw_dict d') p = Obj.read (KK.raw_dict d) p)
  /\ (p ∉ KK.r_positions d -> p ∈ default [] (KK.ev_positions ev) ->
      Obj.read (KK.raw_dict d') p = Some (default elev (KK.ev_elevation ev)))
  /\ (p ∉ KK.r_positions d -> p ∉ default [] (KK.ev_positions ev) ->
      Obj.read (KK.raw_dict d') p = None).
Proof.
  intros d'. destruct (inject_doc_positions d ev elev) as [Hs Hp]. fold d' in Hs, Hp.
  pose proof (Sorted_lt_NoDup _ Hs) as Hnd'.
  assert (Hread : p ∈ KK.r_positions d' ->
            Obj.read (KK.raw_dict d') p = injected_elevation d ev elev p).
  { intros Hin. apply list_elem_of_lookup_1 in Hin as (k & Hk).
    rewrite (raw_dict_NoDup d' k p Hnd' Hk). unfold KK.elev_at.
    unfold d' in Hk |- *. rewrite (inject_doc_unfold d) in Hk |- *.
    cbv zeta in Hk |- *. cbn [KK.r_positions KK.r_elevations] in Hk |- *.
    now rewrite list_lookup_fmap, Hk. }
  repeat split.
  - intros j Hj. rewrite Hread.
    + unfold injected_elevation. now rewrite Hj.
    + apply Hp. left. apply indexOf_Some in Hj as [Hj _].
      eapply list_elem_of_lookup_2, Hj.
  - intros Hnd Hin. rewrite Hread by (apply Hp; now left).
    apply list_elem_of_lookup_1 in Hin as (j & Hj).
    unfold injected_elevation. rewrite (indexOf_NoDup _ _ _ Hnd Hj).
    now rewrite (raw_dict_NoDup d j p Hnd Hj).
  - intros Hn Hin. rewrite Hread by (apply Hp; now right).
    unfold injected_elevation. apply indexOf_None in Hn. now rewrite Hn.
  - intros Hn Hn'. apply raw_dict_absent. rewrite Hp. tauto.
Qed.

(** ** The batch *)

Lemma inject_event_length elev docs ev :
  length (KK.inject_event elev docs ev) = length docs.
Proof.
  unfold KK.inject_event. destruct (negb _); [reflexivity|].
  destruct (docs !! _); [apply length_insert|reflexivity].
Qed.

Lemma inject_event_lookup elev docs ev (i : nat) :
  KK.inject_event elev docs ev !! i
  = (fun d => if KK.docIndex ev =? Z.of_nat i then KK.inject_doc d ev elev else d)
      <$> docs !! i.
Proof.
  unfold KK.inject_event.
  destruct (Z.leb_spec 0 (KK.docIndex ev)) as [H0|H0]; simpl.
  - destruct (Z.ltb_spec (KK.docIndex ev) (Z.of_nat (length docs))) as [H1|H1]; simpl.
    + destruct (docs !! Z.to_nat (KK.docIndex ev)) as [d|] eqn:Hd.
      * destruct (Z.eqb_spec (KK.docIndex ev) (Z.of_nat i)) as [E|E].
        -- assert (Z.to_nat (KK.docIndex ev) = i) as Ei by lia. rewrite Ei in *.
           rewrite list_lookup_insert_eq by (apply lookup_lt_Some in Hd; exact Hd).
           now rewrite Hd.
        -- rewrite list_lookup_insert_ne by lia. now destruct (docs !! i).
      * apply lookup_ge_None in Hd. lia.
    + destruct (Z.eqb_spec (KK.docIndex ev) (Z.of_nat i)) as [E|E].
      * rewrite (proj2 (lookup_ge_None docs i)) by lia. reflexivity.
      * now destruct (docs !! i).
  - destruct (Z.eqb_spec (KK.docIndex ev) (Z.of_nat i)) as [E|E]; [lia|].
    now destruct (docs !! i).
Qed.

Lemma inject_events_lookup elev evs : forall docs (i : nat),
  fold_left (KK.inject_event elev) evs docs !! i
  = (fun d => fold_left (fun d ev => KK.inject_doc d ev elev)
                (List.filter (fun ev => KK.docIndex ev =? Z.of_nat i) evs) d)
      <$> docs !! i.
Proof.
  induction evs as [|ev evs IH]; intros docs i; simpl.
  - now destruct (docs !! i).
  - rewrite IH, inject_event_lookup.
    destruct (docs !! i) as [d|]; simpl; [|reflexivity].
    now destruct (KK.docIndex ev =? Z.of_nat i).
Qed.

(** X20.  [injectAnomalyTraceFromRH] does nothing without a batch or
    without events; otherwise it keeps the query and the number of
    documents, and document [i] becomes the result of applying, in order,
    the events whose [docIndex] is [i] (an event with an index that is
    negative or past the end applies to no document). *)
Theorem injectAnomalyTraceFromRH_per_doc (D : KK.RawBatch) (events : list KK.Event)
    (elev : float) :
  KK.injectAnomalyTraceFromRH None (Some events) elev = None
  /\ KK.injectAnomalyTraceFromRH (Some D) None elev = Some D
  /\ exists D',
       KK.injectAnomalyTraceFromRH (Some D) (Some events) elev = Some D'
       /\ KK.rb_q D' = KK.rb_q D
       /\ length (KK.rb_docs D') = length (KK.rb_docs D)
       /\ forall i : nat,
            KK.rb_docs D' !! i
            = (fun d => fold_left (fun d ev => KK.inject_doc d ev elev)
                          (List.filter (fun ev => KK.docIndex ev =? Z.of_nat i) events) d)
                <$> KK.rb_docs D !! i.
Proof.
  split; [reflexivity|]. split; [reflexivity|].
  eexists. split; [reflexivity|]. simpl. split; [reflexivity|]. split.
  - generalize (KK.rb_docs D). induction events as [|ev evs IH]; intros docs; simpl;
      [reflexivity|]. now rewrite IH, inject_event_length.
  - intros i. apply inject_events_lookup.
Qed.

(** ** The spike read-back *)

Lemma elev_at_Some (es : list float) (i : nat) :
  KK.elev_at (map Some es) i = es !! i.
Proof.
  unfold KK.elev_at. rewrite list_lookup_fmap. now destruct (es !! i).
Qed.

Lemma raw_dict_raw (s : KK.Signature) : KK.raw_dict (KK.raw s) = KK.dict_of s.
Proof.
  unfold KK.raw_dict, KK.dict_of, Obj.to_dict. simpl.
  generalize (@nil (Z * option float)).
  generalize (imap (fun i p => (i, p)) (KK.positions s)).
  intros l. induction l as [|[i p] l IH]; intros d; simpl; [reflexivity|].
  now rewrite elev_at_Some, IH.
Qed.

Lemma raw_l2_Some (es : list float) : KK.raw_l2 (map Some es) = KK.l2 es.
Proof.
  unfold KK.raw_l2, KK.l2. f_equal. generalize 0%float.
  induction es as [|e es IH]; intros acc; simpl; [reflexivity|apply IH].
Qed.

Lemma raw_baseCosine_raw (Q X : KK.Signature) (eps : float) :
  KK.raw_baseCosine (KK.raw Q) (KK.raw X) eps = KK.baseCosine Q X eps.
Proof.
  unfold KK.raw_baseCosine, KK.baseCosine.
  rewrite !raw_dict_raw. simpl. now rewrite !raw_l2_Some.
Qed.

Lemma raw_anomalySet_raw (Q : KK.Signature) (M : Z) :
  KK.raw_anomalySet (KK.raw Q) M = KK.anomalySet Q M.
Proof.
  unfold KK.raw_anomalySet, KK.anomalySet. simpl.
  assert (E : imap (fun i p => (p, KK.elev_at (map Some (KK.elevations Q)) i))
                   (KK.positions Q)
              = imap (fun i p => (p, KK.elevations Q !! i)) (KK.positions Q)).
  { apply imap_ext. intros i p _. simpl. now rewrite elev_at_Some. }
  now rewrite E.
Qed.

Lemma raw_anomalyOverlapFrac_raw (Q X : KK.Signature) (M : Z) :
  KK.raw_anomalyOverlapFrac (KK.raw Q) (KK.raw X) M = KK.anomalyOverlapFrac Q X M.
Proof.
  unfold KK.raw_anomalyOverlapFrac, KK.anomalyOverlapFrac.
  now rewrite raw_anomalySet_raw.
Qed.

Lemma raw_anomalyAgreementCosine_raw (Q X : KK.Signature) (M : Z) (eps : float) :
  KK.raw_anomalyAgreementCosine (KK.raw Q) (KK.raw X) M eps
  = KK.anomalyAgreementCosine Q X M eps.
Proof.
  unfold KK.raw_anomalyAgreementCosine, KK.anomalyAgreementCosine.
  now rewrite raw_anomalySet_raw, !raw_dict_raw.
Qed.

Lemma imap_lookups {A B : Type} (ps : list A) : forall (es : list B),
  length ps = length es ->
  imap (fun i _ => es !! i) ps = map Some es.
Proof.
  induction ps as [|p ps IH]; intros [|e es] Hlen; simpl in *; try lia; [reflexivity|].
  f_equal. apply IH. lia.
Qed.

Lemma read_back_encode (sim : KK.SpikeSim) (s : KK.Signature) :
  aligned s ->
  KK.read_back (KK.sp_trains (KK.spike_encode sim s)) (KK.dimension s) = KK.raw s.
Proof.
  intros Ha. unfold KK.read_back, KK.spike_encode, KK.raw. simpl. f_equal.
  - rewrite fmap_imap.
    clear. induction (KK.positions s) as [|p ps IH] using rev_ind; [reflexivity|].
    rewrite imap_app. rewrite IH. simpl. reflexivity.
  - rewrite fmap_imap. simpl. now apply imap_lookups.
Qed.

(** X21.  For signatures with as many elevations as positions, the spike
    encoding keeps the positions and elevations, gives one spike per
    train, and [spikeBaseCosine] of two encodings is exactly [baseCosine]
    of the signatures, whatever the simulators' window and resolution. *)
Theorem spikeBaseCosine_round_trip (simQ simX : KK.SpikeSim) (Q X : KK.Signature)
    (eps : float) :
  aligned Q -> aligned X ->
  KK.spikeBaseCosine (KK.spike_encode simQ Q) (KK.spike_encode simX X) eps
  = KK.baseCosine Q X eps
  /\ map KK.t_p (KK.sp_trains (KK.spike_encode simQ Q)) = KK.positions Q
  /\ map KK.t_e (KK.sp_trains (KK.spike_encode simQ Q)) = map Some (KK.elevations Q)
  /\ Forall (fun t => length (KK.t_spikes t) = 1%nat)
            (KK.sp_trains (KK.spike_encode simQ Q)).
Proof.
  intros HQ HX. unfold KK.spikeBaseCosine.
  pose proof (read_back_encode simQ Q HQ) as EQ.
  pose proof (read_back_encode simX X HX) as EX.
  simpl KK.sp_signature. rewrite EQ, EX, raw_baseCosine_raw.
  split; [reflexivity|].
  unfold KK.read_back, KK.raw in EQ. injection EQ as E1 E2.
  split; [exact E1|]. split; [exact E2|].
  simpl. apply List.Forall_forall. intros t Ht.
  apply list_elem_of_In, elem_of_lookup_imap_1 in Ht as (i & p & -> & _). reflexivity.
Qed.

Lemma spikeBaseCosine_round_trip_witness :
  let sim := KK.new_SpikeSim 100 1 1 in
  let Q := {| KK.positions := [1; 5]; KK.elevations := [0.5; 0.25]%float;
              KK.dimension := 8 |} in
  let X := {| KK.positions := [1; 6]; KK.elevations := [0.5; 0.75]%float;
              KK.dimension := 8 |} in
  KK.spikeBaseCosine (KK.spike_encode sim Q) (KK.spike_encode sim X) c_1em12
  = KK.baseCosine Q X c_1em12
  /\ map KK.t_p (KK.sp_trains (KK.spike_encode sim Q)) = KK.positions Q
  /\ map KK.t_e (KK.sp_trains (KK.spike_encode sim Q)) = map Some (KK.elevations Q)
  /\ Forall (fun t => length (KK.t_spikes t) = 1%nat)
            (KK.sp_trains (KK.spike_encode sim Q)).
Proof.
  apply (spikeBaseCosine_round_trip (KK.new_SpikeSim 100 1 1) (KK.new_SpikeSim 100 1 1)
           {| KK.positions := [1; 5]; KK.elevations := [0.5; 0.25]%float;
              KK.dimension := 8 |}
           {| KK.positions := [1; 6]; KK.elevations := [0.5; 0.75]%float;
              KK.dimension := 8 |} c_1em12); reflexivity.
Defined.

(** ** The parity evaluation *)

Lemma boost_row_aligned (sim : KK.SpikeSim) (Q X : KK.Signature)
    (beta gamma : float) (M : Z) (eps : float) (i : nat) :
  aligned Q -> aligned X ->
  let s := KK.kkScore Q X beta gamma M eps in
  let row := KK.boost_row sim Q (KK.spike_encode sim Q) beta gamma M eps i X in
  KK.DocID row = Z.of_nat i
  /\ KK.AlgBase row = KK.base s /\ KK.SpikeBase row = KK.base s
  /\ KK.A_Overlap row = KK.a s /\ KK.B_Agreement row = KK.b s
  /\ KK.Multiplier row = KK.mult s /\ KK.TotalAlg row = KK.total s
  /\ KK.CombAlg row = (beta * KK.a s + gamma * KK.b s)%float
  /\ KK.CombSpike row = KK.CombAlg row
  /\ KK.TotalSpike row = (KK.base s * (1 + (beta * KK.a s + gamma * KK.b s)))%float
  /\ KK.TotalAlg row = (KK.base s * (1 + beta * KK.a s + gamma * KK.b s))%float.
Proof.
  intros HQ HX s row. unfold row, KK.boost_row. cbv zeta.
  cbn [KK.DocID KK.AlgBase KK.SpikeBase KK.A_Overlap KK.B_Agreement KK.Multiplier
       KK.TotalAlg KK.CombAlg KK.CombSpike KK.TotalSpike].
  unfold KK.spikeBaseCosine. cbn [KK.sp_signature KK.spike_encode].
  pose proof (read_back_encode sim Q HQ) as EQ.
  pose proof (read_back_encode sim X HX) as EX.
  cbn [KK.sp_trains KK.spike_encode] in EQ, EX |- *.
  rewrite EQ, EX, raw_baseCosine_raw, raw_anomalyOverlapFrac_raw,
    raw_anomalyAgreementCosine_raw.
  repeat split; reflexivity.
Qed.

Lemma count_bounds {A : Type} (f : A -> bool) (l : list A) : forall n : Z,
  n <= fold_left (fun ok r => if f r then ok + 1 else ok) l n <= n + Z.of_nat (length l).
Proof.
  induction l as [|x l IH]; intros n; simpl; [lia|].
  destruct (f x); [specialize (IH (n + 1))|specialize (IH n)]; lia.
Qed.

(** X22.  [evaluateFullBoost] throws without a batch.  On a batch of
    signatures with as many elevations as positions it returns one row per
    document, [total] is the number of documents, [0 <= ok <= total], and in
    every row the spike base, overlap and agreement equal the algebraic
    ones, so [SpikeBase = AlgBase] and [CombSpike = CombAlg]; the two
    totals differ only in how the sum is associated:
    [TotalSpike = base * (1 + (beta*a + gamma*b))] and
    [TotalAlg = base * ((1 + beta*a) + gamma*b)]. *)
Theorem evaluateFullBoost_parity (D : KK.Batch) (beta gamma : float) (M : Z)
    (eps spikeWinMs spikeDtUs : float) :
  aligned (KK.q D) -> Forall aligned (KK.docs D) ->
  KK.evaluateFullBoost None beta gamma M eps spikeWinMs spikeDtUs = Throw "DATA required"
  /\ exists report,
       KK.evaluateFullBoost (Some D) beta gamma M eps spikeWinMs spikeDtUs = Ok report
       /\ KK.fb_total report = Z.of_nat (length (KK.docs D))
       /\ length (KK.rows report) = length (KK.docs D)
       /\ 0 <= KK.ok report <= KK.fb_total report
       /\ forall (i : nat) X, KK.docs D !! i = Some X ->
            exists row, KK.rows report !! i = Some row
              /\ let s := KK.kkScore (KK.q D) X beta gamma M eps in
                 KK.DocID row = Z.of_nat i
                 /\ KK.AlgBase row = KK.base s /\ KK.SpikeBase row = KK.base s
                 /\ KK.A_Overlap row = KK.a s /\ KK.B_Agreement row = KK.b s
                 /\ KK.Multiplier row = KK.mult s /\ KK.TotalAlg row = KK.total s
                 /\ KK.CombAlg row = (beta * KK.a s + gamma * KK.b s)%float
                 /\ KK.CombSpike row = KK.CombAlg row
                 /\ KK.TotalSpike row
                    = (KK.base s * (1 + (beta * KK.a s + gamma * KK.b s)))%float
                 /\ KK.TotalAlg row
                    = (KK.base s * (1 + beta * KK.a s + gamma * KK.b s))%float.
Proof.
  intros HQ HD. split; [reflexivity|].
  eexists. split; [reflexivity|]. cbn [KK.fb_total KK.rows KK.ok].
  split; [reflexivity|]. split; [apply length_imap|]. split.
  - pose proof (count_bounds (fun r => num_lt (KK.ErrorPPM r) 1%float)
                  (imap (KK.boost_row (KK.new_SpikeSim spikeWinMs spikeDtUs 1) (KK.q D)
                           (KK.spike_encode (KK.new_SpikeSim spikeWinMs spikeDtUs 1) (KK.q D))
                           beta gamma M eps) (KK.docs D)) 0) as H.
    rewrite length_imap in H. exact H.
  - intros i X Hi. eexists. split.
    + rewrite list_lookup_imap, Hi. reflexivity.
    + apply boost_row_aligned; [exact HQ|].
      rewrite List.Forall_forall in HD. apply HD.
      eapply list_elem_of_In, list_elem_of_lookup_2, Hi.
Qed.

Lemma evaluateFullBoost_parity_witness :
  let Q := {| KK.positions := [1; 5]; KK.elevations := [0.5; 0.25]%float;
              KK.dimension := 8 |} in
  let X := {| KK.positions := [1; 6]; KK.elevations := [0.5; 0.75]%float;
              KK.dimension := 8 |} in
  let D := {| KK.q := Q; KK.docs := [X; Q] |} in
  KK.evaluateFullBoost None 0.5 0.5 8 c_1em12 100 1 = Throw "DATA required"
  /\ exists report,
       KK.evaluateFullBoost (Some D) 0.5 0.5 8 c_1em12 100 1 = Ok report
       /\ KK.fb_total report = Z.of_nat (length (KK.docs D))
       /\ length (KK.rows report) = length (KK.docs D)
       /\ 0 <= KK.ok report <= KK.fb_total report
       /\ forall (i : nat) X, KK.docs D !! i = Some X ->
            exists row, KK.rows report !! i = Some row
              /\ let s := KK.kkScore (KK.q D) X 0.5 0.5 8 c_1em12 in
                 KK.DocID row = Z.of_nat i
                 /\ KK.AlgBase row = KK.base s /\ KK.SpikeBase row = KK.base s
                 /\ KK.A_Overlap row = KK.a s /\ KK.B_Agreement row = KK.b s
                 /\ KK.Multiplier row = KK.mult s /\ KK.TotalAlg row = KK.total s
                 /\ KK.CombAlg row = (0.5 * KK.a s + 0.5 * KK.b s)%float
                 /\ KK.CombSpike row = KK.CombAlg row
                 /\ KK.TotalSpike row
                    = (KK.base s * (1 + (0.5 * KK.a s + 0.5 * KK.b s)))%float
                 /\ KK.TotalAlg row
                    = (KK.base s * (1 + 0.5 * KK.a s + 0.5 * KK.b s))%float.
Proof.
  apply (evaluateFullBoost_parity
           {| KK.q := {| KK.positions := [1; 5]; KK.elevations := [0.5; 0.25]%float;
                         KK.dimension := 8 |};
              KK.docs := [{| KK.positions := [1; 6]; KK.elevations := [0.5; 0.75]%float;
                             KK.dimension := 8 |};
                          {| KK.positions := [1; 5]; KK.elevations := [0.5; 0.25]%float;
                             KK.dimension := 8 |}] |}
           0.5 0.5 8 c_1em12 100 1).
  - reflexivity.
  - repeat constructor.
Defined.

(** ** Rank fusion: the score table *)

Section Cells.
Context {A : Type}.

Lemma set_cell_length (mx : list (list A)) r m v :
  length (KK.set_cell mx r m v) = length mx.
Proof.
  unfold KK.set_cell. destruct (mx !! r); [apply length_insert|reflexivity].
Qed.

Lemma set_cell_lookup (mx : list (list A)) r m v r' :
  KK.set_cell mx r m v !! r'
  = if decide (r' = r) then (fun row => <[m := v]> row) <$> mx !! r' else mx !! r'.
Proof.
  unfold KK.set_cell. destruct (mx !! r) as [row|] eqn:Hr.
  - destruct (decide (r' = r)) as [->|Hne].
    + rewrite list_lookup_insert_eq by (apply lookup_lt_Some in Hr; exact Hr).
      now rewrite Hr.
    + now rewrite list_lookup_insert_ne by congruence.
  - destruct (decide (r' = r)) as [->|Hne]; [now rewrite Hr|reflexivity].
Qed.

Lemma set_cell_rows (P : list A -> Prop) (mx : list (list A)) r m v :
  (forall row, P row -> P (<[m := v]> row)) ->
  Forall P mx -> Forall P (KK.set_cell mx r m v).
Proof.
  intros HP Hmx. unfold KK.set_cell. destruct (mx !! r) as [row|] eqn:Hr; [|exact Hmx].
  apply Forall_insert; [exact Hmx|]. apply HP.
  rewrite List.Forall_forall in Hmx. apply Hmx.
  eapply list_elem_of_In, list_elem_of_lookup_2, Hr.
Qed.
End Cells.

(** The row of a document in [idToRow]. *)
Lemma idToRow_lookup (docIds : list Z) (d : Z) (r : nat) :
  NoDup docIds ->
  KK.idToRow_of docIds !! d = Some r <-> docIds !! r = Some d.
Proof.
  intros Hnd. unfold KK.idToRow_of. induction docIds as [|x l IH] using rev_ind.
  - simpl. rewrite lookup_empty. split; discriminate.
  - rewrite imap_app, fold_left_app. simpl. rewrite Nat.add_0_r.
    apply NoDup_app in Hnd as (Hnd & Hx & _).
    destruct (decide (x = d)) as [->|Hne].
    + rewrite lookup_insert_eq. split.
      * intros [= <-]. now rewrite lookup_app_r, Nat.sub_diag by lia.
      * intros Hr. f_equal.
        destruct (decide (r < length l)%nat) as [Hlt|Hge].
        -- rewrite lookup_app_l in Hr by exact Hlt. exfalso.
           apply (Hx d); [eapply list_elem_of_lookup_2, Hr|apply list_elem_of_here].
        -- apply lookup_lt_Some in Hr. rewrite length_app in Hr. simpl in Hr. lia.
    + rewrite lookup_insert_ne by exact Hne. rewrite (IH Hnd). split.
      * intros Hr. rewrite lookup_app_l; [exact Hr|]. now apply lookup_lt_Some in Hr.
      * intros Hr. destruct (decide (r < length l)%nat) as [Hlt|Hge].
        -- now rewrite lookup_app_l in Hr.
        -- rewrite lookup_app_r in Hr by lia.
           destruct (r - length l)%nat; simpl in Hr; [congruence|discriminate].
Qed.

Section Table.
Variable docIds : list Z.
Hypothesis docIds_NoDup : NoDup docIds.
Variable M : nat.

Lemma write_shape m mx r : table_shape docIds M mx -> table_shape docIds M (KK.put_score (KK.idToRow_of docIds) m mx r).
Proof.
  intros [Hl Hr]. unfold KK.put_score.
  destruct (KK.idToRow_of docIds !! KK.id r); [|now split].
  split; [now rewrite set_cell_length|].
  apply set_cell_rows; [|exact Hr]. intros row <-. apply length_insert.
Qed.

Lemma write_cell m mx r (i j : nat) d :
  table_shape docIds M mx -> (m < M)%nat -> docIds !! i = Some d -> KK.id r ∈ docIds ->
  KK.cell (KK.put_score (KK.idToRow_of docIds) m mx r) i j
  = if decide (KK.id r = d /\ j = m) then KK.s_score r else KK.cell mx i j.
Proof.
  intros [Hl Hr] Hm Hi Hin. unfold KK.put_score.
  apply list_elem_of_lookup_1 in Hin as (i' & Hi').
  rewrite (proj2 (idToRow_lookup docIds (KK.id r) i' docIds_NoDup) Hi').
  unfold KK.cell.
  destruct (lookup_lt_is_Some_2 mx i) as [row Hrow].
  { rewrite Hl. now apply lookup_lt_Some in Hi. }
  assert (Hrl : length row = M).
  { rewrite List.Forall_forall in Hr. apply Hr.
    eapply list_elem_of_In, list_elem_of_lookup_2, Hrow. }
  assert (Hn : forall (mx' : list (list float)) row',
             mx' !! i = Some row' -> nth i mx' [] = row').
  { intros mx' row' H. now apply nth_lookup_Some. }
  rewrite (Hn mx row Hrow).
  destruct (decide (i' = i)) as [->|Hne].
  - assert (KK.id r = d) as Hd by congruence.
    rewrite (Hn _ (<[m := KK.s_score r]> row)).
    2:{ rewrite set_cell_lookup. destruct (decide (i = i)); [|congruence].
        now rewrite Hrow. }
    unfold at_num. destruct (decide (j = m)) as [->|Hjm].
    + destruct (decide _) as [_|Hn']; [|tauto].
      apply nth_lookup_Some. apply list_lookup_insert_eq. lia.
    + destruct (decide _) as [[_ ?]|_]; [contradiction|].
      rewrite !nth_lookup. now rewrite list_lookup_insert_ne by congruence.
  - rewrite (Hn _ row).
    2:{ rewrite set_cell_lookup. destruct (decide (i = i')); [congruence|exact Hrow]. }
    destruct (decide _) as [[Hd _]|_]; [|reflexivity].
    exfalso. apply Hne. eapply NoDup_lookup; eauto. congruence.
Qed.

Lemma fill_list_shape m list : forall mx,
  table_shape docIds M mx -> table_shape docIds M (fold_left (KK.put_score (KK.idToRow_of docIds) m) list mx).
Proof.
  induction list as [|r list IH]; intros mx H; simpl; [exact H|].
  apply IH, write_shape, H.
Qed.

Lemma fill_list_cell m list : forall mx (i j : nat) d,
  table_shape docIds M mx -> (m < M)%nat -> docIds !! i = Some d ->
  (forall r, r ∈ list -> KK.id r ∈ docIds) ->
  KK.cell (fold_left (KK.put_score (KK.idToRow_of docIds) m) list mx) i j
  = if decide (j = m) then default (KK.cell mx i j) (last_score list d)
    else KK.cell mx i j.
Proof.
  induction list as [|r list IH] using rev_ind; intros mx i j d Hsh Hm Hi Hin.
  - simpl. now destruct (decide (j = m)).
  - rewrite fold_left_app. simpl.
    rewrite (write_cell m _ r i j d); try assumption.
    2:{ now apply fill_list_shape. }
    2:{ apply Hin, elem_of_app. right. apply list_elem_of_here. }
    rewrite (IH mx i j d Hsh Hm Hi).
    2:{ intros r' Hr'. apply Hin, elem_of_app. now left. }
    unfold last_score. rewrite List.filter_app. simpl.
    destruct (Z.eqb_spec (KK.id r) d) as [E|E].
    + rewrite last_snoc. simpl.
      destruct (decide (j = m)) as [->|Hjm].
      * destruct (decide _) as [_|Hn]; [reflexivity|tauto].
      * destruct (decide _) as [[_ ?]|_]; [contradiction|reflexivity].
    + rewrite app_nil_r. destruct (decide _) as [[? _]|_]; [contradiction|reflexivity].
Qed.
End Table.

Lemma fill_lists_cell (docIds : list Z) (M : nat) (lists : list (list KK.Scored)) :
  NoDup docIds ->
  forall (n0 : nat) mx (i j : nat) d,
  table_shape docIds M mx -> (n0 + length lists <= M)%nat ->
  docIds !! i = Some d ->
  (forall list r, list ∈ lists -> r ∈ list -> KK.id r ∈ docIds) ->
  let mx' := fold_left (KK.fill_column (KK.idToRow_of docIds)) (imap (fun m l => ((n0 + m)%nat, l)) lists) mx in
  table_shape docIds M mx'
  /\ KK.cell mx' i j
     = match lists !! (j - n0)%nat with
       | Some list => if decide (n0 <= j)%nat
                      then default (KK.cell mx i j) (last_score list d)
                      else KK.cell mx i j
       | None => KK.cell mx i j
       end.
Proof.
  intros Hnd. induction lists as [|list lists IH]; intros n0 mx i j d Hsh HM Hi Hin.
  - simpl. split; [exact Hsh|reflexivity].
  - simpl in HM. cbn [imap fold_left].
    set (mx1 := KK.fill_column (KK.idToRow_of docIds) mx ((n0 + 0)%nat, list)).
    assert (Hsh1 : table_shape docIds M mx1).
    { unfold mx1, KK.fill_column. simpl. apply fill_list_shape; assumption. }
    assert (Hc1 : forall j, KK.cell mx1 i j
                    = if decide (j = n0) then default (KK.cell mx i j) (last_score list d)
                      else KK.cell mx i j).
    { intros j'. unfold mx1, KK.fill_column. simpl. rewrite Nat.add_0_r.
      apply (fill_list_cell docIds Hnd M); try assumption; [lia|].
      intros r Hr. apply (Hin list r); [apply list_elem_of_here|exact Hr]. }
    assert (Himap : imap ((fun m l => ((n0 + m)%nat, l)) ∘ S) lists
                    = imap (fun m l => ((S n0 + m)%nat, l)) lists).
    { apply imap_ext. intros k l _. simpl. f_equal. lia. }
    rewrite Himap.
    destruct (IH (S n0) mx1 i j d Hsh1 ltac:(lia) Hi) as [Hsh' Hc'].
    { intros l r Hl Hr. apply (Hin l r); [now apply list_elem_of_further|exact Hr]. }
    split; [exact Hsh'|]. rewrite Hc', Hc1.
    destruct (decide (j = n0)) as [->|Hne].
    + rewrite Nat.sub_diag. simpl.
      replace (n0 - S n0)%nat with 0%nat by lia.
      destruct (decide (n0 <= n0)%nat); [|lia].
      destruct lists as [|l2 ?]; simpl; [reflexivity|].
      destruct (decide (S n0 <= n0)%nat); [lia|reflexivity].
    + destruct (decide (n0 <= j)%nat) as [Hle|Hgt].
      * replace (j - n0)%nat with (S (j - S n0)) by lia. simpl.
        destruct (lists !! (j - S n0)%nat); [|reflexivity].
        destruct (decide (S n0 <= j)%nat); [reflexivity|lia].
      * replace (j - S n0)%nat with 0%nat by lia.
        replace (j - n0)%nat with 0%nat by lia. simpl.
        destruct lists as [|l2 ?]; simpl; [reflexivity|].
        destruct (decide (S n0 <= j)%nat); [lia|reflexivity].
Qed.

Lemma cell_repeat (N M i j : nat) (v : float) :
  (i < N)%nat -> (j < M)%nat -> KK.cell (repeat (repeat v M) N) i j = v.
Proof.
  intros Hi Hj. unfold KK.cell, at_num.
  rewrite (nth_repeat_lt _ _ Hi). now apply nth_repeat_lt.
Qed.

Lemma in_flat_map_ids (lists : list (list KK.Scored)) (d : Z) :
  d ∈ flat_map (map KK.id) lists
  <-> exists list r, list ∈ lists /\ r ∈ list /\ KK.id r = d.
Proof.
  rewrite list_elem_of_In, in_flat_map. split.
  - intros (list & Hl & Hd). apply in_map_iff in Hd as (r & <- & Hr).
    exists list, r. rewrite !list_elem_of_In. auto.
  - intros (list & r & Hl & Hr & <-). exists list. rewrite <- !list_elem_of_In.
    split; [exact Hl|]. apply list_elem_of_In, in_map, list_elem_of_In, Hr.
Qed.

Lemma prepareScoreTable_facts (modelLists : list (list KK.Scored)) :
  let t := KK.prepareScoreTable modelLists in
  NoDup (KK.docIds t)
  /\ (forall d, d ∈ KK.docIds t
        <-> exists list r, list ∈ modelLists /\ r ∈ list /\ KK.id r = d)
  /\ length (KK.matrix t) = length (KK.docIds t)
  /\ Forall (fun row => length row = length modelLists) (KK.matrix t)
  /\ (forall (i m : nat) d list,
        KK.docIds t !! i = Some d -> modelLists !! m = Some list ->
        KK.cell (KK.matrix t) i m
        = default PrimFloat.neg_infinity (last_score list d)).
Proof.
  intros t.
  set (docIds := Obj.to_set (flat_map (map KK.id) modelLists) []).
  assert (Hnd : NoDup docIds) by apply to_set_NoDup.
  assert (Hmem : forall d, d ∈ docIds
            <-> exists list r, list ∈ modelLists /\ r ∈ list /\ KK.id r = d).
  { intros d. unfold docIds. rewrite to_set_elem, in_flat_map_ids.
    pose proof (not_elem_of_nil d). tauto. }
  assert (Hsh0 : table_shape docIds (length modelLists)
                   (repeat (repeat PrimFloat.neg_infinity (length modelLists))
                           (length docIds))).
  { split; [apply repeat_length|]. apply List.Forall_forall. intros row Hrow.
    apply repeat_spec in Hrow. subst row. apply repeat_length. }
  assert (Hfold : KK.matrix t
            = fold_left (KK.fill_column (KK.idToRow_of docIds))
                (imap (fun m l => ((0 + m)%nat, l)) modelLists)
                (repeat (repeat PrimFloat.neg_infinity (length modelLists))
                        (length docIds))) by reflexivity.
  assert (Hall : forall (i j : nat) d, docIds !! i = Some d ->
            table_shape docIds (length modelLists) (KK.matrix t)
            /\ KK.cell (KK.matrix t) i j
               = match modelLists !! (j - 0)%nat with
                 | Some list =>
                     if decide (0 <= j)%nat
                     then default (KK.cell (repeat (repeat PrimFloat.neg_infinity
                                             (length modelLists)) (length docIds)) i j)
                                  (last_score list d)
                     else KK.cell (repeat (repeat PrimFloat.neg_infinity
                                     (length modelLists)) (length docIds)) i j
                 | None => KK.cell (repeat (repeat PrimFloat.neg_infinity
                                     (length modelLists)) (length docIds)) i j
                 end).
  { intros i j d Hi. rewrite Hfold.
    apply (fill_lists_cell docIds (length modelLists) modelLists Hnd 0%nat _ i j d Hsh0);
      [simpl; lia|exact Hi|].
    intros list r Hl Hr. apply Hmem. eauto. }
  split; [exact Hnd|]. split; [exact Hmem|].
  assert (Hshape : table_shape docIds (length modelLists) (KK.matrix t)).
  { rewrite Hfold. clear Hall Hfold.
    assert (H : forall l mx, table_shape docIds (length modelLists) mx ->
              table_shape docIds (length modelLists)
                (fold_left (KK.fill_column (KK.idToRow_of docIds)) l mx)).
    { induction l as [|[m lst] l IHl]; intros mx Hmx; [exact Hmx|].
      simpl. apply IHl. unfold KK.fill_column. simpl. now apply fill_list_shape. }
    apply H, Hsh0. }
  destruct Hshape as [Hl Hr]. split; [exact Hl|]. split; [exact Hr|].
  intros i m d list Hi Hm.
  destruct (Hall i m d Hi) as [_ Hc]. rewrite Hc, Nat.sub_0_r, Hm.
  destruct (decide (0 <= m)%nat); [|lia].
  rewrite cell_repeat; [reflexivity| |].
  - now apply lookup_lt_Some in Hi.
  - now apply lookup_lt_Some in Hm.
Qed.

(** X23.  [prepareScoreTable] lists every id of the model lists exactly
    once, builds a matrix with one row per id and one column per model,
    and sets the cell of document [d] and model [m] to the last score that
    list [m] gives to [d], or to [-Infinity] if it gives none. *)
Theorem prepareScoreTable_spec (modelLists : list (list KK.Scored)) :
  let t := KK.prepareScoreTable modelLists in
  NoDup (KK.docIds t)
  /\ (forall d, d ∈ KK.docIds t
        <-> exists list r, list ∈ modelLists /\ r ∈ list /\ KK.id r = d)
  /\ length (KK.matrix t) = length (KK.docIds t)
  /\ Forall (fun row => length row = length modelLists) (KK.matrix t)
  /\ (forall (i m : nat) d list,
        KK.docIds t !! i = Some d -> modelLists !! m = Some list ->
        KK.cell (KK.matrix t) i m
        = default PrimFloat.neg_infinity (last_score list d)).
Proof. exact (prepareScoreTable_facts modelLists). Qed.

(** ** Rank fusion: the ranks *)

Section Ranks.
Variables N M : nat.


Lemma put_rank_shape m ranks rr : ranks_shape N M ranks -> ranks_shape N M (KK.put_rank m ranks rr).
Proof.
  intros [Hl Hr]. unfold KK.put_rank. split; [now rewrite set_cell_length|].
  apply set_cell_rows; [|exact Hr]. intros row <-. apply length_insert.
Qed.

Lemma put_rank_at m ranks rr (i j : nat) :
  ranks_shape N M ranks -> (m < M)%nat -> (i < N)%nat ->
  rank_at (KK.put_rank m ranks rr) i j
  = if decide (i = snd rr /\ j = m) then Z.of_nat (fst rr) + 1 else rank_at ranks i j.
Proof.
  intros [Hl Hr] Hm Hi. unfold KK.put_rank, rank_at.
  destruct (lookup_lt_is_Some_2 ranks i) as [row Hrow]; [lia|].
  assert (Hrl : length row = M).
  { rewrite List.Forall_forall in Hr. apply Hr.
    eapply list_elem_of_In, list_elem_of_lookup_2, Hrow. }
  assert (Hn : forall (mx' : list (list Z)) row',
             mx' !! i = Some row' -> nth i mx' [] = row').
  { intros mx' row' H. now apply nth_lookup_Some. }
  rewrite (Hn ranks row Hrow).
  destruct (decide (i = snd rr)) as [E|E].
  - rewrite (Hn _ (<[m := Z.of_nat (fst rr) + 1]> row)).
    2:{ rewrite set_cell_lookup. destruct (decide (i = snd rr)); [|contradiction].
        now rewrite Hrow. }
    destruct (decide (j = m)) as [->|Hjm].
    + destruct (decide _) as [_|Hn']; [|tauto].
      apply nth_lookup_Some. apply list_lookup_insert_eq. lia.
    + destruct (decide _) as [[_ ?]|_]; [contradiction|].
      rewrite !nth_lookup. now rewrite list_lookup_insert_ne by congruence.
  - rewrite (Hn _ row).
    2:{ rewrite set_cell_lookup. destruct (decide (i = snd rr)); [contradiction|exact Hrow]. }
    destruct (decide _) as [[? _]|_]; [contradiction|reflexivity].
Qed.

Lemma put_ranks_shape m pairs : forall ranks,
  ranks_shape N M ranks -> ranks_shape N M (fold_left (KK.put_rank m) pairs ranks).
Proof.
  induction pairs as [|rr pairs IH]; intros ranks H; simpl; [exact H|].
  apply IH, put_rank_shape, H.
Qed.

Lemma put_ranks_other m pairs : forall ranks (i j : nat),
  ranks_shape N M ranks -> (m < M)%nat -> (i < N)%nat ->
  (j <> m \/ i ∉ map snd pairs) ->
  rank_at (fold_left (KK.put_rank m) pairs ranks) i j = rank_at ranks i j.
Proof.
  induction pairs as [|rr pairs IH]; intros ranks i j Hsh Hm Hi Ho; simpl; [reflexivity|].
  rewrite IH; try assumption.
  - rewrite put_rank_at by assumption.
    destruct (decide _) as [[-> ->]|_]; [|reflexivity].
    destruct Ho as [Ho|Ho]; [congruence|]. exfalso. apply Ho. simpl. apply list_elem_of_here.
  - now apply put_rank_shape.
  - destruct Ho as [Ho|Ho]; [now left|right].
    intros Hin. apply Ho. simpl. now apply list_elem_of_further.
Qed.

Lemma put_ranks_at m pairs : forall ranks (r i : nat),
  ranks_shape N M ranks -> (m < M)%nat -> (i < N)%nat ->
  NoDup (map snd pairs) -> (r, i) ∈ pairs ->
  rank_at (fold_left (KK.put_rank m) pairs ranks) i m = Z.of_nat r + 1.
Proof.
  induction pairs as [|rr pairs IH]; intros ranks r i Hsh Hm Hi Hnd Hin; simpl.
  - now apply elem_of_nil in Hin.
  - simpl in Hnd. apply NoDup_cons in Hnd as [Hrr Hnd].
    apply elem_of_cons in Hin as [<-|Hin].
    + rewrite put_ranks_other; try assumption.
      * rewrite put_rank_at by assumption. simpl.
        destruct (decide _) as [_|Hn]; [reflexivity|tauto].
      * now apply put_rank_shape.
      * right. exact Hrr.
    + apply IH; try assumption. now apply put_rank_shape.
Qed.
End Ranks.

Lemma imap_pairs_snd {A : Type} (l : list A) :
  map snd (imap (fun r x => (r, x)) l) = l.
Proof.
  induction l as [|x l IH] using rev_ind; [reflexivity|].
  rewrite imap_app, map_app, IH. reflexivity.
Qed.

Section Column.
Variable matrix : list (list float).
Variable M : nat.
Variable m : nat.
Hypothesis m_lt : (m < M)%nat.


Lemma column_order_perm : Permutation (KK.column_order matrix m) (seq 0 (length matrix)).
Proof. apply sort_by_perm. Qed.

Lemma rank_column_shape ranks :
  ranks_shape (length matrix) M ranks -> ranks_shape (length matrix) M (KK.rank_column matrix ranks m).
Proof. intros H. unfold KK.rank_column. now apply put_ranks_shape. Qed.

Lemma rank_column_other ranks (i j : nat) :
  ranks_shape (length matrix) M ranks -> (i < (length matrix))%nat -> j <> m ->
  rank_at (KK.rank_column matrix ranks m) i j = rank_at ranks i j.
Proof.
  intros Hsh Hi Hj. unfold KK.rank_column.
  apply (put_ranks_other (length matrix) M); try assumption. now left.
Qed.

Lemma rank_column_at ranks (r i : nat) :
  ranks_shape (length matrix) M ranks -> (KK.column_order matrix m) !! r = Some i ->
  rank_at (KK.rank_column matrix ranks m) i m = Z.of_nat r + 1.
Proof.
  intros Hsh Hr. unfold KK.rank_column.
  apply (put_ranks_at (length matrix) M); try assumption.
  - apply list_elem_of_lookup_2, list_elem_of_In in Hr.
    apply (Permutation_in _ column_order_perm), in_seq in Hr. lia.
  - rewrite imap_pairs_snd. rewrite column_order_perm. apply NoDup_ListNoDup, seq_NoDup.
  - apply (elem_of_lookup_imap_2 (fun r x => (r, x)) _ _ _ Hr).
Qed.
End Column.

Lemma rank_columns (matrix : list (list float)) (M : nat) (cols : list nat) :
  forall ranks,
  ranks_shape (length matrix) M ranks -> NoDup cols -> Forall (fun c => (c < M)%nat) cols ->
  let ranks' := fold_left (KK.rank_column matrix) cols ranks in
  ranks_shape (length matrix) M ranks'
  /\ forall (m r i : nat), m ∈ cols ->
       KK.column_order matrix m !! r = Some i ->
       rank_at ranks' i m = Z.of_nat r + 1.
Proof.
  induction cols as [|c cols IH] using rev_ind; intros ranks Hsh Hnd Hc.
  - split; [exact Hsh|]. intros m r i Hm. now apply elem_of_nil in Hm.
  - apply NoDup_app in Hnd as (Hnd & Hdisj & _).
    apply Forall_app in Hc as [Hc Hc1]. apply Forall_cons_1 in Hc1 as [Hc1 _].
    destruct (IH ranks Hsh Hnd Hc) as [Hsh' Hat].
    cbv zeta. rewrite fold_left_app. simpl. split.
    + now apply rank_column_shape.
    + intros m r i Hm Hr.
      assert (Hi : (i < length matrix)%nat).
      { apply list_elem_of_lookup_2, list_elem_of_In in Hr.
        apply (Permutation_in _ (column_order_perm matrix m)), in_seq in Hr. lia. }
      apply elem_of_app in Hm as [Hm|Hm].
      * rewrite (rank_column_other matrix M c); try assumption.
        -- now apply Hat.
        -- intros ->. apply (Hdisj c Hm), list_elem_of_here.
      * apply list_elem_of_singleton in Hm as ->.
        now apply (rank_column_at matrix M c Hc1).
Qed.

Lemma map_rank_at (ranks : list (list Z)) (m : nat) :
  map (fun row => nth m row 0) ranks
  = map (fun i => rank_at ranks i m) (seq 0 (length ranks)).
Proof.
  unfold rank_at. rewrite <- (map_nth_seq ranks []) at 1.
  now rewrite map_map.
Qed.

(** X24.  [ranksFromMatrix] returns a table of the matrix's height whose
    rows have the length of the first matrix row; each of its columns is a
    permutation of [1..N]; and, in a column of scores without [NaN], a row
    of smaller rank has a score at least as large. *)
Theorem ranksFromMatrix_spec (matrix : list (list float)) :
  let N := length matrix in
  let M := length (nth 0 matrix []) in
  let ranks := KK.ranksFromMatrix matrix in
  length ranks = N
  /\ Forall (fun row => length row = M) ranks
  /\ forall m, (m < M)%nat ->
       Permutation (map (fun row => nth m row 0) ranks) (map Z.of_nat (seq 1 N))
       /\ (Forall (fun i => not_nan (KK.cell matrix i m)) (seq 0 N) ->
           forall i j, (i < N)%nat -> (j < N)%nat ->
             rank_at ranks i m < rank_at ranks j m ->
             le_num (KK.cell matrix j m) (KK.cell matrix i m)).
Proof.
  intros N M ranks.
  assert (Hsh0 : ranks_shape N M (repeat (repeat (Z.of_nat N) M) N)).
  { split; [apply repeat_length|]. apply List.Forall_forall. intros row Hrow.
    apply repeat_spec in Hrow. subst row. apply repeat_length. }
  destruct (rank_columns matrix M (seq 0 M) _ Hsh0) as [[Hl Hr] Hat].
  { apply NoDup_ListNoDup, seq_NoDup. }
  { apply List.Forall_forall. intros c Hc. apply in_seq in Hc. lia. }
  change (length ranks = N) in Hl.
  change (Forall (fun row => length row = M) ranks) in Hr.
  assert (Hat' : forall m r i : nat, m ∈ seq 0 M ->
            KK.column_order matrix m !! r = Some i ->
            rank_at ranks i m = Z.of_nat r + 1) by exact Hat.
  clear Hat. rename Hat' into Hat.
  split; [exact Hl|]. split; [exact Hr|].
  intros m Hm.
  set (order := KK.column_order matrix m).
  assert (Hperm : Permutation order (seq 0 N)) by apply sort_by_perm.
  assert (Hmc : m ∈ seq 0 M) by (apply list_elem_of_In, in_seq; lia).
  assert (Hord : map (fun i => rank_at ranks i m) order = map Z.of_nat (seq 1 N)).
  { apply list_eq. intros r. rewrite !list_lookup_fmap.
    destruct (order !! r) as [i|] eqn:Hr'; simpl.
    - rewrite (Hat m r i Hmc Hr'). apply lookup_lt_Some in Hr'.
      rewrite (Permutation_length Hperm), length_seq in Hr'.
      rewrite lookup_seq_lt by exact Hr'. simpl. f_equal. lia.
    - apply lookup_ge_None in Hr'.
      rewrite (Permutation_length Hperm), length_seq in Hr'.
      now rewrite lookup_seq_ge. }
  split.
  - rewrite map_rank_at, Hl, <- Hord. apply Permutation_map. now symmetry.
  - intros Hnn i j Hi Hj Hlt.
    assert (Hidx : forall i, (i < N)%nat -> exists r, order !! r = Some i).
    { intros i' Hi'. apply list_elem_of_lookup_1, list_elem_of_In.
      apply (Permutation_in _ (Permutation_sym Hperm)), in_seq. lia. }
    destruct (Hidx i Hi) as (ri & Hri). destruct (Hidx j Hj) as (rj & Hrj).
    rewrite (Hat m ri i Hmc Hri), (Hat m rj j Hmc Hrj) in Hlt.
    pose proof (sort_desc_strongly (fun i => KK.cell matrix i m) (seq 0 N) Hnn) as Hs.
    apply (StronglySorted_lookup _ _ ri rj i j Hs); [lia|exact Hri|exact Hrj].
Qed.

(** ** Rank fusion: the fused ranking *)

Lemma by_score_ids (docIds : list Z) (scores : list float) :
  Permutation (map KK.id (KK.by_score docIds scores)) docIds.
Proof.
  unfold KK.by_score. rewrite map_map. simpl.
  etransitivity; [apply Permutation_map, sort_by_perm|].
  now rewrite map_nth_seq.
Qed.

Lemma by_score_sorted (docIds : list Z) (scores : list float) :
  Forall (fun r => not_nan (KK.s_score r)) (KK.by_score docIds scores) ->
  StronglySorted (fun a b => le_num (KK.s_score b) (KK.s_score a))
                 (KK.by_score docIds scores).
Proof.
  unfold KK.by_score. intros Hnn.
  set (order := sort_by _ (seq 0 (length docIds))) in *.
  assert (Hkey : Forall (fun i => not_nan (at_num scores i)) (seq 0 (length docIds))).
  { eapply Permutation_Forall; [apply sort_by_perm|].
    fold order. apply List.Forall_forall. intros i Hi.
    rewrite List.Forall_forall in Hnn.
    apply (Hnn {| KK.id := nth i docIds 0; KK.s_score := at_num scores i |}).
    apply in_map_iff. exists i. split; [reflexivity|exact Hi]. }
  assert (Hs : StronglySorted (fun i j => le_num (at_num scores j) (at_num scores i)) order)
    by exact (sort_desc_strongly (fun i => at_num scores i) _ Hkey).
  clearbody order. clear Hkey. induction Hs as [|i l Hs IH Hi]; simpl; constructor.
  - apply IH. now inversion Hnn.
  - apply List.Forall_forall. intros r Hr. apply in_map_iff in Hr as (j & <- & Hj).
    simpl. rewrite List.Forall_forall in Hi. now apply Hi.
Qed.

Lemma prepareScoreTable_shape (modelLists : list (list KK.Scored)) :
  length (KK.matrix (KK.prepareScoreTable modelLists))
  = length (KK.docIds (KK.prepareScoreTable modelLists)).
Proof. apply prepareScoreTable_facts. Qed.

(** X25.  [rrfFusion], [bordaFusion] and [combMNZFusion] return every
    distinct document id of the model lists exactly once.  [linearFusion]
    does the same when there is at least one document, and throws when
    there is none (it reads [matrix[0].length]), where the other three
    return the empty ranking. *)
Theorem fusion_ids (modelLists : list (list KK.Scored)) (k : float)
    (weights : option (list float)) (norm : string) :
  let ids := KK.docIds (KK.prepareScoreTable modelLists) in
  NoDup ids
  /\ (forall d, d ∈ ids
        <-> exists list r, list ∈ modelLists /\ r ∈ list /\ KK.id r = d)
  /\ Permutation (map KK.id (KK.rrfFusion modelLists k)) ids
  /\ Permutation (map KK.id (KK.bordaFusion modelLists)) ids
  /\ Permutation (map KK.id (KK.combMNZFusion modelLists norm)) ids
  /\ (ids = [] -> throws (KK.linearFusion modelLists weights norm))
  /\ (ids <> [] -> exists out, KK.linearFusion modelLists weights norm = Ok out
                     /\ Permutation (map KK.id out) ids).
Proof.
  intros ids.
  destruct (prepareScoreTable_facts modelLists) as (Hnd & Hmem & _).
  pose proof (prepareScoreTable_shape modelLists) as Hlen. fold ids in Hlen.
  split; [exact Hnd|]. split; [exact Hmem|].
  split; [apply by_score_ids|]. split; [apply by_score_ids|].
  split; [apply by_score_ids|].
  unfold KK.linearFusion.
  destruct (KK.matrix (KK.prepareScoreTable modelLists)) as [|row0 mx].
  - split; [intros _; exact I|]. intros Hne. exfalso. apply Hne.
    destruct ids; [reflexivity|discriminate Hlen].
  - split.
    + intros E. rewrite E in Hlen. discriminate Hlen.
    + intros _. eexists. split; [reflexivity|apply by_score_ids].
Qed.

(** X26.  Whenever the fused scores hold no [NaN], the ranking returned
    by [rrfFusion], [bordaFusion], [combMNZFusion] and [linearFusion] is
    in descending order of score. *)
Theorem fusion_sorted (modelLists : list (list KK.Scored)) (k : float)
    (weights : option (list float)) (norm : string) :
  let descending (out : list KK.Scored) :=
    Forall (fun r => not_nan (KK.s_score r)) out ->
    StronglySorted (fun a b => le_num (KK.s_score b) (KK.s_score a)) out in
  descending (KK.rrfFusion modelLists k)
  /\ descending (KK.bordaFusion modelLists)
  /\ descending (KK.combMNZFusion modelLists norm)
  /\ (forall out, KK.linearFusion modelLists weights norm = Ok out -> descending out).
Proof.
  intros descending. unfold descending.
  split; [apply by_score_sorted|]. split; [apply by_score_sorted|].
  split; [apply by_score_sorted|].
  intros out. unfold KK.linearFusion.
  destruct (KK.matrix _); [discriminate|]. intros [= <-]. apply by_score_sorted.
Qed.

(** * More of rh-sparse.js, and index.js *)

(** ** The anomaly trace *)

Section TraceFacts.
Variable enc : list float -> result RhSparse.Signature.
Variable gaps : list float.
Variable window : nat.

Lemma trace_loop_entries (todo : list nat) : forall det trace,
  RhSparse.trace_loop enc gaps window det todo = Ok trace ->
  length trace = length todo
  /\ forall k entry, trace !! k = Some entry ->
       exists i, todo !! k = Some i
         /\ RhSparse.window entry = Z.of_nat i
         /\ enc (RhSparse.window_slice gaps window i) = Ok (RhSparse.signature entry)
         /\ let t := run_tracker det (map RhSparse.signature (take k trace)) in
            let sc := fst (RhSparse.update_and_score t (RhSparse.signature entry)) in
            RhSparse.score entry = RhSparse.combined sc
            /\ RhSparse.per_scale entry = RhSparse.per sc.
Proof.
  induction todo as [|i rest IH]; intros det trace; cbn [RhSparse.trace_loop].
  - intros H. injection H as <-. split; [reflexivity|]. intros k entry Hk. discriminate Hk.
  - destruct (enc (RhSparse.window_slice gaps window i)) as [sig|] eqn:Hsig; [|discriminate].
    cbn [bind].
    destruct (RhSparse.update_and_score det sig) as [sc det'] eqn:Hup.
    destruct (RhSparse.trace_loop enc gaps window det' rest) as [tl|] eqn:Htl;
      [|discriminate].
    cbn [bind]. intros H. injection H as <-. destruct (IH det' tl Htl) as [Hlen Hent].
    split; [cbn [length]; now rewrite Hlen|].
    assert (Hdet : det' = snd (RhSparse.update_and_score det sig)) by now rewrite Hup.
    intros [|k] entry Hk; cbn in Hk.
    + injection Hk as <-. exists i. cbn [RhSparse.window RhSparse.signature
        RhSparse.score RhSparse.per_scale take map].
      change (run_tracker det []) with det. rewrite Hup.
      repeat split; reflexivity || assumption.
    + destruct (Hent k entry Hk) as (j & Hj & Hw & He & Hs).
      exists j. split; [exact Hj|]. split; [exact Hw|]. split; [exact He|].
      cbn [take map RhSparse.signature].
      change (run_tracker det (sig :: map RhSparse.signature (take k tl)))
        with (run_tracker (snd (RhSparse.update_and_score det sig))
                          (map RhSparse.signature (take k tl))).
      rewrite <- Hdet. exact Hs.
Qed.

Lemma trace_loop_total (todo : list nat) : forall det,
  (forall i, In i todo -> ~ throws (enc (RhSparse.window_slice gaps window i))) ->
  exists trace, RhSparse.trace_loop enc gaps window det todo = Ok trace.
Proof.
  induction todo as [|i rest IH]; intros det Hok; cbn [RhSparse.trace_loop]; [eauto|].
  pose proof (Hok i (or_introl eq_refl)) as Hi.
  destruct (enc (RhSparse.window_slice gaps window i)) as [sig|]; [|now destruct Hi]. cbn [bind].
  destruct (RhSparse.update_and_score det sig) as [sc det'].
  destruct (IH det' (fun j Hj => Hok j (or_intror Hj))) as [tl ->]. cbn [bind]. eauto.
Qed.
End TraceFacts.

Lemma anomaly_trace_facts
    (rh_encode : Z -> Z -> string -> list float -> result RhSparse.Signature)
    (gaps : list float) (window : nat) (scales : list Z) (dim topk knn_k : Z)
    (seed : string) :
  let enc := rh_encode dim topk seed in
  let win := RhSparse.window_slice gaps window in
  let call := RhSparse.anomaly_trace_from_rh rh_encode (Some gaps) window scales
                dim topk knn_k seed in
  ((length gaps < window + 2)%nat ->
     call = Throw "Insufficient gaps. Need at least window + 2 elements.")
  /\ ((window + 2 <= length gaps)%nat ->
      (forall i, (window <= i < length gaps)%nat -> ~ throws (enc (RhSparse.window_slice gaps window i))) ->
      exists trace, call = Ok trace)
  /\ (forall trace, call = Ok trace ->
        (window + 2 <= length gaps)%nat
        /\ length trace = (length gaps - window)%nat
        /\ forall k entry, trace !! k = Some entry ->
             RhSparse.window entry = Z.of_nat (window + k)
             /\ enc (win (window + k)%nat) = Ok (RhSparse.signature entry)
             /\ let t := run_tracker (RhSparse.new_tracker scales knn_k)
                           (map RhSparse.signature (take k trace)) in
                let sc := fst (RhSparse.update_and_score t (RhSparse.signature entry)) in
                RhSparse.score entry = RhSparse.combined sc
                /\ RhSparse.per_scale entry = RhSparse.per sc).
Proof.
  intros enc win call. unfold call, win, RhSparse.anomaly_trace_from_rh.
  destruct (Nat.ltb_spec (length gaps) (window + 2)) as [Hlt|Hge].
  - split; [reflexivity|]. split; [lia|]. discriminate.
  - split; [lia|]. split.
    + intros _ Hok. apply trace_loop_total. intros i Hi. apply in_seq in Hi.
      apply Hok. lia.
    + intros trace Ht. split; [exact Hge|].
      destruct (trace_loop_entries _ _ _ _ _ _ Ht) as [Hlen Hent].
      rewrite length_seq in Hlen. split; [exact Hlen|].
      intros k entry Hk. destruct (Hent k entry Hk) as (i & Hi & Hw & He & Hs).
      apply lookup_seq in Hi as [-> _]. repeat split; try assumption; apply Hs.
Qed.

(** X28.  [anomaly_trace_from_rh] throws when there are fewer than
    [window + 2] gaps; otherwise, if the encoder returns on every window,
    it returns a trace; and a trace it returns has one entry per index
    [i = window, ..., n - 1], carrying [i], the signature of
    [gaps.slice(i - window, i)], and the scores that [update_and_score]
    gives to that signature on a fresh tracker fed the earlier
    signatures. *)
Theorem anomaly_trace_from_rh_spec
    (rh_encode : Z -> Z -> string -> list float -> result RhSparse.Signature)
    (gaps : list float) (window : nat) (scales : list Z) (dim topk knn_k : Z)
    (seed : string) :
  let enc := rh_encode dim topk seed in
  let win := RhSparse.window_slice gaps window in
  let call := RhSparse.anomaly_trace_from_rh rh_encode (Some gaps) window scales
                dim topk knn_k seed in
  ((length gaps < window + 2)%nat ->
     call = Throw "Insufficient gaps. Need at least window + 2 elements.")
  /\ ((window + 2 <= length gaps)%nat ->
      (forall i, (window <= i < length gaps)%nat -> ~ throws (enc (win i))) ->
      exists trace, call = Ok trace)
  /\ (forall trace, call = Ok trace ->
        (window + 2 <= length gaps)%nat
        /\ length trace = (length gaps - window)%nat
        /\ forall k entry, trace !! k = Some entry ->
             RhSparse.window entry = Z.of_nat (window + k)
             /\ enc (win (window + k)%nat) = Ok (RhSparse.signature entry)
             /\ let t := run_tracker (RhSparse.new_tracker scales knn_k)
                           (map RhSparse.signature (take k trace)) in
                let sc := fst (RhSparse.update_and_score t (RhSparse.signature entry)) in
                RhSparse.score entry = RhSparse.combined sc
                /\ RhSparse.per_scale entry = RhSparse.per sc).
Proof.
  exact (anomaly_trace_facts rh_encode gaps window scales dim topk knn_k seed).
Qed.

(** ** The facade *)

Lemma calibrate_ok (d : USADetector) (samples : list (list float)) :
  salts_ok (d_hashing d) -> 0 < d_k d -> 0 < dim (d_hashing d) ->
  alpha_in_unit (d_alpha d) -> samples <> [] ->
  exists t d', calibrate d samples = Ok (t, d').
Proof.
  intros Hs Hk HD Ha Hne. unfold calibrate.
  destruct (encode_all_total d samples Hk HD Hs) as (sigs & -> & Hlen). simpl bind.
  destruct (Nat.eqb_spec (length sigs) 0) as [E|E].
  { destruct samples; [contradiction|simpl in Hlen; lia]. }
  set (scores := imap (loo_score (d_kNN d) sigs) sigs).
  pose proof (conformalQuantile_throws scores (d_alpha d)) as Hq.
  destruct (conformalQuantile scores (d_alpha d)) as [t|msg]; simpl; [eauto|].
  exfalso. destruct (proj1 Hq I) as [Hnil|Hn]; [|contradiction].
  apply (f_equal (@length _)) in Hnil. unfold scores in Hnil.
  rewrite length_imap in Hnil. simpl in Hnil. contradiction.
Qed.

Lemma predict_ok (d : USADetector) (x : list float) :
  calibrated d -> salts_ok (d_hashing d) ->
  Z.of_nat (length (calScores d)) < 2 ^ 32 ->
  exists s t, thr d = Some t
    /\ predict d x = Ok {| isAnomaly := num_gt s t; score := s; p_threshold := t |}.
Proof.
  intros Hcal Hs Hlen.
  destruct (calibrated_facts d Hcal) as (Hl & Hn & Hq & Hk & HD).
  destruct (encode_total x {| k := d_k d; hashing := d_hashing d; clipQuantile := d_clip d |}
              Hk HD Hs) as [sx Hsx].
  destruct (conformalQuantile_value (calScores d) (d_alpha d)) as (k0 & t & _ & _ & Hv);
    [lia|exact Hlen|now apply calibrated_alpha|].
  rewrite Hq in Hv. injection Hv as Ht.
  eexists _, t. split; [exact Ht|].
  unfold predict, nonconformity, threshold.
  destruct (Nat.eqb_spec (length (calSigs d)) 0) as [E|_]; [lia|].
  unfold encode. rewrite Hsx, Ht. reflexivity.
Qed.

(** X29.  On a new [MathObjectEncoder], [detectAnomaly] throws
    ["not calibrated"]; [calibrateAnomaly] throws exactly on an empty list
    of sequences; and after it has returned, [detectAnomaly] returns on
    every sequence, with the calibrated threshold and
    [isAnomaly = (score > threshold)]. *)
Theorem detectAnomaly_after_calibrate (seqs : list (list float)) (x : list float) :
  Z.of_nat (length seqs) < 2 ^ 32 ->
  Index.detectAnomaly Index.new_encoder x = Throw "not calibrated"
  /\ (throws (Index.calibrateAnomaly Index.new_encoder seqs) <-> seqs = [])
  /\ (forall m, Index.calibrateAnomaly Index.new_encoder seqs = Ok m ->
        exists s t,
          thr (Index.usad m) = Some t
          /\ Index.detectAnomaly m x
             = Ok {| isAnomaly := num_gt s t; score := s; p_threshold := t |}).
Proof.
  intros Hlen. split; [reflexivity|].
  assert (Hs : salts_ok (d_hashing (Index.usad Index.new_encoder)))
    by (split; vm_compute; lia).
  unfold Index.calibrateAnomaly. split.
  - destruct seqs as [|v rest].
    + split; [reflexivity|intros _; exact I].
    + destruct (calibrate_ok (Index.usad Index.new_encoder) (v :: rest))
        as (t & d' & ->); try assumption; try reflexivity; try discriminate.
      * split; reflexivity.
      * simpl. split; [contradiction|discriminate].
  - intros m. destruct (calibrate _ seqs) as [[t d']|] eqn:Hc; [|discriminate].
    simpl. intros [= <-]. simpl. unfold Index.detectAnomaly. simpl.
    assert (Hcal : calibrated d') by (econstructor; exact Hc).
    apply predict_ok; [exact Hcal| |].
    + assert (E : d_hashing d' = d_hashing (Index.usad Index.new_encoder)).
      { unfold calibrate in Hc. destruct (encode_all _ _); [|discriminate].
        simpl bind in Hc. destruct (_ =? _)%nat; [discriminate|].
        destruct (conformalQuantile _ _); [|discriminate]. simpl in Hc.
        now injection Hc as _ <-. }
      rewrite E. exact Hs.
    + assert (E : length (calScores d') = length seqs).
      { unfold calibrate in Hc. destruct (encode_all _ _) as [sigs|] eqn:He; [|discriminate].
        simpl bind in Hc. destruct (_ =? _)%nat; [discriminate|].
        destruct (conformalQuantile _ _); [|discriminate]. simpl in Hc.
        injection Hc as _ <-. simpl. rewrite length_imap.
        eapply encode_all_length, He. }
      rewrite E. exact Hlen.
Qed.

Lemma detectAnomaly_after_calibrate_witness :
  Index.detectAnomaly Index.new_encoder [1; 2; 3]%float = Throw "not calibrated"
  /\ (throws (Index.calibrateAnomaly Index.new_encoder [[1; 5; 2]%float]) <-> [[1; 5; 2]%float] = [])
  /\ (forall m, Index.calibrateAnomaly Index.new_encoder [[1; 5; 2]%float] = Ok m ->
        exists s t,
          thr (Index.usad m) = Some t
          /\ Index.detectAnomaly m [1; 2; 3]%float
             = Ok {| isAnomaly := num_gt s t; score := s; p_threshold := t |}).
Proof.
  apply (detectAnomaly_after_calibrate [[1; 5; 2]%float] [1; 2; 3]%float).
  reflexivity.
Defined.

(** X30.  [encodeSequence] with type ["gaps"] throws on a sequence of
    fewer than 259 entries (its 258 gaps do not fill the window of 256);
    on a longer one it returns, if the encoder does, an [rh_trace] with
    [n - 257] scores and signatures, the first score being [1]; with
    ["values"] and ["ratios"] it passes the sequence, or its ratios over
    the non-zero predecessors, to [encodeNumerical]; any other type throws
    ["Unknown encoding type: "] followed by the type. *)
Theorem encodeSequence_dispatch
    (rh_encode : Z -> Z -> string -> list float -> result RhSparse.Signature)
    (Numerical : Type) (encodeNumerical : list float -> result Numerical)
    (sequence : list float) (type : string) :
  let call := Index.encodeSequence rh_encode Numerical encodeNumerical sequence type in
  (type = "gaps"%string -> (length sequence < 259)%nat ->
     call = Throw "Insufficient gaps. Need at least window + 2 elements.")
  /\ (type = "gaps"%string -> forall e, call = Ok e ->
        exists t, e = Index.rh_trace Numerical t
          /\ (259 <= length sequence)%nat
          /\ length (Index.anomalyScores t) = (length sequence - 257)%nat
          /\ length (Index.signatures t) = (length sequence - 257)%nat
          /\ Index.anomalyScores t !! 0%nat = Some 1%float)
  /\ (type = "gaps"%string -> (259 <= length sequence)%nat ->
      (forall x, ~ throws (rh_encode 4096 128 "rh_sparse_demo"%string x)) ->
      exists e, call = Ok e)
  /\ (type = "values"%string ->
        call = do n <- encodeNumerical sequence; Ok (Index.numerical Numerical n))
  /\ (type = "ratios"%string ->
        call = do n <- encodeNumerical (Index.ratios_of sequence);
               Ok (Index.numerical Numerical n))
  /\ (type <> "gaps"%string -> type <> "values"%string -> type <> "ratios"%string ->
        call = Throw ("Unknown encoding type: " ++ type)).
Proof.
  intros call. unfold call, Index.encodeSequence.
  assert (Hgl : length (Index.normalized_of sequence (Index.gaps_of sequence))
                = (length sequence - 1)%nat).
  { unfold Index.normalized_of, Index.gaps_of.
    now rewrite length_imap, length_map, length_seq. }
  repeat split.
  - intros -> Hlen. simpl String.eqb. cbv iota. unfold Index.encodeRHStyle.
    destruct (anomaly_trace_facts rh_encode
                (Index.normalized_of sequence (Index.gaps_of sequence))
                256 [64; 256; 1024] 4096 128 5 "rh_sparse_demo") as (Hthrow & _).
    rewrite Hthrow by (rewrite Hgl; lia). reflexivity.
  - intros -> e. simpl String.eqb. cbv iota. unfold Index.encodeRHStyle.
    destruct (anomaly_trace_facts rh_encode
                (Index.normalized_of sequence (Index.gaps_of sequence))
                256 [64; 256; 1024] 4096 128 5 "rh_sparse_demo") as (_ & _ & Hok).
    destruct (RhSparse.anomaly_trace_from_rh _ _ _ _ _ _ _ _) as [trace|]; [|discriminate].
    simpl. intros [= <-]. destruct (Hok trace eq_refl) as (Hge & Hlen & Hent).
    rewrite Hgl in Hge, Hlen. eexists. split; [reflexivity|]. simpl.
    rewrite !length_map. repeat split; try lia.
    destruct (lookup_lt_is_Some_2 trace 0) as [entry He]; [lia|].
    rewrite list_lookup_fmap, He. simpl. f_equal.
    destruct (Hent 0%nat entry He) as (_ & _ & Hsc & _). rewrite Hsc. reflexivity.
  - intros -> Hlen Hok. simpl String.eqb. cbv iota. unfold Index.encodeRHStyle.
    destruct (anomaly_trace_facts rh_encode
                (Index.normalized_of sequence (Index.gaps_of sequence))
                256 [64; 256; 1024] 4096 128 5 "rh_sparse_demo") as (_ & Htot & _).
    destruct Htot as [trace ->]; [rewrite Hgl; lia|intros i _; apply Hok|].
    simpl. eauto.
  - intros ->. reflexivity.
  - intros ->. reflexivity.
  - intros H1 H2 H3.
    destruct (String.eqb_spec type "gaps"); [contradiction|].
    destruct (String.eqb_spec type "values"); [contradiction|].
    destruct (String.eqb_spec type "ratios"); [contradiction|]. reflexivity.
Qed.

(** * Collisions in a run of the encoder *)

(** ** The loop body through its decision *)

Lemma place_choose (h : Hashing) (elev : list float) (s : slots) (orig : nat) :
  place h elev s orig
  = do c <- choose h elev s orig;
    Ok (match c with
        | Some p => claim s p (at_num elev orig)
        | None => s
        end).
Proof.
  unfold place, choose.
  destruct (strict_eq _ _); [reflexivity|].
  destruct (blake2bIndex _ _ (default DEFAULT_SALT1 _)) as [p1|]; [|reflexivity].
  simpl bind. destruct (bool_decide _); [|reflexivity].
  destruct (default true _).
  - destruct (blake2bIndex _ _ (default DEFAULT_SALT2 _)) as [p2|]; [|reflexivity].
    simpl bind. destruct (negb _); [reflexivity|].
    destruct (beats _ _ _); reflexivity.
  - destruct (beats _ _ _); reflexivity.
Qed.

(** The loop with the record of holders computes the slots of the loop
    without it, and throws when it throws. *)
Lemma place_owned_slots (h : Hashing) (elev : list float) (so : owned) (orig : nat) :
  place h elev (o_slots so) orig
  = do so' <- place_owned h elev so orig; Ok (o_slots so').
Proof.
  rewrite place_choose. unfold place_owned.
  destruct (choose h elev (o_slots so) orig) as [[p|]|]; reflexivity.
Qed.

Lemma place_all_owned_slots (h : Hashing) (elev : list float) (idxs : list nat) :
  forall so,
    place_all h elev (o_slots so) idxs
    = do so' <- place_all_owned h elev so idxs; Ok (o_slots so').
Proof.
  induction idxs as [|orig rest IH]; intros so; simpl; [reflexivity|].
  rewrite place_owned_slots.
  destruct (place_owned h elev so orig) as [so1|]; [|reflexivity].
  simpl bind. apply IH.
Qed.

(** ** The holders are the features whose values the slots hold *)

Lemma owned_wf_empty (elev : list float) :
  owned_wf elev [] {| o_slots := empty_slots; owners := [] |}.
Proof.
  split; [reflexivity|]. split; [reflexivity|]. split.
  - intros p i H. simpl in H. now rewrite lookup_empty in H.
  - intros i inc H. simpl in H. now rewrite lookup_nil in H.
Qed.

Lemma owned_wf_more (elev : list float) (done : list nat) (orig : nat) (so : owned) :
  owned_wf elev done so -> owned_wf elev (done ++ [orig]) so.
Proof.
  intros (H1 & H2 & H3 & H4).
  split; [exact H1|]. split; [exact H2|]. split; [exact H3|].
  intros i inc Hi. destruct (H4 i inc Hi) as [Hin Hv].
  split; [apply in_or_app; now left|exact Hv].
Qed.

Lemma claim_owned_wf (elev : list float) (done : list nat) (orig : nat) (so : owned)
    (p : Z) :
  owned_wf elev done so ->
  owned_wf elev (done ++ [orig])
    {| o_slots := claim (o_slots so) p (at_num elev orig);
       owners := claim_owner (o_slots so) (owners so) p orig |}.
Proof.
  intros (H1 & H2 & H3 & H4). unfold claim, claim_owner.
  destruct (taken (o_slots so) !! p) as [i|] eqn:Ht; simpl.
  - pose proof (H3 _ _ Ht) as Hi.
    assert (Hlt : (i < length (pos (o_slots so)))%nat) by (eapply lookup_lt_Some; eauto).
    split; [|split; [|split]]; simpl.
    + now rewrite !length_insert.
    + now rewrite !length_insert.
    + intros p' i' Ht'. rewrite (list_insert_id _ _ _ Hi). now apply H3.
    + intros j inc Hj. destruct (decide (j = i)) as [->|Hne].
      * rewrite list_lookup_insert_eq in Hj by lia. injection Hj as <-.
        split; [apply in_or_app; right; now left|].
        rewrite list_lookup_insert_eq by lia. reflexivity.
      * rewrite list_lookup_insert_ne in Hj by congruence.
        rewrite list_lookup_insert_ne by congruence.
        destruct (H4 j inc Hj) as [Hin Hv].
        split; [apply in_or_app; now left|exact Hv].
  - split; [|split; [|split]]; simpl.
    + rewrite !length_app. simpl. lia.
    + rewrite !length_app. simpl. lia.
    + intros p' i'. destruct (decide (p' = p)) as [->|Hne].
      * rewrite lookup_insert_eq. intros [= <-].
        now rewrite lookup_app_r, Nat.sub_diag by lia.
      * rewrite lookup_insert_ne by congruence. intros Ht'.
        pose proof (H3 _ _ Ht') as Hi. rewrite lookup_app_l; [exact Hi|].
        eapply lookup_lt_Some; eauto.
    + intros j inc Hj. destruct (decide (j < length (owners so))%nat) as [Hlt|Hge].
      * rewrite lookup_app_l in Hj by exact Hlt.
        rewrite lookup_app_l by lia.
        destruct (H4 j inc Hj) as [Hin Hv].
        split; [apply in_or_app; now left|exact Hv].
      * rewrite lookup_app_r in Hj by lia.
        destruct (j - length (owners so))%nat eqn:Hd; [|discriminate].
        injection Hj as <-. split; [apply in_or_app; right; now left|].
        rewrite lookup_app_r by lia.
        replace (j - length (vals (o_slots so)))%nat with 0%nat by lia. reflexivity.
Qed.

Lemma place_owned_wf (h : Hashing) (elev : list float) (done : list nat) (orig : nat)
    (so so' : owned) :
  owned_wf elev done so -> place_owned h elev so orig = Ok so' ->
  owned_wf elev (done ++ [orig]) so'.
Proof.
  intros Hwf. unfold place_owned.
  destruct (choose h elev (o_slots so) orig) as [[p|]|]; simpl; try discriminate;
    intros [= <-].
  - now apply claim_owned_wf.
  - now apply owned_wf_more.
Qed.

Lemma place_all_owned_wf (h : Hashing) (elev : list float) (idxs : list nat) :
  forall done so so',
    owned_wf elev done so -> place_all_owned h elev so idxs = Ok so' ->
    owned_wf elev (done ++ idxs) so'.
Proof.
  induction idxs as [|orig rest IH]; intros done so so' Hwf; simpl.
  - intros [= <-]. now rewrite app_nil_r.
  - destruct (place_owned h elev so orig) as [so1|] eqn:Hp; [|discriminate].
    simpl bind. intros Hrest.
    replace (done ++ orig :: rest) with ((done ++ [orig]) ++ rest)
      by now rewrite <- app_assoc.
    eapply IH; [|exact Hrest]. eapply place_owned_wf; eauto.
Qed.

(** ** The order of placement *)

Lemma lt_not_le (x y : float) :
  PrimFloat.ltb x y = true -> PrimFloat.leb y x = true -> False.
Proof.
  rewrite FloatAxioms.ltb_spec, FloatAxioms.leb_spec. unfold SFltb, SFleb.
  destruct (SFcompare (Prim2SF x) (Prim2SF y)) as [c|] eqn:Hc; [|discriminate].
  rewrite (SFcompare_antisym _ _ _ Hc). destruct c; simpl; congruence.
Qed.

Lemma strict_eq_le (x y : float) : strict_eq x y = true -> le_num x y /\ le_num y x.
Proof.
  unfold strict_eq, le_num. rewrite FloatAxioms.eqb_spec, !FloatAxioms.leb_spec.
  unfold SFeqb, SFleb.
  destruct (SFcompare (Prim2SF x) (Prim2SF y)) as [c|] eqn:Hc; [|discriminate].
  rewrite (SFcompare_antisym _ _ _ Hc). destruct c; simpl; try discriminate. auto.
Qed.

Lemma seq_strongly_sorted (n : nat) : forall a, StronglySorted lt (seq a n).
Proof.
  induction n as [|n IH]; intros a; simpl; constructor; [apply IH|].
  apply List.Forall_forall. intros y Hy. apply in_seq in Hy. lia.
Qed.

Lemma StronglySorted_before {A : Type} (R : A -> A -> Prop) (l1 l2 : list A) (x : A) :
  StronglySorted R (l1 ++ x :: l2) -> forall y, In y l1 -> R y x.
Proof.
  induction l1 as [|a l1 IH]; simpl; intros Hs y Hy; [contradiction|].
  apply StronglySorted_inv in Hs as [Hs Ha]. destruct Hy as [->|Hy].
  - rewrite List.Forall_forall in Ha. apply Ha, in_or_app. right. now left.
  - now apply IH.
Qed.

Lemma StronglySorted_firstn {A : Type} (R : A -> A -> Prop) (l : list A) :
  StronglySorted R l -> forall n, StronglySorted R (firstn n l).
Proof.
  induction 1 as [|a l Hs IH Ha]; intros [|n]; simpl; constructor; [apply IH|].
  now apply Forall_take.
Qed.

Section Ranked.
Variable elev : list float.
Hypothesis elev_not_nan : Forall not_nan elev.

Lemma magnitude_not_nan (i : nat) :
  (i < length elev)%nat -> PrimFloat.is_nan (Math_abs (at_num elev i)) = false.
Proof. intros Hi. now apply abs_not_nan, at_num_not_nan. Qed.

Lemma insert_ranked (x : nat) (l : list nat) :
  (x < length elev)%nat ->
  Forall (fun y => (y < length elev)%nat) l ->
  Forall (fun y => (x < y)%nat) l ->
  StronglySorted (ranked_before elev) l ->
  StronglySorted (ranked_before elev)
    (insert_sorted (fun i j => num_gt (Math_abs (at_num elev j) - Math_abs (at_num elev i))%float
                                      0%float) x l).
Proof.
  intros Hx Hl Hlt Hs. induction l as [|y l IH]; simpl; [repeat constructor|].
  apply Forall_cons_1 in Hl as [Hy Hl]. apply Forall_cons_1 in Hlt as [Hxy Hlt].
  apply StronglySorted_inv in Hs as [Hs Hyl].
  rewrite sub_positive_iff_lt.
  destruct (PrimFloat.ltb (Math_abs (at_num elev x)) (Math_abs (at_num elev y))) eqn:E.
  - constructor; [now apply IH|].
    eapply Permutation_Forall; [symmetry; apply insert_sorted_perm|].
    constructor; [|exact Hyl]. split.
    + now apply lt_le.
    + intros Hle. exfalso. exact (lt_not_le _ _ E Hle).
  - assert (Hyx : le_num (Math_abs (at_num elev y)) (Math_abs (at_num elev x))).
    { apply not_lt_le; [now apply magnitude_not_nan..|exact E]. }
    constructor; [constructor; assumption|].
    constructor.
    + split; [exact Hyx|intros _; exact Hxy].
    + rewrite List.Forall_forall in Hyl, Hlt |- *. intros z Hz. split.
      * eapply le_num_trans; [apply (Hyl z Hz)|exact Hyx].
      * intros _. now apply Hlt.
Qed.

Lemma sort_ranked (l : list nat) :
  Forall (fun y => (y < length elev)%nat) l -> StronglySorted lt l ->
  StronglySorted (ranked_before elev)
    (sort_by (fun i j => num_gt (Math_abs (at_num elev j) - Math_abs (at_num elev i))%float
                                0%float) l).
Proof.
  induction l as [|x l IH]; simpl; intros Hl Hs; [constructor|].
  apply Forall_cons_1 in Hl as [Hx Hl]. apply StronglySorted_inv in Hs as [Hs Hxl].
  apply insert_ranked; [exact Hx| | |now apply IH].
  - eapply Permutation_Forall; [symmetry; apply sort_by_perm|exact Hl].
  - eapply Permutation_Forall; [symmetry; apply sort_by_perm|exact Hxl].
Qed.

(** The features are placed by descending magnitude, and a feature of
    smaller index before one of the same magnitude. *)
Lemma ranked_sorted (kk : Z) : StronglySorted (ranked_before elev) (ranked elev kk).
Proof.
  assert (Hs : StronglySorted (ranked_before elev)
                 (sort_by (fun i j => num_gt (Math_abs (at_num elev j)
                                              - Math_abs (at_num elev i))%float 0%float)
                          (seq 0 (length elev)))).
  { apply sort_ranked; [|apply seq_strongly_sorted].
    apply List.Forall_forall. intros y Hy. apply in_seq in Hy. lia. }
  unfold ranked. destruct (kk <? _); [|exact Hs].
  unfold slice0.
  destruct (kk <? 0); now apply StronglySorted_firstn.
Qed.
End Ranked.

(** ** The collision *)



(** * Novelty and agreement against the specification's words *)

(** ** Sums in which a zero term changes nothing *)

Lemma finite_cases (x : float) :
  isFinite x = true ->
  (exists s, Prim2SF x = S754_zero s) \/ (exists s m e, Prim2SF x = S754_finite s m e).
Proof.
  unfold isFinite, PrimFloat.is_finite, PrimFloat.is_nan, PrimFloat.is_infinity.
  rewrite !FloatAxioms.eqb_spec, FloatAxioms.abs_spec.
  assert (Hinf : Prim2SF infinity = S754_infinity false) by (vm_compute; reflexivity).
  rewrite Hinf.
  destruct (Prim2SF x) as [s|s| |s m e]; simpl; eauto; [|discriminate].
  destruct s; vm_compute; discriminate.
Qed.

Lemma zero_not_neg_zero : not_neg_zero 0%float.
Proof. unfold not_neg_zero. vm_compute. discriminate. Qed.

Lemma add_zero_r (s z : float) (sz : bool) :
  not_neg_zero s -> Prim2SF z = S754_zero sz -> (s + z)%float = s.
Proof.
  unfold not_neg_zero. intros Hs Hz. apply Prim2SF_inj.
  rewrite FloatAxioms.add_spec, Hz. unfold SF64add, SFadd.
  destruct (Prim2SF s) as [sx|sx| |sx mx ex]; try reflexivity.
  destruct sx; [congruence|]. destruct sz; reflexivity.
Qed.

Lemma add_not_neg_zero (s t : float) : not_neg_zero s -> not_neg_zero (s + t)%float.
Proof.
  unfold not_neg_zero. intros Hs. rewrite FloatAxioms.add_spec.
  pose proof (Prim2SF_valid s) as Vs. pose proof (Prim2SF_valid t) as Vt.
  unfold SF64add, SFadd.
  destruct (Prim2SF s) as [sx|sx| |sx mx ex], (Prim2SF t) as [sy|sy| |sy my ey];
    try discriminate;
    try (destruct sx, sy; try discriminate; congruence).
  destruct (valid_finite_bounds _ _ _ Vs) as (Hex & _ & _).
  destruct (valid_finite_bounds _ _ _ Vt) as (Hey & _ & _).
  set (M := (_ + _)%Z).
  destruct M as [|m|m]; simpl binary_normalize; [discriminate| |].
  - pose proof (binary_round_signed false m (Z.min ex ey) ltac:(lia)) as H.
    destruct (binary_round _ _ _ _ _); simpl in H; try contradiction; discriminate.
  - pose proof (binary_round_signed true m (Z.min ex ey) ltac:(lia)) as H.
    destruct (binary_round _ _ _ _ _); simpl in H; try contradiction; discriminate.
Qed.

Lemma mul_zero_l (z y : float) (sz : bool) :
  Prim2SF z = S754_zero sz -> isFinite y = true ->
  exists s, Prim2SF (z * y) = S754_zero s.
Proof.
  intros Hz Hy. rewrite FloatAxioms.mul_spec, Hz. unfold SF64mul, SFmul.
  destruct (finite_cases y Hy) as [[s ->]|(s & m & e & ->)]; eauto.
Qed.

Lemma mul_zero_r (x z : float) (sz : bool) :
  isFinite x = true -> Prim2SF z = S754_zero sz ->
  exists s, Prim2SF (x * z) = S754_zero s.
Proof.
  intros Hx Hz. rewrite FloatAxioms.mul_spec, Hz. unfold SF64mul, SFmul.
  destruct (finite_cases x Hx) as [[s ->]|(s & m & e & ->)]; eauto.
Qed.

(** [x || 0] on a finite number: the number itself, or [0] for a zero. *)
Lemma or_zero_finite (x : float) :
  isFinite x = true ->
  or_zero (Some x) = x \/ exists s, Prim2SF x = S754_zero s /\ or_zero (Some x) = 0%float.
Proof.
  intros Hx. unfold or_zero, PrimFloat.is_nan, PrimFloat.is_zero.
  rewrite !FloatAxioms.eqb_spec.
  assert (H0 : Prim2SF PrimFloat.zero = S754_zero false) by (vm_compute; reflexivity).
  rewrite H0.
  destruct (finite_cases x Hx) as [[s Hs]|(s & m & e & Hs)]; rewrite Hs.
  - right. exists s. split; [reflexivity|]. destruct s; reflexivity.
  - left. unfold SFeqb. simpl. rewrite Z.compare_refl, Pos.compare_cont_refl.
    destruct s; reflexivity.
Qed.

Lemma zero_finite : isFinite 0%float = true.
Proof. vm_compute. reflexivity. Qed.

Lemma zero_is_zero : Prim2SF 0%float = S754_zero false.
Proof. vm_compute. reflexivity. Qed.

(** Adding [(x || 0) * (y || 0)] or [x * y] to a running sum gives the
    same sum, for finite [x] and [y]. *)
Lemma add_or_zero_product (s x y : float) :
  not_neg_zero s -> isFinite x = true -> isFinite y = true ->
  (s + or_zero (Some x) * or_zero (Some y))%float = (s + x * y)%float.
Proof.
  intros Hs Hx Hy.
  destruct (or_zero_finite x Hx) as [->|(sx & Hzx & ->)].
  - destruct (or_zero_finite y Hy) as [->|(sy & Hzy & ->)]; [reflexivity|].
    destruct (mul_zero_r x 0 false Hx zero_is_zero) as [s1 H1].
    destruct (mul_zero_r x y sy Hx Hzy) as [s2 H2].
    now rewrite (add_zero_r s _ s1 Hs H1), (add_zero_r s _ s2 Hs H2).
  - assert (Hy' : isFinite (or_zero (Some y)) = true).
    { destruct (or_zero_finite y Hy) as [->|(sy & _ & ->)]; [exact Hy|exact zero_finite]. }
    destruct (mul_zero_l 0 _ false zero_is_zero Hy') as [s1 H1].
    destruct (mul_zero_l x y sx Hzx Hy) as [s2 H2].
    now rewrite (add_zero_r s _ s1 Hs H1), (add_zero_r s _ s2 Hs H2).
Qed.

Lemma add_or_zero_absent_r (s x : float) :
  not_neg_zero s -> isFinite x = true ->
  (s + or_zero (Some x) * or_zero None)%float = s.
Proof.
  intros Hs Hx. simpl (or_zero None).
  assert (Hx' : isFinite (or_zero (Some x)) = true).
  { destruct (or_zero_finite x Hx) as [->|(sx & _ & ->)]; [exact Hx|exact zero_finite]. }
  destruct (mul_zero_r _ 0 false Hx' zero_is_zero) as [s1 H1].
  exact (add_zero_r s _ s1 Hs H1).
Qed.

Lemma add_or_zero_absent_l (s y : float) :
  not_neg_zero s -> isFinite y = true ->
  (s + or_zero None * or_zero (Some y))%float = s.
Proof.
  intros Hs Hy. simpl (or_zero None).
  assert (Hy' : isFinite (or_zero (Some y)) = true).
  { destruct (or_zero_finite y Hy) as [->|(sy & _ & ->)]; [exact Hy|exact zero_finite]. }
  destruct (mul_zero_l 0 _ false zero_is_zero Hy') as [s1 H1].
  exact (add_zero_r s _ s1 Hs H1).
Qed.

Lemma add_zero_absent (s : float) :
  not_neg_zero s -> (s + or_zero None * or_zero None)%float = s.
Proof.
  intros Hs. simpl (or_zero None).
  destruct (mul_zero_l 0 0 false zero_is_zero zero_finite) as [s1 H1].
  exact (add_zero_r s _ s1 Hs H1).
Qed.

(** ** Reading a dictionary of finite numbers *)

Lemma get_In {V : Type} (d : Obj.obj V) (k : Z) (v : V) :
  Obj.get d k = Some v -> In (k, v) d.
Proof.
  induction d as [|[k' v'] d IH]; simpl; [discriminate|].
  destruct (Z.eqb_spec k k') as [->|Hne]; [intros [= ->]; now left|].
  intros H. right. now apply IH.
Qed.

Lemma get_entry {V : Type} (d : Obj.obj V) (k : Z) (v : V) :
  NoDup (Obj.keys d) -> In (k, v) d -> Obj.get d k = Some v.
Proof.
  induction d as [|[k' v'] d IH]; simpl; [contradiction|].
  intros Hnd Hin. apply NoDup_cons in Hnd as [Hk Hnd].
  destruct Hin as [[= -> ->]|Hin]; [now rewrite Z.eqb_refl|].
  destruct (Z.eqb_spec k k') as [->|Hne]; [|now apply IH].
  exfalso. apply Hk. apply list_elem_of_In.
  change k' with (fst (k', v)). now apply in_map.
Qed.

Lemma get_absent {V : Type} (d : Obj.obj V) (k : Z) :
  ~ In k (Obj.keys d) -> Obj.get d k = None.
Proof.
  induction d as [|[k' v'] d IH]; simpl; [reflexivity|].
  intros H. destruct (Z.eqb_spec k k') as [->|Hne]; [tauto|]. apply IH. tauto.
Qed.

Lemma finite_dict_get (d : Obj.dict) (k : Z) (v : option float) :
  finite_dict d -> Obj.get d k = Some v -> exists x, v = Some x /\ isFinite x = true.
Proof.
  intros [_ Hv] Hg. apply get_In in Hg.
  rewrite List.Forall_forall in Hv. apply Hv.
  change v with (snd (k, v)). now apply in_map.
Qed.

Lemma finite_dict_read (d : Obj.dict) (k : Z) :
  finite_dict d ->
  (Obj.get d k = None /\ Obj.read d k = None)
  \/ exists x, Obj.get d k = Some (Some x) /\ Obj.read d k = Some x /\ isFinite x = true.
Proof.
  intros Hd. unfold Obj.read. destruct (Obj.get d k) as [v|] eqn:Hg; [|now left].
  destruct (finite_dict_get d k v Hd Hg) as (x & -> & Hx). right. eauto.
Qed.

(** ** The code's cosine is the cosine *)

Lemma to_set_app_split (l1 l2 : list Z) : forall seen,
  exists tail,
    Obj.to_set (l1 ++ l2) seen = Obj.to_set l1 seen ++ tail
    /\ forall x, x ∈ tail -> (x ∈ l2) /\ (x ∉ l1) /\ (x ∉ seen).
Proof.
  induction l1 as [|y l1 IH]; intros seen; simpl.
  - exists (Obj.to_set l2 seen). split; [reflexivity|].
    intros x Hx. apply to_set_elem in Hx as [H1 H2].
    split; [exact H1|]. split; [apply not_elem_of_nil|exact H2].
  - destruct (bool_decide_reflect (y ∈ seen)) as [Hy|Hy].
    + destruct (IH seen) as (tail & -> & Ht). exists tail. split; [reflexivity|].
      intros x Hx. destruct (Ht x Hx) as (H1 & H2 & H3).
      split; [exact H1|]. split; [|exact H3].
      rewrite elem_of_cons. intros [->|?]; tauto.
    + destruct (IH (y :: seen)) as (tail & -> & Ht). exists tail. split; [reflexivity|].
      intros x Hx. destruct (Ht x Hx) as (H1 & H2 & H3).
      rewrite elem_of_cons in H3.
      split; [exact H1|]. split; [|tauto].
      rewrite elem_of_cons. tauto.
Qed.

Section Cosine.
Variables a b : Obj.dict.
Hypothesis finite_a : finite_dict a.
Hypothesis finite_b : finite_dict b.

Lemma dot_shared (l : list (Z * option float)) : forall s,
  (forall e, In e l -> In e a) -> not_neg_zero s ->
  fold_left (fun dot key =>
               (dot + or_zero (Obj.read a key) * or_zero (Obj.read b key))%float)
            (map fst l) s
  = fold_left (fun s '(key, va) =>
                 match Obj.get b key with
                 | Some vb => (s + Obj.to_num va * Obj.to_num vb)%float
                 | None => s
                 end) l s
  /\ not_neg_zero
       (fold_left (fun dot key =>
                     (dot + or_zero (Obj.read a key) * or_zero (Obj.read b key))%float)
                  (map fst l) s).
Proof.
  induction l as [|[k va] l IH]; intros s Hl Hs; simpl; [now split|].
  assert (Hka : Obj.get a k = Some va).
  { apply get_entry; [apply finite_a|]. apply Hl. now left. }
  destruct (finite_dict_get a k va finite_a Hka) as (x & -> & Hx).
  assert (Hra : Obj.read a k = Some x) by (unfold Obj.read; now rewrite Hka).
  rewrite Hra.
  destruct (finite_dict_read b k finite_b) as [[Hg Hr]|(y & Hg & Hr & Hy)];
    rewrite Hg, Hr.
  - rewrite (add_or_zero_absent_r s x Hs Hx).
    apply IH; [|exact Hs]. intros e He. apply Hl. now right.
  - rewrite (add_or_zero_product s x y Hs Hx Hy). simpl Obj.to_num.
    apply IH; [|now apply add_not_neg_zero]. intros e He. apply Hl. now right.
Qed.

Lemma dot_unshared (tail : list Z) : forall s,
  (forall k, In k tail -> ~ In k (Obj.keys a)) -> not_neg_zero s ->
  fold_left (fun dot key =>
               (dot + or_zero (Obj.read a key) * or_zero (Obj.read b key))%float)
            tail s = s.
Proof.
  induction tail as [|k tail IH]; intros s Ht Hs; simpl; [reflexivity|].
  assert (Hka : Obj.read a k = None).
  { unfold Obj.read. rewrite get_absent; [reflexivity|]. apply Ht. now left. }
  rewrite Hka.
  destruct (finite_dict_read b k finite_b) as [[_ Hr]|(y & _ & Hr & Hy)]; rewrite Hr.
  - rewrite (add_zero_absent s Hs). apply IH; [|exact Hs].
    intros k' Hk'. apply Ht. now right.
  - rewrite (add_or_zero_absent_l s y Hs Hy). apply IH; [|exact Hs].
    intros k' Hk'. apply Ht. now right.
Qed.

Lemma code_dot :
  fold_left (fun dot key =>
               (dot + or_zero (Obj.read a key) * or_zero (Obj.read b key))%float)
            (Obj.to_set (Obj.keys a ++ Obj.keys b) []) 0%float
  = Spec.dot a b.
Proof.
  destruct (to_set_app_split (Obj.keys a) (Obj.keys b) []) as (tail & -> & Ht).
  assert (Hk : Obj.to_set (Obj.keys a) [] = Obj.keys a).
  { pose proof (to_set_NoDup_id (Obj.keys a) [] [] (proj1 finite_a)) as H.
    rewrite app_nil_r in H. apply H.
    - intros x _. apply not_elem_of_nil.
    - intros x Hx. now apply elem_of_nil in Hx. }
  rewrite Hk, fold_left_app.
  destruct (dot_shared a 0%float (fun e He => He) zero_not_neg_zero) as [Heq Hnz].
  unfold Obj.keys at 1. rewrite dot_unshared; [exact Heq| |exact Hnz].
  intros k Hk' Hin. apply list_elem_of_In in Hk', Hin.
  destruct (Ht k Hk') as (_ & Hn & _). contradiction.
Qed.
End Cosine.

Lemma sumsq_dot (a : Obj.dict) :
  NoDup (Obj.keys a) -> RhSparse.sumsq a = Spec.dot a a.
Proof.
  intros Hnd. unfold RhSparse.sumsq, Spec.dot, Obj.values.
  assert (H : forall l s, (forall e, In e l -> In e a) ->
            fold_left (fun acc v => (acc + Obj.to_num v * Obj.to_num v)%float)
                      (map snd l) s
            = fold_left (fun s '(key, va) =>
                           match Obj.get a key with
                           | Some vb => (s + Obj.to_num va * Obj.to_num vb)%float
                           | None => s
                           end) l s).
  { induction l as [|[k va] l IH]; intros s Hl; simpl; [reflexivity|].
    rewrite (get_entry a k va Hnd) by (apply Hl; now left).
    apply IH. intros e He. apply Hl. now right. }
  apply H. auto.
Qed.

Lemma sparse_cosine_spec (a b : Obj.dict) :
  finite_dict a -> finite_dict b -> RhSparse.sparse_cosine a b = Spec.cosine a b.
Proof.
  intros Ha Hb. unfold RhSparse.sparse_cosine, Spec.cosine, Spec.norm.
  rewrite (code_dot a b Ha Hb), (sumsq_dot a (proj1 Ha)), (sumsq_dot b (proj1 Hb)).
  destruct a as [|ea a]; [reflexivity|].
  destruct b as [|eb b]; reflexivity.
Qed.

(** ** The dictionaries in the rings *)

Lemma to_dict_finite (ps : list Z) (es : list float) :
  finite_elevations ps es -> finite_dict (Obj.to_dict ps es).
Proof.
  intros [Hlen Hfin].
  assert (H : keys_ascending (Obj.to_dict ps es)
              /\ Forall (fun kv => exists x, snd kv = Some x /\ isFinite x = true)
                        (Obj.to_dict ps es)).
  { induction ps as [|p ps IH] using rev_ind.
    - split; constructor.
    - rewrite length_app in Hlen. simpl in Hlen.
      destruct IH as [IH1 IH2]; [lia|].
      rewrite to_dict_snoc. split; [now apply Obj_set_ascending|].
      apply Obj_set_Forall; [|exact IH2]. simpl.
      destruct (lookup_lt_is_Some_2 es (length ps) ltac:(lia)) as [e He].
      exists e. split; [exact He|].
      rewrite List.Forall_forall in Hfin. apply Hfin.
      eapply list_elem_of_In, list_elem_of_lookup_2, He. }
  destruct H as [H1 H2]. split.
  - apply Sorted_lt_NoDup, StronglySorted_Sorted, H1.
  - unfold Obj.values. apply List.Forall_forall. intros v Hv.
    apply in_map_iff in Hv as (kv & <- & Hkv).
    rewrite List.Forall_forall in H2. now apply H2.
Qed.

Lemma new_tracker_rings_hold (P : Obj.dict -> Prop) (scales : list Z) (knn : Z) :
  rings_hold P (RhSparse.new_tracker scales knn).
Proof.
  unfold rings_hold, RhSparse.new_tracker. simpl.
  assert (H : forall acc : Obj.obj RhSparse.ring,
            Forall (fun e => Forall P (RhSparse.buf (snd e))) acc ->
            Forall (fun e => Forall P (RhSparse.buf (snd e)))
                   (fold_left (fun h s => Obj.set s {| RhSparse.buf := [];
                                                       RhSparse.cap := s |} h)
                              scales acc)).
  { induction scales as [|s scales IH]; intros acc Hacc; simpl; [exact Hacc|].
    apply IH, Obj_set_Forall; [constructor|exact Hacc]. }
  apply H. constructor.
Qed.

Lemma update_rings_hold (P : Obj.dict -> Prop) (t : RhSparse.MultiScaleAnomaly)
    (sig : RhSparse.Signature) :
  P (RhSparse.sig_to_dict sig) -> rings_hold P t ->
  rings_hold P (snd (RhSparse.update_and_score t sig)).
Proof.
  unfold rings_hold. intros Hq Ht. rewrite update_rings.
  apply List.Forall_forall. intros e He.
  apply in_map_iff in He as ([s r] & <- & Hin).
  rewrite List.Forall_forall in Ht. specialize (Ht _ Hin). simpl in *.
  assert (Hb : Forall P (RhSparse.buf r ++ [RhSparse.sig_to_dict sig])).
  { apply Forall_app. split; [exact Ht|]. now repeat constructor. }
  destruct (_ <? _); [|exact Hb].
  destruct (RhSparse.buf r ++ _) as [|x l]; [constructor|].
  now apply Forall_cons_1 in Hb as [_ Hb].
Qed.

Lemma run_tracker_rings_hold (P : Obj.dict -> Prop) (sigs : list RhSparse.Signature) :
  forall t,
    Forall (fun s => P (RhSparse.sig_to_dict s)) sigs -> rings_hold P t ->
    rings_hold P (run_tracker t sigs).
Proof.
  induction sigs as [|sig sigs IH]; intros t Hs Ht; [exact Ht|].
  apply Forall_cons_1 in Hs as [Hsig Hs].
  change (run_tracker t (sig :: sigs))
    with (run_tracker (snd (RhSparse.update_and_score t sig)) sigs).
  apply IH; [exact Hs|]. now apply update_rings_hold.
Qed.

(** ** The top of the sorted similarities *)

Lemma sort_descending_largest (l : list float) :
  RhSparse.sort_descending l
  = match Spec.largest l with
    | None => []
    | Some (m, others) => m :: RhSparse.sort_descending others
    end.
Proof.
  induction l as [|x l IH]; [reflexivity|].
  change (RhSparse.sort_descending (x :: l))
    with (insert_sorted (fun a b => num_gt (b - a)%float 0%float) x
            (RhSparse.sort_descending l)).
  rewrite IH. simpl Spec.largest.
  destruct (Spec.largest l) as [[m others]|]; [|reflexivity].
  simpl insert_sorted. rewrite sub_positive_iff_lt.
  destruct (PrimFloat.ltb x m); [reflexivity|].
  now rewrite IH.
Qed.

Lemma firstn_sort_descending (n : nat) : forall l,
  firstn n (RhSparse.sort_descending l) = Spec.top_k n l.
Proof.
  induction n as [|n IH]; intros l; [reflexivity|].
  rewrite sort_descending_largest. simpl Spec.top_k.
  destruct (Spec.largest l) as [[m others]|]; [|reflexivity].
  simpl. now rewrite IH.
Qed.

(** Without [NaN], the top values are in descending order and none of
    the values left out is larger than one of them. *)
Lemma top_k_largest (n : nat) (l : list float) :
  Forall not_nan l ->
  StronglySorted (fun a b => le_num b a) (Spec.top_k n l)
  /\ forall rest, rest = skipn n (RhSparse.sort_descending l) ->
       Permutation l (Spec.top_k n l ++ rest)
       /\ Forall (fun a => Forall (fun b => le_num b a) rest) (Spec.top_k n l).
Proof.
  intros Hl. rewrite <- firstn_sort_descending.
  pose proof (sort_desc_strongly (fun x : float => x) l Hl) as Hs.
  change (sort_by _ l) with (RhSparse.sort_descending l) in Hs.
  split; [now apply StronglySorted_firstn|].
  intros rest ->. split.
  - rewrite firstn_skipn. symmetry. apply sort_by_perm.
  - apply List.Forall_forall. intros a Ha. apply List.Forall_forall. intros b Hb.
    apply (sort_desc_take (fun x : float => x) l n a b Hl); now apply list_elem_of_In.
Qed.

(** The average that [_topk_avg] returns. *)
Lemma topk_avg_top (r : RhSparse.ring) (q : Obj.dict) (k : Z) :
  1 <= k ->
  let sims := map (fun s => RhSparse.sparse_cosine q s) (RhSparse.buf r) in
  exists top rest,
    Permutation sims (top ++ rest)
    /\ Z.of_nat (length top) = Z.min k (Z.of_nat (length (RhSparse.buf r)))
    /\ top = Spec.top_k (Z.to_nat k) sims
    /\ rest = skipn (Z.to_nat k) (RhSparse.sort_descending sims)
    /\ RhSparse.topk_avg r q k = Spec.average top.
Proof.
  intros Hk sims.
  set (sorted := RhSparse.sort_descending sims).
  assert (Hlen : length sorted = length (RhSparse.buf r)).
  { unfold sorted, RhSparse.sort_descending.
    rewrite sort_by_length. unfold sims. apply length_map. }
  exists (firstn (Z.to_nat k) sorted), (skipn (Z.to_nat k) sorted).
  split; [|split; [|split; [|split]]].
  - rewrite firstn_skipn. symmetry. apply sort_by_perm.
  - rewrite length_firstn, Hlen. lia.
  - apply firstn_sort_descending.
  - reflexivity.
  - unfold RhSparse.topk_avg. fold sims. fold sorted.
    destruct (RhSparse.buf r) as [|s0 b] eqn:Hb.
    + simpl. subst sorted sims. simpl. now destruct (Z.to_nat k).
    + simpl (length (s0 :: b) =? 0)%nat. cbv iota.
      set (kEff := Z.max 1 (Z.min k (Z.of_nat (length sorted)))).
      assert (Hpos : (1 <= length sorted)%nat) by (rewrite Hlen; simpl; lia).
      unfold slice0. destruct (Z.ltb_spec kEff 0); [unfold kEff in *; lia|].
      assert (Hfirst : firstn (Z.to_nat kEff) sorted = firstn (Z.to_nat k) sorted).
      { destruct (Z.le_gt_cases k (Z.of_nat (length sorted))) as [Hle|Hgt].
        - f_equal. unfold kEff. lia.
        - rewrite !firstn_all2; [reflexivity| |]; unfold kEff; lia. }
      rewrite Hfirst. unfold Spec.average.
      destruct (firstn (Z.to_nat k) sorted) as [|x top] eqn:Htop.
      * exfalso. apply (f_equal (@length float)) in Htop.
        rewrite length_firstn in Htop. simpl in Htop. lia.
      * rewrite <- Htop. f_equal. unfold of_nat. f_equal.
        rewrite length_firstn. unfold kEff. lia.
Qed.

(** The scores of one call, for a tracker whose scale keys are listed in
    ascending order. *)
Lemma update_and_score_per (t : RhSparse.MultiScaleAnomaly) (sig : RhSparse.Signature) :
  keys_ascending (RhSparse.hist t) ->
  let q := RhSparse.sig_to_dict sig in
  RhSparse.per (fst (RhSparse.update_and_score t sig))
  = map (fun '(s, r) => (s, (1 - RhSparse.topk_avg r q (RhSparse.knn_k t))%float))
        (RhSparse.hist t)
  /\ (RhSparse.hist t <> [] ->
      RhSparse.combined (fst (RhSparse.update_and_score t sig))
      = Spec.mean (Obj.values (RhSparse.per (fst (RhSparse.update_and_score t sig))))).
Proof.
  intros Hasc q. unfold RhSparse.update_and_score. fold q.
  simpl fst. simpl RhSparse.per. simpl RhSparse.combined.
  rewrite (fold_set_ascending
             (fun r => (1 - RhSparse.topk_avg r q (RhSparse.knn_k t))%float)
             (RhSparse.hist t) [] Hasc ltac:(constructor)).
  simpl app. split; [reflexivity|].
  intros Hne. unfold Spec.mean, Obj.values. rewrite !length_map.
  destruct (RhSparse.hist t) as [|e h]; [contradiction|]. reflexivity.
Qed.



(** The same call, computed: the ring of capacity [3] holds similarities
    [0.447..., 1, 0] (in the order of arrival) and the top one is [1];
    the ring of capacity [1] holds the last signature only, which shares
    no position with the new one. *)
Example update_and_score_example :
  let sigs := [{| RhSparse.positions := [3; 7]; RhSparse.elevations := [1; 2]%float |};
               {| RhSparse.positions := [3]; RhSparse.elevations := [1]%float |};
               {| RhSparse.positions := [7]; RhSparse.elevations := [1]%float |}] in
  let sig := {| RhSparse.positions := [3]; RhSparse.elevations := [1]%float |} in
  let t := run_tracker (RhSparse.new_tracker [3; 1] 1) sigs in
  let q := RhSparse.sig_to_dict sig in
  map (fun '(s, r) => (s, map (fun d => Spec.cosine q d) (RhSparse.buf r)))
      (RhSparse.hist t)
  = [(1, [0%float]); (3, [0.44721359549995793; 1; 0]%float)]
  /\ fst (RhSparse.update_and_score t sig)
     = {| RhSparse.combined := 0.5%float;
          RhSparse.per := [(1, 1%float); (3, 0%float)] |}.
Proof. split; vm_compute; reflexivity. Qed.

(** ** The agreement cosine is the cosine on the coordinates of [A_Q] *)

Lemma zip_snoc {A B : Type} (l : list A) (x : A) : forall (k : list B) (e : B),
  k !! length l = Some e -> zip (l ++ [x]) k = zip l k ++ [(x, e)].
Proof.
  induction l as [|y l IH]; intros [|e0 k] e He; simpl in *; try discriminate.
  - injection He as ->. reflexivity.
  - f_equal. now apply IH.
Qed.

(** Reading the dictionary of a signature gives its coordinate. *)
Lemma coordinate_read (S : KK.Signature) (p : Z) :
  finite_elevations (KK.positions S) (KK.elevations S) ->
  (Obj.read (KK.dict_of S) p = None /\ Spec.coordinate S p = 0%float)
  \/ exists e, Obj.read (KK.dict_of S) p = Some e /\ Spec.coordinate S p = e
               /\ isFinite e = true.
Proof.
  intros [Hlen Hfin]. unfold KK.dict_of, Spec.coordinate, Obj.read.
  destruct S as [ps es D]. simpl in *.
  assert (H : (Obj.get (Obj.to_dict ps es) p = None
               /\ fold_left (fun c '(q, e) => if q =? p then e else c) (zip ps es) 0%float
                  = 0%float)
              \/ exists e, Obj.get (Obj.to_dict ps es) p = Some (Some e)
                           /\ fold_left (fun c '(q, e) => if q =? p then e else c)
                                        (zip ps es) 0%float = e
                           /\ In e es).
  { induction ps as [|x ps IH] using rev_ind; [now left|].
    rewrite length_app in Hlen. simpl in Hlen.
    destruct (lookup_lt_is_Some_2 es (length ps) ltac:(lia)) as [e He].
    rewrite to_dict_snoc, (zip_snoc ps x es e He), fold_left_app, He. simpl.
    destruct (Z.eqb_spec x p) as [->|Hne].
    - right. exists e. rewrite Obj_get_set_eq.
      split; [reflexivity|]. split; [reflexivity|].
      eapply list_elem_of_In, list_elem_of_lookup_2, He.
    - rewrite Obj_get_set_ne by exact Hne. apply IH. lia. }
  destruct H as [[-> ->]|(e & -> & -> & Hin)]; [now left|].
  right. exists e. split; [reflexivity|]. split; [reflexivity|].
  rewrite List.Forall_forall in Hfin. now apply Hfin.
Qed.

Section Agreement.
Variables Q X : KK.Signature.
Hypothesis finite_Q : finite_elevations (KK.positions Q) (KK.elevations Q).
Hypothesis finite_X : finite_elevations (KK.positions X) (KK.elevations X).

Lemma zero_product_l (s y : float) :
  not_neg_zero s -> isFinite y = true -> (s + 0 * y)%float = s.
Proof.
  intros Hs Hy. destruct (mul_zero_l 0 y false zero_is_zero Hy) as [s1 H1].
  exact (add_zero_r s _ s1 Hs H1).
Qed.

Lemma zero_product_r (s x : float) :
  not_neg_zero s -> isFinite x = true -> (s + x * 0)%float = s.
Proof.
  intros Hs Hx. destruct (mul_zero_r x 0 false Hx zero_is_zero) as [s1 H1].
  exact (add_zero_r s _ s1 Hs H1).
Qed.

(** One term of a sum over [A_Q], for two signatures [S] and [T]. *)
Lemma agreement_term (S T : KK.Signature) (s : float) (p : Z) :
  finite_elevations (KK.positions S) (KK.elevations S) ->
  finite_elevations (KK.positions T) (KK.elevations T) ->
  not_neg_zero s ->
  (s + or_zero (Obj.read (KK.dict_of S) p) * or_zero (Obj.read (KK.dict_of T) p))%float
  = (s + Spec.coordinate S p * Spec.coordinate T p)%float.
Proof.
  intros HS HT Hs.
  destruct (coordinate_read S p HS) as [[-> ->]|(x & -> & -> & Hx)];
    destruct (coordinate_read T p HT) as [[-> ->]|(y & -> & -> & Hy)].
  - rewrite (add_zero_absent s Hs). symmetry. now apply zero_product_l, zero_finite.
  - rewrite (add_or_zero_absent_l s y Hs Hy). symmetry. now apply zero_product_l.
  - rewrite (add_or_zero_absent_r s x Hs Hx). symmetry. now apply zero_product_r.
  - now apply add_or_zero_product.
Qed.

Lemma agreement_sum (S T : KK.Signature) (A : list Z) :
  finite_elevations (KK.positions S) (KK.elevations S) ->
  finite_elevations (KK.positions T) (KK.elevations T) ->
  forall s, not_neg_zero s ->
    fold_left (fun s p => (s + or_zero (Obj.read (KK.dict_of S) p)
                              * or_zero (Obj.read (KK.dict_of T) p))%float) A s
    = fold_left (fun s '(x, y) => (s + x * y)%float)
                (zip (map (Spec.coordinate S) A) (map (Spec.coordinate T) A)) s.
Proof.
  intros HS HT. induction A as [|p A IH]; intros s Hs; simpl; [reflexivity|].
  rewrite (agreement_term S T s p HS HT Hs).
  apply IH, add_not_neg_zero, Hs.
Qed.

Lemma squares_sum (l : list float) : forall s,
  fold_left (fun s '(x, y) => (s + x * y)%float) (zip l l) s
  = fold_left (fun s x => (s + x * x)%float) l s.
Proof. induction l as [|x l IH]; intros s; simpl; [reflexivity|apply IH]. Qed.

Lemma agreement_fold (A : list Z) : forall dot nQ nX,
  fold_left
    (fun '(dot, nQa2, nXa2) p =>
       let q := or_zero (Obj.read (KK.dict_of Q) p) in
       let x := or_zero (Obj.read (KK.dict_of X) p) in
       ((dot + q * x)%float, (nQa2 + q * q)%float, (nXa2 + x * x)%float))
    A (dot, nQ, nX)
  = (fold_left (fun s p => (s + or_zero (Obj.read (KK.dict_of Q) p)
                              * or_zero (Obj.read (KK.dict_of X) p))%float) A dot,
     fold_left (fun s p => (s + or_zero (Obj.read (KK.dict_of Q) p)
                              * or_zero (Obj.read (KK.dict_of Q) p))%float) A nQ,
     fold_left (fun s p => (s + or_zero (Obj.read (KK.dict_of X) p)
                              * or_zero (Obj.read (KK.dict_of X) p))%float) A nX).
Proof. induction A as [|p A IH]; intros dot nQ nX; simpl; [reflexivity|apply IH]. Qed.

Lemma anomalyAgreementCosine_spec (M : Z) (eps : float) :
  KK.anomalyAgreementCosine Q X M eps
  = Spec.agreement_cosine Q X (KK.anomalySet Q M) eps.
Proof.
  unfold KK.anomalyAgreementCosine, Spec.agreement_cosine, Spec.cosine_eps.
  set (A := KK.anomalySet Q M).
  rewrite agreement_fold.
  rewrite (agreement_sum Q X A finite_Q finite_X 0%float zero_not_neg_zero).
  rewrite (agreement_sum Q Q A finite_Q finite_Q 0%float zero_not_neg_zero).
  rewrite (agreement_sum X X A finite_X finite_X 0%float zero_not_neg_zero).
  rewrite !squares_sum.
  destruct A as [|p A]; reflexivity.
Qed.
End Agreement.



(** ** The specification's formulas on concrete inputs *)

Example spec_formulas_examples :
  let Q := {| KK.positions := [1; 5; 9];
              KK.elevations := [0.5; 0.75; 0.25]%float;
              KK.dimension := 16 |} in
  let X := {| KK.positions := [5; 9; 11];
              KK.elevations := [0.5; 0.5; 0.25]%float;
              KK.dimension := 16 |} in
  Spec.top_k 3 [0.25; 1; 0.5; 1]%float = [1; 1; 0.5]%float
  /\ Spec.average [1; 0.5]%float = 0.75%float
  /\ Spec.cosine [(3, Some 1%float)] [(3, Some 1%float); (7, Some 2%float)]
     = 0.44721359549995793%float
  /\ Spec.cosine [(3, Some 1%float)] [(7, Some 2%float)] = 0%float
  /\ KK.anomalySet Q 2 = [5; 1]
  /\ map (Spec.coordinate Q) [5; 1] = [0.75; 0.5]%float
  /\ map (Spec.coordinate X) [5; 1] = [0.5; 0]%float
  /\ KK.b (KK.kkScore Q X 0.5 0.5 2 c_1em12) = 0.83205029433599764%float
  /\ Spec.winner Spec.index_tie_break (0%nat, 1%float) (1%nat, (-1)%float)
     = (0%nat, 1%float)
  /\ Spec.winner Spec.index_tie_break (0%nat, 1%float) (1%nat, (-2)%float)
     = (1%nat, (-2)%float).
Proof. repeat split; vm_compute; reflexivity. Qed.
